(** * STFT / iSTFT and chunked mask inference of the UVR CoreML proof of concept

    A shallow embedding of the numerical core of the diagnostic scripts under
    [poc/uvr_coreml]:

    - [test_stft_simple.py]          ([manual_stft_istft]): framing, windowing,
      [np.fft.fft] / [np.fft.ifft] and overlap-add;
    - [compare_stft_scaling.py]      ([np.fft.rfft] / [np.fft.irfft]);
    - [compare_dft_single_frame.py]  (one Hann-windowed 440 Hz frame);
    - [python/test_separation.py] and [test_python_reference.py]
      ([run_onnx_inference], [apply_mask], the instrumental mask).

    Arithmetic is exact: a NumPy float is a real number of [R], a NumPy
    complex is a pair of reals.  The roundings of [astype(np.float32)] inside
    the STFT script are not modelled; the casts in [run_onnx_inference] are
    kept as an abstract function [f32].  Python exceptions are values of an
    error monad. *)

From Stdlib Require Import Reals Lra Lia List ZArith Bool Arith Psatz.
Import ListNotations.

Open Scope R_scope.

(** ** Python exceptions *)

Inductive pyerr : Type :=
| ValueError
| IndexError
| ZeroDivisionError.

Inductive result (A : Type) : Type :=
| Ok (a : A)
| Raise (e : pyerr).

Arguments Ok {A} a.
Arguments Raise {A} e.

Definition bind {A B : Type} (m : result A) (k : A -> result B) : result B :=
  match m with
  | Ok a => k a
  | Raise e => Raise e
  end.

Notation "x <- m ;; k" := (bind m (fun x => k))
  (at level 61, m at next level, right associativity).

(** [[f(i) for i in l]] where [f] may raise: the first exception wins. *)
Fixpoint mapM {A B : Type} (f : A -> result B) (l : list A) : result (list B) :=
  match l with
  | [] => Ok []
  | a :: l' => b <- f a ;; bs <- mapM f l' ;; Ok (b :: bs)
  end.

(** [range(n)] for a Python integer [n]: empty when [n <= 0]. *)
Definition range (n : Z) : list nat := seq 0 (Z.to_nat n).

(** ** Complex numbers *)

Definition C : Type := (R * R)%type.

Definition Cre (z : C) : R := fst z.
Definition Cim (z : C) : R := snd z.
Definition RtoC (x : R) : C := (x, 0).
Definition C0 : C := (0, 0).
Definition Cadd (z w : C) : C := (fst z + fst w, snd z + snd w).
Definition Cmul (z w : C) : C :=
  (fst z * fst w - snd z * snd w, fst z * snd w + snd z * fst w).
Definition Cscale (r : R) (z : C) : C := (r * fst z, r * snd z).
Definition Cconj (z : C) : C := (fst z, - snd z).

(** [np.abs] on a complex number. *)
Definition Cmod (z : C) : R := sqrt (fst z * fst z + snd z * snd z).

(** [np.exp(1j * theta)]. *)
Definition cis (theta : R) : C := (cos theta, sin theta).

(** [np.arctan2 y x] on reals (no signed zeros). *)
Definition atan2 (y x : R) : R :=
  if Rlt_dec 0 x then atan (y / x)
  else if Rlt_dec x 0 then
         if Rle_dec 0 y then atan (y / x) + PI else atan (y / x) - PI
       else if Rlt_dec 0 y then PI / 2
            else if Rlt_dec y 0 then - (PI / 2) else 0.

(** [np.angle]. *)
Definition angle (z : C) : R := atan2 (snd z) (fst z).

(** ** Finite sums *)

(** [Rsum f n] is f 0 + ... + f (n-1). *)
Fixpoint Rsum (f : nat -> R) (n : nat) : R :=
  match n with
  | O => 0
  | S m => Rsum f m + f m
  end.

Definition Csum (f : nat -> C) (n : nat) : C :=
  (Rsum (fun i => fst (f i)) n, Rsum (fun i => snd (f i)) n).

(** ** NumPy FFT routines (their documented definition) *)

(** The twiddle angle 2*pi*k*n/N. *)
Definition tw (N k n : nat) : R := 2 * PI * INR k * INR n / INR N.

(** X[k] = sum_n a[n] * exp(-2*pi*i*k*n/N). *)
Definition dft (a : list C) : list C :=
  let N := length a in
  map (fun k => Csum (fun n => Cmul (nth n a C0) (cis (- tw N k n))) N) (seq 0 N).

(** a[n] = 1/N * sum_k X[k] * exp(+2*pi*i*k*n/N). *)
Definition idft (X : list C) : list C :=
  let N := length X in
  map (fun n => Cscale (/ INR N)
                  (Csum (fun k => Cmul (nth k X C0) (cis (tw N k n))) N))
      (seq 0 N).

(** [np.fft.fft]: an empty input is refused. *)
Definition np_fft (a : list C) : result (list C) :=
  match a with
  | [] => Raise ValueError
  | _ => Ok (dft a)
  end.

(** [np.fft.ifft]. *)
Definition np_ifft (X : list C) : result (list C) :=
  match X with
  | [] => Raise ValueError
  | _ => Ok (idft X)
  end.

(** [np.fft.rfft]: bins 0 .. N/2 of the transform of a real input. *)
Definition np_rfft (x : list R) : result (list C) :=
  X <- np_fft (map RtoC x) ;;
  Ok (firstn (length x / 2 + 1) X).

(** The full spectrum of length [n] rebuilt from its half by conjugate
    symmetry; the imaginary parts of the DC bin and, for even [n], of the
    Nyquist bin are dropped, bins past the end of [X] count as zero. *)
Definition hermitian_full (X : list C) (n : nat) : list C :=
  map (fun k =>
         if (k =? 0)%nat then RtoC (Cre (nth 0 X C0))
         else if Nat.even n && (k =? n / 2)%nat then RtoC (Cre (nth k X C0))
         else if (k <=? n / 2)%nat then nth k X C0
         else Cconj (nth (n - k) X C0))
      (seq 0 n).

(** [np.fft.irfft(X, n)]. *)
Definition np_irfft_n (X : list C) (n : nat) : result (list R) :=
  match n with
  | O => Raise ValueError
  | _ => Ok (map Cre (idft (hermitian_full X n)))
  end.

(** [np.fft.irfft(X)]: the output length defaults to 2*(len(X)-1). *)
Definition np_irfft (X : list C) : result (list R) :=
  np_irfft_n X (2 * (length X - 1)).

(** ** Windows *)

(** [np.hanning(M)]: the symmetric Hann window. *)
Definition hanning (M : nat) : list R :=
  match M with
  | O => []
  | S O => [1]
  | _ => map (fun n => 0.5 - 0.5 * cos (2 * PI * INR n / INR (M - 1))) (seq 0 M)
  end.

(** [get_window('hann', N, fftbins=True)]: the periodic Hann window. *)
Definition hann_periodic (N : nat) : list R :=
  map (fun n => 0.5 - 0.5 * cos (2 * PI * INR n / INR N)) (seq 0 N).

(** ** Elementwise operations on one-dimensional arrays of equal length *)

Fixpoint map2 {A B D : Type} (f : A -> B -> D) (l : list A) (l' : list B) : list D :=
  match l, l' with
  | a :: t, b :: t' => f a b :: map2 f t t'
  | _, _ => []
  end.

(** [a[start:stop]] for [0 <= start <= stop]. *)
Definition slice {A : Type} (a : list A) (start stop : nat) : list A :=
  firstn (stop - start) (skipn start a).

(** [acc[start:start+len(v)] += v]. *)
Fixpoint add_at (start : nat) (v acc : list R) : list R :=
  match start, acc with
  | _, [] => []
  | O, _ => map2 Rplus acc v ++ skipn (length v) acc
  | S s, a :: acc' => a :: add_at s v acc'
  end.

(** [a * b] on one-dimensional arrays, with NumPy broadcasting. *)
Definition np_mul1 (a b : list R) : result (list R) :=
  if (length a =? length b)%nat then Ok (map2 Rmult a b)
  else match a, b with
       | [x], _ => Ok (map (fun y => x * y) b)
       | _, [y] => Ok (map (fun x => x * y) a)
       | _, _ => Raise ValueError
       end.

(** [np.zeros(n)] for a Python integer [n]. *)
Definition np_zeros (n : Z) : result (list R) :=
  if (n <? 0)%Z then Raise ValueError else Ok (repeat 0 (Z.to_nat n)).

(** ** [test_stft_simple.py]: [manual_stft_istft]

    The script fixes [n_fft = 8], [hop_length = 2] and a signal of 16 ones;
    here they are parameters. *)

(** Line 31: [(len(signal) - n_fft) // hop_length + 1]. *)
Definition num_frames (len n_fft hop_length : nat) : Z :=
  (Z.of_nat len - Z.of_nat n_fft) / Z.of_nat hop_length + 1.

(** Lines 36-38: the frames [signal[start:start + n_fft]], one per
    [frame_idx] in [range(num_frames)]. *)
Definition frames (signal : list R) (n_fft hop_length : nat)
  : result (list (list R)) :=
  match hop_length with
  | O => Raise ZeroDivisionError
  | _ =>
    Ok (map (fun frame_idx =>
               let start := (frame_idx * hop_length)%nat in
               slice signal start (start + n_fft))
            (range (num_frames (length signal) n_fft hop_length)))
  end.

(** Lines 41-45, the forward loop: one spectrum per frame. *)
Definition stft_forward (signal window : list R) (n_fft hop_length : nat)
  : result (list (list C)) :=
  fs <- frames signal n_fft hop_length ;;
  mapM (fun frame =>
          windowed <- np_mul1 frame window ;;
          np_fft (map RtoC windowed))
       fs.

(** Lines 59-69, one turn of the inverse loop on the two accumulators
    [(output, window_sum)]. *)
Definition istft_step (window : list R) (hop_length : nat)
    (acc : list R * list R) (frame_idx : nat) (spectrum : list C)
  : result (list R * list R) :=
  y <- np_ifft spectrum ;;
  let ifft_result := map Cre y in
  windowed_output <- np_mul1 ifft_result window ;;
  let start := (frame_idx * hop_length)%nat in
  Ok (add_at start windowed_output (fst acc), add_at start window (snd acc)).

(** The inverse loop over [stft_result[frame_idx]], [frame_idx] counting
    from [frame_idx0]. *)
Fixpoint istft_loop (window : list R) (hop_length : nat)
    (frame_idx0 : nat) (stft_result : list (list C)) (acc : list R * list R)
  : result (list R * list R) :=
  match stft_result with
  | [] => Ok acc
  | spectrum :: rest =>
    acc' <- istft_step window hop_length acc frame_idx0 spectrum ;;
    istft_loop window hop_length (S frame_idx0) rest acc'
  end.

(** Lines 53-69: the accumulators after the inverse loop. *)
Definition overlap_add (stft_result : list (list C)) (window : list R)
    (n_fft hop_length : nat) (nframes : Z) : result (list R * list R) :=
  let output_length := ((nframes - 1) * Z.of_nat hop_length + Z.of_nat n_fft)%Z in
  output <- np_zeros output_length ;;
  window_sum <- np_zeros output_length ;;
  istft_loop window hop_length 0 stft_result (output, window_sum).

(** The accumulators [(output, window_sum)] of the inverse loop as a
    function of the frames [ifft_result] it synthesizes, [frame_idx]
    counting from [frame_idx0]. *)
Fixpoint accumulate (window : list R) (hop_length : nat) (frame_idx0 : nat)
    (ifft_results : list (list R)) (acc : list R * list R) : list R * list R :=
  match ifft_results with
  | [] => acc
  | ifft_result :: rest =>
    let start := (frame_idx0 * hop_length)%nat in
    accumulate window hop_length (S frame_idx0) rest
      (add_at start (map2 Rmult ifft_result window) (fst acc),
       add_at start window (snd acc))
  end.

(** Modelled from the spec: the inverse loop of section 4.2, which adds the
    squared window into the energy accumulator; the loop of
    [manual_stft_istft] with [window ** 2] in place of [window] on line 69. *)
Fixpoint accumulate_energy (window : list R) (hop_length : nat) (frame_idx0 : nat)
    (ifft_results : list (list R)) (acc : list R * list R) : list R * list R :=
  match ifft_results with
  | [] => acc
  | ifft_result :: rest =>
    let start := (frame_idx0 * hop_length)%nat in
    accumulate_energy window hop_length (S frame_idx0) rest
      (add_at start (map2 Rmult ifft_result window) (fst acc),
       add_at start (map2 Rmult window window) (snd acc))
  end.

(** Line 77: [np.where(window_sum > 1e-8, window_sum, 1.0)]. *)
Definition guard_window_sum (window_sum : list R) : list R :=
  map (fun s => if Rlt_dec (1 / 100000000) s then s else 1) window_sum.

(** Line 78: [output / window_sum]. *)
Definition normalize (output window_sum : list R) : list R :=
  map2 Rdiv output (guard_window_sum window_sum).

(** [manual_stft_istft] up to [reconstructed]. *)
Definition manual_stft_istft (signal : list R) (n_fft hop_length : nat)
  : result (list R) :=
  let window := hanning n_fft in
  stft_result <- stft_forward signal window n_fft hop_length ;;
  acc <- overlap_add stft_result window n_fft hop_length
           (num_frames (length signal) n_fft hop_length) ;;
  Ok (normalize (fst acc) (snd acc)).

(** The run of the script: 16 ones, [n_fft = 8], [hop_length = 2]. *)
Definition script_signal : list R := repeat 1 16.
Definition script_reconstructed : result (list R) :=
  manual_stft_istft script_signal 8 2.

(** Coefficient [k] of the window of that run, [np.hanning(8)[k]]. *)
Definition w8 (k : nat) : R := nth k (hanning 8) 0.

(** The accumulators of that run. *)
Definition script_accumulators : result (list R * list R) :=
  stft_result <- stft_forward script_signal (hanning 8) 8 2 ;;
  overlap_add stft_result (hanning 8) 8 2 (num_frames 16 8 2).

(** Lines 44 and 61 on one frame: [np.fft.ifft(np.fft.fft(x)).real]. *)
Definition fft_ifft_real (x : list R) : result (list R) :=
  fft_result <- np_fft (map RtoC x) ;;
  y <- np_ifft fft_result ;;
  Ok (map Cre y).

(** ** [compare_stft_scaling.py], lines 55-56: [irfft(rfft(test_frame))] *)

Definition rfft_irfft (test_frame : list R) : result (list R) :=
  fft_result <- np_rfft test_frame ;;
  np_irfft fft_result.

(** ** [compare_dft_single_frame.py] *)

(** [np.round] (halves go to the even neighbour) followed by [int]. *)
Definition np_round (x : R) : Z :=
  let f := Int_part x in
  let d := x - IZR f in
  if Rlt_dec d (1 / 2) then f
  else if Rlt_dec (1 / 2) d then (f + 1)%Z
       else if Z.even f then f else (f + 1)%Z.

(** Lines 26-27: [sin(2*pi*frequency*t)] with [t = arange(n_fft)/sample_rate]. *)
Definition sine_signal (frequency sample_rate : R) (n_fft : nat) : list R :=
  map (fun n => sin (2 * PI * frequency * (INR n / sample_rate))) (seq 0 n_fft).

(** Lines 33-38: the transform of the Hann-windowed frame. *)
Definition frame_fft (signal : list R) : result (list C) :=
  windowed_signal <- np_mul1 signal (hann_periodic (length signal)) ;;
  np_fft (map RtoC windowed_signal).

(** Line 41. *)
Definition frequency_bins (n_fft : nat) : nat := (n_fft / 2 + 1)%nat.

(** Lines 44-48 on the first [frequency_bins] bins. *)
Definition real_part (signal : list R) : result (list R) :=
  fft_result <- frame_fft signal ;;
  Ok (map Cre (firstn (frequency_bins (length signal)) fft_result)).

Definition imag_part (signal : list R) : result (list R) :=
  fft_result <- frame_fft signal ;;
  Ok (map Cim (firstn (frequency_bins (length signal)) fft_result)).

Definition magnitude (signal : list R) : result (list R) :=
  fft_result <- frame_fft signal ;;
  Ok (map Cmod (firstn (frequency_bins (length signal)) fft_result)).

(** Line 52. *)
Definition expected_bin (frequency sample_rate : R) (n_fft : nat) : Z :=
  np_round (frequency * INR n_fft / sample_rate).

(** The script's frame: 440 Hz at 44100 Hz, 4096 samples. *)
Definition script_frame : list R := sine_signal 440 44100 4096.

(** [k] is where [np.argmax] lands: the first position of the largest value. *)
Definition is_argmax (l : list R) (k : nat) : Prop :=
  (k < length l)%nat /\
  (forall j, (j < length l)%nat -> nth j l 0 <= nth k l 0) /\
  (forall j, (j < k)%nat -> nth j l 0 < nth k l 0).

(** ** Three-dimensional arrays

    A NumPy array of rank three is its shape together with its indexing
    function; only the values at indices inside the shape are meaningful. *)

Record ndarray3 (A : Type) : Type := mk_ndarray3 {
  dim0 : nat;
  dim1 : nat;
  dim2 : nat;
  item : nat -> nat -> nat -> A
}.

Arguments mk_ndarray3 {A} dim0 dim1 dim2 item.
Arguments dim0 {A} n.
Arguments dim1 {A} n.
Arguments dim2 {A} n.
Arguments item {A} n i j k.

Record ndarray2 (A : Type) : Type := mk_ndarray2 {
  nrows : nat;
  ncols : nat;
  item2 : nat -> nat -> A
}.

Arguments mk_ndarray2 {A} nrows ncols item2.
Arguments nrows {A} n.
Arguments ncols {A} n.
Arguments item2 {A} n i j.

Definition shape3 {A : Type} (a : ndarray3 A) : nat * nat * nat :=
  (dim0 a, dim1 a, dim2 a).

(** Elementwise application, as [np.real(a)] or [a.astype(...)]. *)
Definition map3 {A B : Type} (f : A -> B) (a : ndarray3 A) : ndarray3 B :=
  mk_ndarray3 (dim0 a) (dim1 a) (dim2 a) (fun i j k => f (item a i j k)).

(** [a[:, :n, :]]. *)
Definition take_freq {A : Type} (n : nat) (a : ndarray3 A) : ndarray3 A :=
  mk_ndarray3 (dim0 a) (Nat.min n (dim1 a)) (dim2 a) (item a).

(** [a[:, :, start:stop]] for [0 <= start]. *)
Definition slice_time {A : Type} (start stop : nat) (a : ndarray3 A) : ndarray3 A :=
  mk_ndarray3 (dim0 a) (dim1 a) (Nat.min stop (dim2 a) - start)
              (fun i j k => item a i j (start + k)%nat).

(** [np.pad(a, ((0, 0), (0, 0), (0, pad_width)), mode='constant')]. *)
Definition pad_time (pad_width : nat) (a : ndarray3 R) : ndarray3 R :=
  mk_ndarray3 (dim0 a) (dim1 a) (dim2 a + pad_width)
              (fun i j k => if (k <? dim2 a)%nat then item a i j k else 0).

(** [a[c]]. *)
Definition plane {A : Type} (a : ndarray3 A) (c : nat) : result (ndarray2 A) :=
  if (c <? dim0 a)%nat then Ok (mk_ndarray2 (dim1 a) (dim2 a) (item a c))
  else Raise IndexError.

Definition same_shape2 {A : Type} (p q : ndarray2 A) : bool :=
  (nrows p =? nrows q)%nat && (ncols p =? ncols q)%nat.

(** [np.stack(planes, axis=0)]. *)
Definition np_stack {A : Type} (dflt : A) (planes : list (ndarray2 A))
  : result (ndarray3 A) :=
  match planes with
  | [] => Raise ValueError
  | p0 :: _ =>
    if forallb (same_shape2 p0) planes
    then Ok (mk_ndarray3 (length planes) (nrows p0) (ncols p0)
               (fun i j k => item2 (nth i planes (mk_ndarray2 0 0 (fun _ _ => dflt))) j k))
    else Raise ValueError
  end.

(** [re + 1j * im] on two planes of one shape. *)
Definition complex_plane (re im : ndarray2 R) : result (ndarray2 C) :=
  if same_shape2 re im
  then Ok (mk_ndarray2 (nrows re) (ncols re) (fun j k => (item2 re j k, item2 im j k)))
  else Raise ValueError.

(** The indexing function of a concatenation along the last axis. *)
Fixpoint concat_item {A : Type} (dflt : A) (arrays : list (ndarray3 A))
    (i j k : nat) : A :=
  match arrays with
  | [] => dflt
  | a :: rest =>
    if (k <? dim2 a)%nat then item a i j k
    else concat_item dflt rest i j (k - dim2 a)
  end.

(** [np.concatenate(arrays, axis=2)]. *)
Definition np_concatenate2 {A : Type} (dflt : A) (arrays : list (ndarray3 A))
  : result (ndarray3 A) :=
  match arrays with
  | [] => Raise ValueError
  | a0 :: _ =>
    if forallb (fun a => (dim0 a =? dim0 a0)%nat && (dim1 a =? dim1 a0)%nat) arrays
    then Ok (mk_ndarray3 (dim0 a0) (dim1 a0)
               (fold_right (fun a n => (dim2 a + n)%nat) O arrays)
               (concat_item dflt arrays))
    else Raise ValueError
  end.

(** ** [python/test_separation.py] and [test_python_reference.py] *)

Section OnnxInference.

(** [astype(np.float32)]. *)
Variable f32 : R -> R.

(** [session.run([output_name], {input_name: x})[0]]: the leading batch
    axis of the input and of the output is a list. *)
Variable session_run : list (ndarray3 R) -> list (ndarray3 R).

(** Lines 128-139: the real or imaginary parts as float32, cut to 2048
    frequency bins. *)
Definition model_part (part : C -> R) (spectrogram : ndarray3 C) : ndarray3 R :=
  let p := map3 (fun z => f32 (part z)) spectrogram in
  if (2048 <? dim1 spectrogram)%nat then take_freq 2048 p else p.

(** Line 142. *)
Definition num_chunks (time_frames chunk_size : nat) : nat :=
  ((time_frames + chunk_size - 1) / chunk_size)%nat.

(** Lines 150-161: chunk [i] of one part, zero-padded when short. *)
Definition padded_chunk (part : ndarray3 R) (time_frames chunk_size i : nat)
  : ndarray3 R :=
  let start_idx := (i * chunk_size)%nat in
  let end_idx := Nat.min ((i + 1) * chunk_size) time_frames in
  let chunk := slice_time start_idx end_idx part in
  if (dim2 chunk <? chunk_size)%nat
  then pad_time (chunk_size - dim2 chunk) chunk
  else chunk.

(** Lines 150-170: the tensor [input_data] of chunk [i], before the batch
    axis is added. *)
Definition input_data (spectrogram : ndarray3 C) (chunk_size i : nat)
  : result (ndarray3 R) :=
  let channels := dim0 spectrogram in
  let time_frames := dim2 spectrogram in
  let real_chunk := padded_chunk (model_part Cre spectrogram) time_frames chunk_size i in
  let imag_chunk := padded_chunk (model_part Cim spectrogram) time_frames chunk_size i in
  left_real <- plane real_chunk 0 ;;
  left_imag <- plane imag_chunk 0 ;;
  right_real <- (if (1 <? channels)%nat then plane real_chunk 1 else plane real_chunk 0) ;;
  right_imag <- (if (1 <? channels)%nat then plane imag_chunk 1 else plane imag_chunk 0) ;;
  np_stack 0 [left_real; left_imag; right_real; right_imag].

(** Lines 177-188: the complex mask of a chunk from the output of the
    model, cut back to the extent of the chunk. *)
Definition combined_mask (mask_chunk : ndarray3 R) (extent chunk_size : nat)
  : result (ndarray3 C) :=
  m0 <- plane mask_chunk 0 ;;
  m1 <- plane mask_chunk 1 ;;
  m2 <- plane mask_chunk 2 ;;
  m3 <- plane mask_chunk 3 ;;
  left_complex <- complex_plane m0 m1 ;;
  right_complex <- complex_plane m2 m3 ;;
  combined <- np_stack C0 [left_complex; right_complex] ;;
  Ok (if (extent <? chunk_size)%nat
      then slice_time 0 extent combined
      else combined).

(** Lines 149-190: one turn of the chunk loop. *)
Definition chunk_mask (spectrogram : ndarray3 C) (chunk_size i : nat)
  : result (ndarray3 C) :=
  let time_frames := dim2 spectrogram in
  let start_idx := (i * chunk_size)%nat in
  let end_idx := Nat.min ((i + 1) * chunk_size) time_frames in
  x <- input_data spectrogram chunk_size i ;;
  match session_run [x] with
  | [] => Raise IndexError
  | mask_chunk :: _ => combined_mask mask_chunk (end_idx - start_idx) chunk_size
  end.

(** Lines 150-151: [end_idx - start_idx], the extent of chunk [i] before
    padding. *)
Definition chunk_extent (time_frames chunk_size i : nat) : nat :=
  (Nat.min ((i + 1) * chunk_size) time_frames - i * chunk_size)%nat.

(** Lines 165-170: the channel of the spectrogram read by plane [p] of the
    tensor, the left channel twice for a mono input. *)
Definition plane_channel (channels p : nat) : nat :=
  if (1 <? channels)%nat then (p / 2)%nat else O.

(** Lines 165-170: planes 0 and 2 carry real parts, planes 1 and 3
    imaginary parts. *)
Definition plane_part (p : nat) : C -> R :=
  if Nat.even p then Cre else Cim.

(** Line 177: the tensor [mask_chunk] returned by the model for chunk [i]
    (an empty tensor when the call raised). *)
Definition model_output (spectrogram : ndarray3 C) (chunk_size i : nat)
  : ndarray3 R :=
  match input_data spectrogram chunk_size i with
  | Ok x => hd (mk_ndarray3 0 0 0 (fun _ _ _ => 0)) (session_run [x])
  | Raise _ => mk_ndarray3 0 0 0 (fun _ _ _ => 0)
  end.

(** The entry [masks[i]] (an empty array when the turn raised). *)
Definition mask_of_chunk (spectrogram : ndarray3 C) (chunk_size i : nat)
  : ndarray3 C :=
  match chunk_mask spectrogram chunk_size i with
  | Ok m => m
  | Raise _ => mk_ndarray3 0 0 0 (fun _ _ _ => C0)
  end.

(** [run_onnx_inference]. *)
Definition run_onnx_inference (spectrogram : ndarray3 C) (chunk_size : nat)
  : result (ndarray3 C) :=
  match chunk_size with
  | O => Raise ZeroDivisionError
  | _ =>
    masks <- mapM (chunk_mask spectrogram chunk_size)
                  (seq 0 (num_chunks (dim2 spectrogram) chunk_size)) ;;
    np_concatenate2 C0 masks
  end.

End OnnxInference.

(** A mono spectrogram of one bin and three frames, and the identity as a
    model: sample inputs of [run_onnx_inference]. *)
Definition mono_spectrogram : ndarray3 C :=
  mk_ndarray3 1 1 3 (fun _ _ t => (INR t, 1)).

Definition echo_model (batch : list (ndarray3 R)) : list (ndarray3 R) := batch.

(** ** [apply_mask] and the instrumental mask *)

(** One axis of NumPy broadcasting: equal extents, or one of them is 1. *)
Definition broadcast_dim (a b : nat) : option nat :=
  if (a =? b)%nat then Some a
  else if (a =? 1)%nat then Some b
  else if (b =? 1)%nat then Some a
  else None.

(** The index read on an axis of extent [d] of an operand. *)
Definition bidx (d i : nat) : nat := if (d =? 1)%nat then O else i.

(** [a * b] on complex arrays of rank three. *)
Definition np_multiply (a b : ndarray3 C) : result (ndarray3 C) :=
  match broadcast_dim (dim0 a) (dim0 b),
        broadcast_dim (dim1 a) (dim1 b),
        broadcast_dim (dim2 a) (dim2 b) with
  | Some d0, Some d1, Some d2 =>
    Ok (mk_ndarray3 d0 d1 d2
          (fun i j k =>
             Cmul (item a (bidx (dim0 a) i) (bidx (dim1 a) j) (bidx (dim2 a) k))
                  (item b (bidx (dim0 b) i) (bidx (dim1 b) j) (bidx (dim2 b) k))))
  | _, _, _ => Raise ValueError
  end.

(** [apply_mask], line 220. *)
Definition apply_mask (spectrogram mask : ndarray3 C) : result (ndarray3 C) :=
  np_multiply spectrogram mask.

(** Two extents that NumPy broadcasts against each other. *)
Definition compatible (d e : nat) : Prop := d = e \/ d = 1%nat \/ e = 1%nat.

(** Two shapes that NumPy broadcasts against each other. *)
Definition broadcastable (a b : ndarray3 C) : Prop :=
  compatible (dim0 a) (dim0 b) /\
  compatible (dim1 a) (dim1 b) /\
  compatible (dim2 a) (dim2 b).

(** A mask of two channels for [mono_spectrogram], as [run_onnx_inference]
    returns for every input. *)
Definition stereo_mask : ndarray3 C :=
  mk_ndarray3 2 1 3 (fun c _ _ => (INR c, 1)).

(** Lines 325-326 on one element:
    [(1.0 - np.abs(m)) * np.exp(1j * np.angle(m))]. *)
Definition complement (m : C) : C :=
  Cscale (1 - Cmod m) (cis (angle m)).

(** Lines 325-326. *)
Definition instrumental_mask (vocal_mask : ndarray3 C) : ndarray3 C :=
  map3 complement vocal_mask.

(** ** Quantities of the analysis of the 440 Hz frame *)

(** [debug_stft_comparison.py], line 52: [int(440 * n_fft / sr)], which
    truncates. *)
Definition freq_440_bin (n_fft : nat) (sr : R) : Z :=
  Int_part (440 * INR n_fft / sr).

(** The squared modulus of a complex number. *)
Definition Cnormsq (z : C) : R := fst z * fst z + snd z * snd z.

(** The geometric sum of exp(i n a) over n < N. *)
Definition geo (N : nat) (a : R) : C := Csum (fun n => cis (INR n * a)) N.

(** Coefficient [n] of [hann_periodic N]. *)
Definition hw (N n : nat) : R := 0.5 - 0.5 * cos (2 * PI * INR n / INR N).

(** The transform of the periodic Hann window at the frequency [a]. *)
Definition hann_sum (N : nat) (a : R) : C :=
  Csum (fun n => Cscale (hw N n) (cis (INR n * a))) N.

(** The transform of the squared window at the frequency [a]. *)
Definition hann_sq_sum (N : nat) (a : R) : C :=
  Csum (fun n => Cscale (hw N n * hw N n) (cis (INR n * a))) N.

(** The combination 1/2 x - 1/4 y - 1/4 z by which a Hann window acts on
    three neighbouring frequencies. *)
Definition hann_mix (x y z : C) : C :=
  Cadd (Cscale (1 / 2) x) (Cadd (Cscale (-1 / 4) y) (Cscale (-1 / 4) z)).

(** Bin [k] of the transform of N samples of sin(n * theta) under the
    periodic Hann window. *)
Definition sine_bin (N : nat) (theta : R) (k : nat) : C :=
  Csum (fun n => Cmul (RtoC (sin (INR n * theta) * hw N n)) (cis (- tw N k n))) N.

(** The phase step per sample of the script's sine: 2*pi*440/44100. *)
Definition theta_440 : R := 2 * PI * 440 / 44100.

(** The script's frame under the window, lines 33-34. *)
Definition script_windowed : list R :=
  map2 Rmult script_frame (hann_periodic 4096).

(** ** The gain of [manual_stft_istft] *)

(** The window coefficient that frame [i] lays over sample [p]; zero when
    the frame does not reach the sample. *)
Definition cover (window : list R) (hop_length i p : nat) : R :=
  if ((i * hop_length <=? p) && (p <? i * hop_length + length window))%nat
  then nth (p - i * hop_length) window 0
  else 0.

(** What [window_sum[p]] holds after [nframes] frames. *)
Definition window_total (window : list R) (hop_length nframes p : nat) : R :=
  Rsum (fun i => cover window hop_length i p) nframes.

(** The sum of the squared coefficients laid over sample [p]. *)
Definition energy_total (window : list R) (hop_length nframes p : nat) : R :=
  Rsum (fun i => cover window hop_length i p * cover window hop_length i p) nframes.

(** The factor between [signal[p]] and [reconstructed[p]]. *)
Definition gain (window : list R) (hop_length nframes p : nat) : R :=
  energy_total window hop_length nframes p /
  (if Rlt_dec (1 / 100000000) (window_total window hop_length nframes p)
   then window_total window hop_length nframes p else 1).

(** ** Degenerate inputs of [run_onnx_inference]

    A spectrogram without time frames, one without channels, and a model
    that returns an empty batch. *)
Definition no_frames_spectrogram : ndarray3 C :=
  mk_ndarray3 1 1 0 (fun _ _ _ => C0).

Definition no_channels_spectrogram : ndarray3 C :=
  mk_ndarray3 0 1 3 (fun _ _ _ => C0).

Definition silent_model (batch : list (ndarray3 R)) : list (ndarray3 R) := [].

(** ** [compare_dft_single_frame.py]: the phase

    Line 48 on the first [frequency_bins] bins. *)
Definition phase (signal : list R) : result (list R) :=
  fft_result <- frame_fft signal ;;
  Ok (map angle (firstn (frequency_bins (length signal)) fft_result)).

(** ** [python/verify_coreml.py]: [prepare_model_input] *)

Section PrepareModelInput.

Variable f32 : R -> R.

(** Line 89. *)
Definition prepare_chunk_size : nat := 256.

(** Lines 77-99: the real or imaginary parts as float32, cut to 2048
    frequency bins and brought to [chunk_size] time frames: the first ones
    of a longer spectrogram, zero padding after a shorter one. *)
Definition prepare_part (part : C -> R) (spectrogram : ndarray3 C) : ndarray3 R :=
  let p := model_part f32 part spectrogram in
  let time_frames := dim2 spectrogram in
  let chunk_size := prepare_chunk_size in
  if (chunk_size <? time_frames)%nat then slice_time 0 chunk_size p
  else if (time_frames <? chunk_size)%nat
       then pad_time (chunk_size - time_frames) p
       else p.

(** [prepare_model_input], before the batch axis is added. *)
Definition prepare_model_input (spectrogram : ndarray3 C) : result (ndarray3 R) :=
  let channels := dim0 spectrogram in
  let real_part := prepare_part Cre spectrogram in
  let imag_part := prepare_part Cim spectrogram in
  left_real <- plane real_part 0 ;;
  left_imag <- plane imag_part 0 ;;
  right_real <- (if (1 <? channels)%nat then plane real_part 1 else plane real_part 0) ;;
  right_imag <- (if (1 <? channels)%nat then plane imag_part 1 else plane imag_part 0) ;;
  np_stack 0 [left_real; left_imag; right_real; right_imag].

End PrepareModelInput.

(** ** [python/test_separation.py]: the mix of [main] *)

(** What [librosa.load(path, sr=sr, mono=False)] returns: a one-dimensional
    array for a mono file, an array [channels, samples] otherwise. *)
Inductive loaded : Type :=
| Mono (audio : list R)
| Multi (audio : ndarray2 R).

(** [load_audio], lines 32-36, on what [librosa.load] returned: a mono
    signal is stacked twice. *)
Definition load_audio (audio : loaded) : ndarray2 R :=
  match audio with
  | Mono audio => mk_ndarray2 2 (length audio) (fun _ j => nth j audio 0)
  | Multi audio => audio
  end.

(** [a[:, :n]]. *)
Definition take_samples {A : Type} (n : nat) (a : ndarray2 A) : ndarray2 A :=
  mk_ndarray2 (nrows a) (Nat.min n (ncols a)) (item2 a).

(** [a + b] on real arrays of rank two. *)
Definition np_add2 (a b : ndarray2 R) : result (ndarray2 R) :=
  match broadcast_dim (nrows a) (nrows b), broadcast_dim (ncols a) (ncols b) with
  | Some r, Some c =>
    Ok (mk_ndarray2 r c
          (fun i j => item2 a (bidx (nrows a) i) (bidx (ncols a) j)
                      + item2 b (bidx (nrows b) i) (bidx (ncols b) j)))
  | _, _ => Raise ValueError
  end.

(** Lines 287-297, one turn of the loop over the tracks; a track is [None]
    when its file does not exist, [mixed_audio] is [None] until the first
    track is loaded. *)
Definition mix_step (mixed_audio : option (ndarray2 R)) (track : option loaded)
  : result (option (ndarray2 R)) :=
  match track with
  | None => Ok mixed_audio
  | Some l =>
    let audio := load_audio l in
    match mixed_audio with
    | None => Ok (Some audio)
    | Some mixed =>
      let min_len := Nat.min (ncols mixed) (ncols audio) in
      m <- np_add2 (take_samples min_len mixed) (take_samples min_len audio) ;;
      Ok (Some m)
    end
  end.

(** Lines 283-297: the loop. *)
Fixpoint mix_tracks (tracks : list (option loaded)) (mixed_audio : option (ndarray2 R))
  : result (option (ndarray2 R)) :=
  match tracks with
  | [] => Ok mixed_audio
  | track :: rest =>
    m <- mix_step mixed_audio track ;;
    mix_tracks rest m
  end.

(** The elements of an array, row after row. *)
Definition ravel (a : ndarray2 R) : list R :=
  flat_map (fun i => map (item2 a i) (seq 0 (ncols a))) (seq 0 (nrows a)).

(** [np.max(np.abs(a))]: an array without elements is refused. *)
Definition np_max_abs (a : ndarray2 R) : result R :=
  match map Rabs (ravel a) with
  | [] => Raise ValueError
  | x :: l => Ok (fold_left Rmax l x)
  end.

(** Line 302: [mixed_audio / np.max(np.abs(mixed_audio))].  When the peak is
    0 every sample is 0 and the quotient 0/0 is not a number, written
    [None]. *)
Definition normalize_mix (mixed_audio : ndarray2 R) : result (ndarray2 (option R)) :=
  peak <- np_max_abs mixed_audio ;;
  Ok (mk_ndarray2 (nrows mixed_audio) (ncols mixed_audio)
        (fun i j => if Req_EM_T peak 0 then None
                    else Some (item2 mixed_audio i j / peak))).

(** The tracks that were found, loaded. *)
Definition loaded_tracks (tracks : list (option loaded)) : list (ndarray2 R) :=
  flat_map (fun track => match track with
                         | Some l => [load_audio l]
                         | None => []
                         end) tracks.

(** The length of the shortest of them, starting from [n]. *)
Definition common_length (n : nat) (l : list (ndarray2 R)) : nat :=
  fold_left (fun m a => Nat.min m (ncols a)) l n.

(** The sum of their samples at one position, starting from [x]. *)
Definition sample_sum (x : R) (l : list (ndarray2 R)) (c j : nat) : R :=
  fold_left (fun acc a => acc + item2 a c j) l x.

(** Two stereo tracks of three and two samples, and a mono one. *)
Definition track_a : loaded :=
  Multi (mk_ndarray2 2 3 (fun c j => INR c + INR j)).
Definition track_b : loaded :=
  Multi (mk_ndarray2 2 2 (fun _ _ => 1)).
Definition track_c : loaded := Mono [1; -2; 3].

(** ** [python/verify_coreml.py]: [compare_outputs] *)

(** An array of any rank: its shape and its elements, row after row. *)
Record ndarray : Type := mk_ndarray {
  shape : list nat;
  data : list R
}.

(** What [compare_outputs] reports. *)
Inductive verdict : Type :=
| ShapesDiffer
| Verified
| MostlyEqual
| Different.

(** [np.sum(a < tolerance)]. *)
Definition count_below (tolerance : R) (a : list R) : nat :=
  length (filter (fun d => if Rlt_dec d tolerance then true else false) a).

(** [compare_outputs]: the shapes are compared first (lines 174-176); the
    statistics of lines 179-187 refuse an array without elements; the
    verdict is taken from the share of elements that differ by less than
    the tolerance (lines 203-215). *)
Definition compare_outputs (onnx_output coreml_output : ndarray) : result verdict :=
  if list_eq_dec Nat.eq_dec (shape onnx_output) (shape coreml_output)
  then
    match data onnx_output, data coreml_output with
    | [], _ => Raise ValueError
    | _, [] => Raise ValueError
    | _, _ =>
      let abs_diff :=
        map2 (fun a b => Rabs (a - b)) (data onnx_output) (data coreml_output) in
      let tolerance := 1 / 1000 in
      let match_ratio :=
        INR (count_below tolerance abs_diff) / INR (length abs_diff) in
      Ok (if Rlt_dec (99 / 100) match_ratio then Verified
          else if Rlt_dec (95 / 100) match_ratio then MostlyEqual
               else Different)
    end
  else Ok ShapesDiffer.

(** Two outputs of the same shape that differ in one element out of two. *)
Definition output_a : ndarray := mk_ndarray [1; 2]%nat [1; 2].
Definition output_b : ndarray := mk_ndarray [1; 2]%nat [1; 3].

(** ** [compare_stft_scaling.py]: the scaling test *)

(** Line 60: [ifft_no_scale / n_fft]. *)
Definition ifft_scaled (test_frame : list R) (n_fft : nat) : result (list R) :=
  ifft_no_scale <- rfft_irfft test_frame ;;
  Ok (map (fun v => v / INR n_fft) ifft_no_scale).

(** Lines 64-67: [irfft(rfft(test_frame * window))] with the periodic Hann
    window of [n_fft] samples. *)
Definition ifft_windowed (test_frame : list R) (n_fft : nat) : result (list R) :=
  windowed_frame <- np_mul1 test_frame (hann_periodic n_fft) ;;
  rfft_irfft windowed_frame.

(** * Properties *)

(** ** The error monad *)

Lemma mapM_Ok_map {A B : Type} (f : A -> result B) (g : A -> B) (l : list A) :
  (forall a, In a l -> f a = Ok (g a)) -> mapM f l = Ok (map g l).
Proof.
  induction l as [|a l IH]; intros H; simpl.
  - reflexivity.
  - rewrite (H a (or_introl eq_refl)). simpl.
    rewrite IH by (intros b Hb; apply H; right; exact Hb).
    reflexivity.
Qed.

(** ** Lists *)

Lemma nth_map_seq {A : Type} (f : nat -> A) (n i : nat) (d : A) :
  (i < n)%nat -> nth i (map f (seq 0 n)) d = f i.
Proof.
  intros Hi.
  rewrite (nth_indep _ d (f O)) by (rewrite length_map, length_seq; exact Hi).
  rewrite (map_nth f (seq 0 n) O i).
  rewrite seq_nth by exact Hi. reflexivity.
Qed.

Lemma map2_length {A B D : Type} (f : A -> B -> D) (l : list A) (l' : list B) :
  length (map2 f l l') = Nat.min (length l) (length l').
Proof.
  revert l'; induction l as [|a l IH]; intros [|b l']; simpl; auto.
Qed.

Lemma nth_map2 {A B D : Type} (f : A -> B -> D) (l : list A) (l' : list B)
      (i : nat) (da : A) (db : B) (dd : D) :
  (i < length l)%nat -> (i < length l')%nat ->
  nth i (map2 f l l') dd = f (nth i l da) (nth i l' db).
Proof.
  revert l' i; induction l as [|a l IH]; intros [|b l'] [|i]; simpl; intros H1 H2;
    try lia; auto.
  apply IH; lia.
Qed.

Lemma slice_length {A : Type} (a : list A) (start stop : nat) :
  length (slice a start stop) = Nat.min (stop - start) (length a - start).
Proof.
  unfold slice. rewrite length_firstn, length_skipn. reflexivity.
Qed.

Lemma nth_slice {A : Type} (a : list A) (start stop i : nat) (d : A) :
  (i < stop - start)%nat -> nth i (slice a start stop) d = nth (start + i) a d.
Proof.
  intros Hi. unfold slice.
  rewrite nth_firstn.
  destruct (Nat.ltb_spec i (stop - start)); [|lia].
  apply nth_skipn.
Qed.

(** ** Framing *)

Lemma num_frames_nat (len n_fft hop_length : nat) :
  (0 < hop_length)%nat -> (n_fft <= len)%nat ->
  Z.to_nat (num_frames len n_fft hop_length) = ((len - n_fft) / hop_length + 1)%nat.
Proof.
  intros Hh Hl. unfold num_frames.
  replace (Z.of_nat len - Z.of_nat n_fft)%Z with (Z.of_nat (len - n_fft)) by lia.
  rewrite <- Nat2Z.inj_div.
  lia.
Qed.

Lemma num_frames_short (len n_fft hop_length : nat) :
  (0 < hop_length)%nat -> (len < n_fft)%nat ->
  (num_frames len n_fft hop_length <= 0)%Z.
Proof.
  intros Hh Hl. unfold num_frames.
  assert ((Z.of_nat len - Z.of_nat n_fft) / Z.of_nat hop_length < 0)%Z; [|lia].
  apply Z.div_lt_upper_bound; lia.
Qed.

(** Every frame index produced by the loop addresses a full frame. *)
Lemma frame_in_bounds (len n_fft hop_length i : nat) :
  (0 < hop_length)%nat ->
  (i < Z.to_nat (num_frames len n_fft hop_length))%nat ->
  (i * hop_length + n_fft <= len)%nat.
Proof.
  intros Hh Hi.
  destruct (Nat.le_gt_cases n_fft len) as [Hl|Hl].
  - rewrite num_frames_nat in Hi by assumption.
    assert (i <= (len - n_fft) / hop_length)%nat as Hi' by lia.
    assert (hop_length * ((len - n_fft) / hop_length) <= len - n_fft)%nat
      by (apply Nat.Div0.mul_div_le).
    nia.
  - pose proof (num_frames_short len n_fft hop_length Hh Hl). lia.
Qed.

(** The framing loop on a positive hop: one full frame per index. *)
Lemma frames_Ok (signal : list R) (n_fft hop_length : nat) :
  (0 < hop_length)%nat ->
  exists fs,
    frames signal n_fft hop_length = Ok fs /\
    length fs = Z.to_nat (num_frames (length signal) n_fft hop_length) /\
    Forall (fun frame => length frame = n_fft) fs.
Proof.
  intros Hh. unfold frames.
  destruct hop_length as [|h] eqn:Eh; [lia|]. rewrite <- Eh in *.
  eexists; split; [reflexivity|].
  unfold range. rewrite length_map, length_seq.
  split; [reflexivity|].
  apply Forall_forall. intros frame Hin.
  apply in_map_iff in Hin. destruct Hin as [i [<- Hi]].
  apply in_seq in Hi.
  assert (i * hop_length + n_fft <= length signal)%nat
    by (apply frame_in_bounds; [assumption|lia]).
  rewrite slice_length. lia.
Qed.

(** C3.  For every signal and every positive hop the framing loop of
    [manual_stft_istft] yields exactly floor((len - frameSize) / hop) + 1
    frames when the signal is at least one frame long and no frame when it is
    shorter; every frame it yields has frameSize samples. *)
Theorem frames_count (signal : list R) (n_fft hop_length : nat) :
  (0 < hop_length)%nat ->
  exists fs,
    frames signal n_fft hop_length = Ok fs /\
    ((n_fft <= length signal)%nat ->
       length fs = ((length signal - n_fft) / hop_length + 1)%nat) /\
    ((length signal < n_fft)%nat -> length fs = O) /\
    Forall (fun frame => length frame = n_fft) fs.
Proof.
  intros Hh.
  destruct (frames_Ok signal n_fft hop_length Hh) as [fs [Hfs [Hlen Hall]]].
  exists fs. split; [exact Hfs|]. split; [|split; [|exact Hall]].
  - intros Hl. rewrite Hlen. apply num_frames_nat; assumption.
  - intros Hl. rewrite Hlen.
    pose proof (num_frames_short _ _ _ Hh Hl). lia.
Qed.

Lemma frames_count_witness :
  (0 < 2)%nat /\
  exists fs,
    frames script_signal 8 2 = Ok fs /\
    ((8 <= length script_signal)%nat ->
       length fs = ((length script_signal - 8) / 2 + 1)%nat) /\
    ((length script_signal < 8)%nat -> length fs = O) /\
    Forall (fun frame => length frame = 8%nat) fs.
Proof.
  split; [lia | apply (frames_count script_signal 8 2); lia].
Defined.

(** ** Finite sums *)

Lemma Rsum_ext (f g : nat -> R) (n : nat) :
  (forall i, (i < n)%nat -> f i = g i) -> Rsum f n = Rsum g n.
Proof.
  induction n as [|n IH]; intros H; simpl.
  - reflexivity.
  - rewrite IH by (intros i Hi; apply H; lia). rewrite H by lia. reflexivity.
Qed.

Lemma Rsum_zero (n : nat) : Rsum (fun _ => 0) n = 0.
Proof. induction n as [|n IH]; simpl; [reflexivity | rewrite IH; ring]. Qed.

Lemma Rsum_plus (f g : nat -> R) (n : nat) :
  Rsum (fun i => f i + g i) n = Rsum f n + Rsum g n.
Proof. induction n as [|n IH]; simpl; [ring | rewrite IH; ring]. Qed.

Lemma Rsum_minus (f g : nat -> R) (n : nat) :
  Rsum (fun i => f i - g i) n = Rsum f n - Rsum g n.
Proof. induction n as [|n IH]; simpl; [ring | rewrite IH; ring]. Qed.

Lemma Rsum_scal (c : R) (f : nat -> R) (n : nat) :
  Rsum (fun i => c * f i) n = c * Rsum f n.
Proof. induction n as [|n IH]; simpl; [ring | rewrite IH; ring]. Qed.

Lemma Rsum_const (c : R) (n : nat) : Rsum (fun _ => c) n = INR n * c.
Proof.
  induction n as [|n IH].
  - simpl. ring.
  - rewrite S_INR. simpl. rewrite IH. ring.
Qed.

Lemma Rsum_swap (f : nat -> nat -> R) (n m : nat) :
  Rsum (fun i => Rsum (fun j => f i j) m) n =
  Rsum (fun j => Rsum (fun i => f i j) n) m.
Proof.
  induction n as [|n IH]; simpl.
  - symmetry. apply Rsum_zero.
  - rewrite IH. symmetry. apply Rsum_plus.
Qed.

Lemma Rsum_le (f g : nat -> R) (n : nat) :
  (forall i, (i < n)%nat -> f i <= g i) -> Rsum f n <= Rsum g n.
Proof.
  induction n as [|n IH]; intros H; simpl.
  - lra.
  - assert (Rsum f n <= Rsum g n) by (apply IH; intros i Hi; apply H; lia).
    assert (f n <= g n) by (apply H; lia). lra.
Qed.

Lemma Rsum_nonneg (f : nat -> R) (n : nat) :
  (forall i, (i < n)%nat -> 0 <= f i) -> 0 <= Rsum f n.
Proof.
  intros H. rewrite <- (Rsum_zero n). apply Rsum_le. exact H.
Qed.

(** A sum with a single non-zero term. *)
Lemma Rsum_delta (a : nat -> R) (j n : nat) :
  (j < n)%nat ->
  Rsum (fun i => if (i =? j)%nat then a i else 0) n = a j.
Proof.
  induction n as [|n IH]; intros Hj; [lia|]. simpl.
  destruct (Nat.eqb_spec n j) as [->|Hne].
  - rewrite (Rsum_ext _ (fun _ => 0)).
    + rewrite Rsum_zero. ring.
    + intros i Hi. destruct (Nat.eqb_spec i j); [lia | reflexivity].
  - rewrite IH by lia. ring.
Qed.

(** A term of a sum of non-negative terms is at most the sum. *)
Lemma Rsum_term_le (f : nat -> R) (n j : nat) :
  (forall i, (i < n)%nat -> 0 <= f i) -> (j < n)%nat -> f j <= Rsum f n.
Proof.
  intros Hf Hj.
  rewrite <- (Rsum_delta f j n Hj).
  apply Rsum_le. intros i Hi.
  destruct (Nat.eqb_spec i j); [lra | apply Hf; exact Hi].
Qed.

(** ** Complex numbers *)

Lemma C_eq (z w : C) : fst z = fst w -> snd z = snd w -> z = w.
Proof. destruct z, w; simpl; intros -> ->; reflexivity. Qed.

Ltac cring := apply C_eq; simpl; ring.

Lemma Cmul_assoc (a b c : C) : Cmul a (Cmul b c) = Cmul (Cmul a b) c.
Proof. cring. Qed.

Lemma Cmul_comm (a b : C) : Cmul a b = Cmul b a.
Proof. cring. Qed.

Lemma Cmul_C0_r (a : C) : Cmul a C0 = C0.
Proof. cring. Qed.

Lemma cis_add (a b : R) : Cmul (cis a) (cis b) = cis (a + b).
Proof.
  apply C_eq; simpl; [rewrite cos_plus | rewrite sin_plus]; ring.
Qed.

Lemma cis_0 : cis 0 = (1, 0).
Proof. unfold cis. rewrite cos_0, sin_0. reflexivity. Qed.

Lemma cis_neg (a : R) : cis (- a) = Cconj (cis a).
Proof. unfold cis, Cconj. simpl. rewrite cos_neg, sin_neg. reflexivity. Qed.

(** [cis] at an integer number of turns. *)
Lemma cis_2PI_INR (n : nat) : cis (2 * PI * INR n) = (1, 0).
Proof.
  unfold cis.
  replace (2 * PI * INR n) with (0 + 2 * INR n * PI) by ring.
  rewrite cos_period, sin_period, cos_0, sin_0. reflexivity.
Qed.

Lemma cis_period (x : R) (n : nat) : cis (x + 2 * PI * INR n) = cis x.
Proof. rewrite <- cis_add, cis_2PI_INR. cring. Qed.

Lemma cis_period_neg (x : R) (n : nat) : cis (x - 2 * PI * INR n) = cis x.
Proof.
  rewrite <- (cis_period (x - 2 * PI * INR n) n). f_equal. ring.
Qed.

Lemma Cmod_cis (a : R) : Cmod (cis a) = 1.
Proof.
  unfold Cmod, cis. simpl.
  replace (cos a * cos a + sin a * sin a) with 1.
  - apply sqrt_1.
  - pose proof (sin2_cos2 a) as H. unfold Rsqr in H. lra.
Qed.

Lemma Cmod_scale (r : R) (z : C) : Cmod (Cscale r z) = Rabs r * Cmod z.
Proof.
  unfold Cmod, Cscale. simpl.
  replace (r * fst z * (r * fst z) + r * snd z * (r * snd z))
    with (Rsqr r * (fst z * fst z + snd z * snd z)) by (unfold Rsqr; ring).
  rewrite sqrt_mult_alt by apply Rle_0_sqr.
  rewrite sqrt_Rsqr_abs. reflexivity.
Qed.

Lemma Csum_S (f : nat -> C) (n : nat) :
  Csum f (S n) = Cadd (Csum f n) (f n).
Proof. reflexivity. Qed.

Lemma Csum_ext (f g : nat -> C) (n : nat) :
  (forall i, (i < n)%nat -> f i = g i) -> Csum f n = Csum g n.
Proof.
  intros H. unfold Csum. f_equal; apply Rsum_ext; intros i Hi; rewrite H; auto.
Qed.

Lemma Csum_C0 (n : nat) : Csum (fun _ => C0) n = C0.
Proof. unfold Csum, C0. simpl. rewrite Rsum_zero. reflexivity. Qed.

Lemma Csum_mul_l (c : C) (f : nat -> C) (n : nat) :
  Csum (fun i => Cmul c (f i)) n = Cmul c (Csum f n).
Proof.
  induction n as [|n IH].
  - cring.
  - rewrite !Csum_S, IH. cring.
Qed.

Lemma Csum_mul_r (c : C) (f : nat -> C) (n : nat) :
  Csum (fun i => Cmul (f i) c) n = Cmul (Csum f n) c.
Proof.
  rewrite (Cmul_comm _ c), <- Csum_mul_l.
  apply Csum_ext; intros; apply Cmul_comm.
Qed.

Lemma Csum_swap (f : nat -> nat -> C) (n m : nat) :
  Csum (fun i => Csum (fun j => f i j) m) n =
  Csum (fun j => Csum (fun i => f i j) n) m.
Proof.
  unfold Csum; simpl. f_equal; apply Rsum_swap.
Qed.

Lemma Csum_delta (a : nat -> C) (j n : nat) :
  (j < n)%nat ->
  Csum (fun i => if (i =? j)%nat then a i else C0) n = a j.
Proof.
  intros Hj. unfold Csum. apply C_eq; simpl.
  - rewrite <- (Rsum_delta (fun i => fst (a i)) j n Hj).
    apply Rsum_ext; intros i _. destruct (i =? j)%nat; reflexivity.
  - rewrite <- (Rsum_delta (fun i => snd (a i)) j n Hj).
    apply Rsum_ext; intros i _. destruct (i =? j)%nat; reflexivity.
Qed.

(** ** Geometric sums of unit complex numbers *)

(** (1 - e^(i a)) * sum_(k<n) e^(i k a) = 1 - e^(i n a), in components. *)
Lemma geometric_cis (a : R) (n : nat) :
  let S := Csum (fun k => cis (INR k * a)) n in
  (1 - cos a) * fst S + sin a * snd S = 1 - cos (INR n * a) /\
  (1 - cos a) * snd S - sin a * fst S = - sin (INR n * a).
Proof.
  induction n as [|n IH].
  - simpl. rewrite Rmult_0_l, cos_0, sin_0. split; ring.
  - cbv zeta in *. destruct IH as [IH1 IH2].
    unfold Csum, cis in *. cbn [fst snd Rsum] in *.
    rewrite S_INR.
    replace ((INR n + 1) * a) with (INR n * a + a) by ring.
    rewrite cos_plus, sin_plus.
    split; nra.
Qed.

(** The sum vanishes when e^(i a) is not 1 and e^(i n a) is. *)
Lemma geometric_cis_zero (a : R) (n : nat) :
  cos a <> 1 -> cis (INR n * a) = (1, 0) ->
  Csum (fun k => cis (INR k * a)) n = C0.
Proof.
  intros Hc Hn.
  destruct (geometric_cis a n) as [H1 H2]. cbv zeta in *.
  injection Hn as Hcn Hsn. rewrite Hcn in H1. rewrite Hsn in H2.
  set (S := Csum (fun k => cis (INR k * a)) n) in *.
  pose proof (sin2_cos2 a) as Hsc. unfold Rsqr in Hsc.
  assert (Hd : 2 * (1 - cos a) <> 0) by lra.
  assert (E1 : 2 * (1 - cos a) * fst S = 0) by nra.
  assert (E2 : 2 * (1 - cos a) * snd S = 0) by nra.
  apply C_eq; simpl.
  - apply Rmult_integral in E1. tauto.
  - apply Rmult_integral in E2. tauto.
Qed.

Lemma cos_neq_1 (x : R) : x <> 0 -> - (2 * PI) < x < 2 * PI -> cos x <> 1.
Proof.
  intros Hx [Hlo Hhi] Hc.
  assert (Hs : sin (x / 2) = 0).
  { pose proof (cos_2a_sin (x / 2)) as H.
    replace (2 * (x / 2)) with x in H by field.
    rewrite Hc in H. nra. }
  destruct (Rtotal_order x 0) as [Hneg|[Hz|Hpos]]; [|contradiction|].
  - assert (0 < sin (- (x / 2))) by (apply sin_gt_0; lra).
    rewrite sin_neg in H. lra.
  - assert (0 < sin (x / 2)) by (apply sin_gt_0; lra).
    lra.
Qed.

(** Orthogonality of the N-th roots of unity. *)
Lemma roots_of_unity_sum (N j n : nat) :
  (j < N)%nat -> (n < N)%nat ->
  Csum (fun k => cis (tw N k j - tw N k n)) N =
  if (n =? j)%nat then (INR N, 0) else C0.
Proof.
  intros Hj Hn.
  assert (HN : 0 < INR N) by (apply lt_0_INR; lia).
  destruct (Nat.eqb_spec n j) as [->|Hne].
  - rewrite (Csum_ext _ (fun _ => (1, 0))).
    + unfold Csum; simpl. rewrite Rsum_const, Rsum_zero. f_equal; ring.
    + intros k _. rewrite Rminus_diag. apply cis_0.
  - set (a := 2 * PI * (INR j - INR n) / INR N).
    rewrite (Csum_ext _ (fun k => cis (INR k * a))).
    + apply geometric_cis_zero.
      * assert (Hj' : INR j < INR N) by (apply lt_INR; exact Hj).
        assert (Hn' : INR n < INR N) by (apply lt_INR; exact Hn).
        pose proof (pos_INR j). pose proof (pos_INR n).
        pose proof PI_RGT_0 as Hpi.
        assert (Hd : INR j - INR n <> 0).
        { intros E. apply Hne. symmetry. apply INR_eq. lra. }
        assert (Ha : a * INR N = 2 * PI * (INR j - INR n))
          by (unfold a; field; lra).
        apply cos_neq_1.
        -- intros E. rewrite E in Ha. nra.
        -- split.
           ++ apply Rmult_lt_reg_r with (INR N); [exact HN|]. nra.
           ++ apply Rmult_lt_reg_r with (INR N); [exact HN|]. nra.
      * replace (INR N * a) with (2 * PI * INR j - 2 * PI * INR n)
          by (unfold a; field; lra).
        rewrite cis_period_neg. apply cis_2PI_INR.
    + intros k _. f_equal. unfold tw, a. field. lra.
Qed.

(** ** The discrete Fourier transform and its inverse *)

Lemma dft_length (a : list C) : length (dft a) = length a.
Proof. unfold dft. rewrite length_map, length_seq. reflexivity. Qed.

Lemma idft_length (X : list C) : length (idft X) = length X.
Proof. unfold idft. rewrite length_map, length_seq. reflexivity. Qed.

Lemma nth_dft (a : list C) (k : nat) :
  (k < length a)%nat ->
  nth k (dft a) C0 =
  Csum (fun n => Cmul (nth n a C0) (cis (- tw (length a) k n))) (length a).
Proof.
  intros Hk. unfold dft.
  exact (nth_map_seq
           (fun k => Csum (fun n => Cmul (nth n a C0) (cis (- tw (length a) k n)))
                          (length a))
           (length a) k C0 Hk).
Qed.

Lemma nth_idft (X : list C) (n : nat) :
  (n < length X)%nat ->
  nth n (idft X) C0 =
  Cscale (/ INR (length X))
    (Csum (fun k => Cmul (nth k X C0) (cis (tw (length X) k n))) (length X)).
Proof.
  intros Hn. unfold idft.
  exact (nth_map_seq
           (fun n => Cscale (/ INR (length X))
                       (Csum (fun k => Cmul (nth k X C0) (cis (tw (length X) k n)))
                             (length X)))
           (length X) n C0 Hn).
Qed.

(** The inverse transform undoes the forward transform. *)
Lemma idft_dft (a : list C) : idft (dft a) = a.
Proof.
  apply (nth_ext _ _ C0 C0).
  - rewrite idft_length, dft_length. reflexivity.
  - intros j Hj. rewrite idft_length, dft_length in Hj.
    rewrite nth_idft by (rewrite dft_length; exact Hj).
    rewrite dft_length. set (N := length a) in *.
    assert (HN : 0 < INR N) by (apply lt_0_INR; lia).
    rewrite (Csum_ext _
      (fun k => Csum (fun n => Cmul (nth n a C0) (cis (tw N k j - tw N k n))) N)).
    2:{ intros k Hk. rewrite nth_dft by exact Hk. fold N.
        rewrite <- Csum_mul_r. apply Csum_ext. intros n _.
        rewrite <- Cmul_assoc, cis_add. do 2 f_equal. ring. }
    rewrite Csum_swap.
    rewrite (Csum_ext _
      (fun n => if (n =? j)%nat then Cmul (nth n a C0) (INR N, 0) else C0)).
    2:{ intros n Hn. rewrite Csum_mul_l, roots_of_unity_sum by assumption.
        destruct (n =? j)%nat; [reflexivity | apply Cmul_C0_r]. }
    rewrite Csum_delta by exact Hj.
    apply C_eq; simpl; field; lra.
Qed.

Lemma nth_RtoC (x : list R) (n : nat) :
  nth n (map RtoC x) C0 = RtoC (nth n x 0).
Proof. change C0 with (RtoC 0). apply map_nth. Qed.

Lemma map_Cre_RtoC (x : list R) : map Cre (map RtoC x) = x.
Proof.
  induction x as [|r x IH]; simpl; [|rewrite IH]; reflexivity.
Qed.

(** *** Spectra of real signals *)

(** Bin 0 of the transform of a real signal is real. *)
Lemma dft_real_dc (x : list R) : snd (nth 0 (dft (map RtoC x)) C0) = 0.
Proof.
  destruct x as [|r x]; [reflexivity|].
  rewrite nth_dft by (simpl; lia).
  unfold Csum. cbn [snd].
  rewrite <- (Rsum_zero (length (map RtoC (r :: x)))).
  apply Rsum_ext. intros n _.
  rewrite nth_RtoC. unfold tw. cbn [Cmul RtoC cis fst snd].
  change (INR 0) with 0.
  replace (- (2 * PI * 0 * INR n / INR (length (map RtoC (r :: x))))) with 0
    by (unfold Rdiv; ring).
  rewrite sin_0. ring.
Qed.

(** For an even length, so is bin N/2. *)
Lemma dft_real_nyquist (x : list R) :
  Nat.even (length x) = true ->
  snd (nth (length x / 2) (dft (map RtoC x)) C0) = 0.
Proof.
  intros He.
  destruct x as [|r x]; [reflexivity|].
  set (N := length (r :: x)) in *.
  assert (HN : (0 < N)%nat) by (unfold N; simpl; lia).
  assert (Hhalf : (N = 2 * (N / 2))%nat).
  { destruct (proj1 (Nat.even_spec N) He) as [m Hm].
    assert (N / 2 = m)%nat
      by (rewrite Hm, Nat.mul_comm; apply Nat.div_mul; lia).
    lia. }
  assert (Hlen : length (map RtoC (r :: x)) = N) by apply length_map.
  rewrite nth_dft by (rewrite Hlen; lia).
  rewrite Hlen.
  unfold Csum. cbn [snd].
  rewrite <- (Rsum_zero N).
  apply Rsum_ext. intros n _.
  rewrite nth_RtoC. cbn [Cmul RtoC cis fst snd].
  assert (Hs : sin (- tw N (N / 2) n) = 0).
  { apply sin_eq_0_1. exists (- Z.of_nat n)%Z.
    rewrite opp_IZR, <- INR_IZR_INZ. unfold tw.
    assert (E : INR N = 2 * INR (N / 2)).
    { rewrite Hhalf at 1. rewrite mult_INR. simpl. ring. }
    assert (0 < INR (N / 2)) by (apply lt_0_INR; lia).
    rewrite E. field. lra. }
  rewrite Hs. ring.
Qed.

Lemma Csum_conj (f : nat -> C) (n : nat) :
  Cconj (Csum f n) = Csum (fun i => Cconj (f i)) n.
Proof.
  unfold Csum, Cconj. cbn [fst snd]. f_equal.
  rewrite <- (Rmult_1_l (Rsum _ n)), Ropp_mult_distr_l, <- Rsum_scal.
  apply Rsum_ext. intros i _. ring.
Qed.

(** The transform of a real signal is conjugate-symmetric. *)
Lemma dft_real_conj (x : list R) (k : nat) :
  (0 < k < length x)%nat ->
  nth (length x - k) (dft (map RtoC x)) C0 =
  Cconj (nth k (dft (map RtoC x)) C0).
Proof.
  intros Hk.
  assert (Hlen : length (map RtoC x) = length x) by apply length_map.
  rewrite !nth_dft by (rewrite Hlen; lia).
  rewrite Hlen. set (N := length x) in *.
  rewrite Csum_conj. apply Csum_ext. intros n _.
  rewrite nth_RtoC.
  assert (HN : 0 < INR N) by (apply lt_0_INR; lia).
  replace (- tw N (N - k) n) with (tw N k n - 2 * PI * INR n).
  2:{ unfold tw. rewrite minus_INR by lia. field. lra. }
  rewrite cis_period_neg, cis_neg.
  unfold Cconj, Cmul, RtoC, cis. cbn [fst snd]. f_equal; ring.
Qed.

(** Rebuilding the full spectrum of a real signal from its first N/2+1
    bins gives the spectrum back. *)
Lemma hermitian_full_rfft (x : list R) :
  hermitian_full (firstn (length x / 2 + 1) (dft (map RtoC x))) (length x) =
  dft (map RtoC x).
Proof.
  set (X := dft (map RtoC x)). set (N := length x).
  assert (HX : length X = N) by (unfold X; rewrite dft_length; apply length_map).
  apply (nth_ext _ _ C0 C0).
  - unfold hermitian_full. rewrite length_map, length_seq. symmetry; exact HX.
  - intros k Hk. unfold hermitian_full in *.
    rewrite length_map, length_seq in Hk.
    rewrite nth_map_seq by exact Hk.
    assert (Hfirst : forall i, (i <= N / 2)%nat ->
              nth i (firstn (N / 2 + 1) X) C0 = nth i X C0).
    { intros i Hi. rewrite nth_firstn.
      destruct (Nat.ltb_spec i (N / 2 + 1)); [reflexivity | lia]. }
    destruct (Nat.eqb_spec k 0) as [->|Hk0].
    { rewrite Hfirst by lia. apply C_eq; [reflexivity|].
      simpl. symmetry. apply dft_real_dc. }
    destruct (Nat.even N) eqn:He; cbn [andb].
    + destruct (Nat.eqb_spec k (N / 2)) as [->|Hkh].
      { rewrite Hfirst by lia. apply C_eq; [reflexivity|].
        simpl. symmetry. apply dft_real_nyquist. exact He. }
      destruct (Nat.leb_spec k (N / 2)) as [Hle|Hgt].
      * apply Hfirst; exact Hle.
      * pose proof (Nat.div_mod_eq N 2).
        pose proof (Nat.mod_upper_bound N 2).
        rewrite Hfirst by lia.
        unfold X. rewrite <- (dft_real_conj x (N - k)) by (fold N; lia).
        fold N. f_equal. lia.
    + destruct (Nat.leb_spec k (N / 2)) as [Hle|Hgt].
      * apply Hfirst; exact Hle.
      * pose proof (Nat.div_mod_eq N 2).
        pose proof (Nat.mod_upper_bound N 2).
        rewrite Hfirst by lia.
        unfold X. rewrite <- (dft_real_conj x (N - k)) by (fold N; lia).
        fold N. f_equal. lia.
Qed.

(** ** Analysis followed by synthesis *)

Lemma np_mul1_same_length (a b : list R) :
  length a = length b -> np_mul1 a b = Ok (map2 Rmult a b).
Proof. intros H. unfold np_mul1. rewrite H, Nat.eqb_refl. reflexivity. Qed.

Lemma np_fft_nonempty (a : list C) : a <> [] -> np_fft a = Ok (dft a).
Proof. destruct a; [congruence | reflexivity]. Qed.

Lemma np_ifft_nonempty (X : list C) : X <> [] -> np_ifft X = Ok (idft X).
Proof. destruct X; [congruence | reflexivity]. Qed.

Lemma nonempty_length {A : Type} (l : list A) : l <> [] <-> (0 < length l)%nat.
Proof. destruct l; simpl; split; intros; try congruence; lia. Qed.

Lemma fft_ifft_real_id (x : list R) : x <> [] -> fft_ifft_real x = Ok x.
Proof.
  intros Hx. unfold fft_ifft_real.
  assert (Hm : map RtoC x <> []) by (destruct x; simpl; congruence).
  rewrite np_fft_nonempty by exact Hm. cbn [bind].
  rewrite np_ifft_nonempty.
  - cbn [bind]. rewrite idft_dft, map_Cre_RtoC. reflexivity.
  - apply nonempty_length. rewrite dft_length. apply nonempty_length, Hm.
Qed.

Lemma np_rfft_nonempty (x : list R) :
  x <> [] -> np_rfft x = Ok (firstn (length x / 2 + 1) (dft (map RtoC x))).
Proof.
  intros Hx. unfold np_rfft.
  rewrite np_fft_nonempty by (destruct x; simpl; congruence).
  reflexivity.
Qed.

Lemma irfft_n_rfft (x : list R) :
  x <> [] ->
  np_irfft_n (firstn (length x / 2 + 1) (dft (map RtoC x))) (length x) = Ok x.
Proof.
  intros Hx. unfold np_irfft_n.
  destruct (length x) eqn:E; [destruct x; simpl in *; congruence|].
  rewrite <- E, hermitian_full_rfft, idft_dft, map_Cre_RtoC. reflexivity.
Qed.

Lemma even_half (n : nat) : Nat.even n = true -> (2 * (n / 2) = n)%nat.
Proof.
  intros He. destruct (proj1 (Nat.even_spec n) He) as [m Hm].
  assert (n / 2 = m)%nat by (rewrite Hm, Nat.mul_comm; apply Nat.div_mul; lia).
  lia.
Qed.

(** C4.  For every non-empty real frame x, the inverse transform of the
    forward transform returns x exactly: through the full spectrum
    ([ifft(fft(x)).real], as in [manual_stft_istft]), through the half
    spectrum rebuilt by conjugate symmetry when the inverse is given the
    length of x, and, for a frame of even length, through
    [irfft(rfft(x))] as [compare_stft_scaling.py] calls it. *)
Theorem synthesize_analyze_id (x : list R) :
  x <> [] ->
  fft_ifft_real x = Ok x /\
  (X <- np_rfft x ;; np_irfft_n X (length x)) = Ok x /\
  (Nat.even (length x) = true -> rfft_irfft x = Ok x).
Proof.
  intros Hx. split; [|split].
  - apply fft_ifft_real_id, Hx.
  - rewrite np_rfft_nonempty by exact Hx. cbn [bind].
    apply irfft_n_rfft, Hx.
  - intros He. unfold rfft_irfft, np_irfft.
    rewrite np_rfft_nonempty by exact Hx. cbn [bind].
    rewrite length_firstn, dft_length, length_map.
    assert (Hpos : (0 < length x)%nat) by (apply nonempty_length, Hx).
    pose proof (even_half _ He) as Hh.
    replace (2 * (Nat.min (length x / 2 + 1) (length x) - 1))%nat
      with (length x) by lia.
    apply irfft_n_rfft, Hx.
Qed.

Lemma synthesize_analyze_id_witness :
  [1; 2] <> [] /\
  fft_ifft_real [1; 2] = Ok [1; 2] /\
  (X <- np_rfft [1; 2] ;; np_irfft_n X (length [1; 2])) = Ok [1; 2] /\
  (Nat.even (length [1; 2]) = true -> rfft_irfft [1; 2] = Ok [1; 2]).
Proof.
  split; [discriminate | apply (synthesize_analyze_id [1; 2]); discriminate].
Defined.

(** ** DC and Nyquist bins *)

Lemma hann_periodic_length (N : nat) : length (hann_periodic N) = N.
Proof. unfold hann_periodic. rewrite length_map, length_seq. reflexivity. Qed.

Lemma frame_fft_Ok (signal : list R) :
  signal <> [] ->
  frame_fft signal =
  Ok (dft (map RtoC (map2 Rmult signal (hann_periodic (length signal))))).
Proof.
  intros Hs. unfold frame_fft.
  rewrite np_mul1_same_length by (rewrite hann_periodic_length; reflexivity).
  cbn [bind]. apply np_fft_nonempty.
  apply nonempty_length. rewrite length_map, map2_length, hann_periodic_length.
  apply nonempty_length in Hs. lia.
Qed.

Lemma windowed_length (signal : list R) :
  length (map2 Rmult signal (hann_periodic (length signal))) = length signal.
Proof. rewrite map2_length, hann_periodic_length. lia. Qed.

Lemma nth_error_map_firstn {A B : Type} (f : A -> B) (l : list A) (m i : nat) (d : A) :
  (i < m)%nat -> (i < length l)%nat ->
  nth_error (map f (firstn m l)) i = Some (f (nth i l d)).
Proof.
  intros Hm Hl.
  rewrite nth_error_map, nth_error_firstn.
  destruct (Nat.ltb_spec i m); [|lia].
  rewrite (nth_error_nth' l d Hl). reflexivity.
Qed.

(** C9.  For every real frame of even length N the half spectrum (bins
    0 .. N/2) has a zero imaginary part at bin 0 and at bin N/2: for
    [np.fft.rfft] of the frame, and for [imag_part] of
    [compare_dft_single_frame.py], which windows the frame first. *)
Theorem dc_nyquist_imag_zero (x : list R) :
  x <> [] -> Nat.even (length x) = true ->
  (exists X, np_rfft x = Ok X /\
             length X = (length x / 2 + 1)%nat /\
             nth_error (map Cim X) 0 = Some 0 /\
             nth_error (map Cim X) (length x / 2) = Some 0) /\
  (exists im, imag_part x = Ok im /\
              length im = (length x / 2 + 1)%nat /\
              nth_error im 0 = Some 0 /\
              nth_error im (length x / 2) = Some 0).
Proof.
  intros Hx He.
  assert (Hpos : (0 < length x)%nat) by (apply nonempty_length, Hx).
  pose proof (even_half _ He) as Hh.
  split.
  - eexists. split; [apply np_rfft_nonempty, Hx|].
    split; [|split].
    + rewrite length_firstn, dft_length, length_map. lia.
    + rewrite (nth_error_map_firstn Cim _ _ _ C0)
        by (rewrite ?dft_length, ?length_map; lia).
      unfold Cim. rewrite dft_real_dc. reflexivity.
    + rewrite (nth_error_map_firstn Cim _ _ _ C0)
        by (rewrite ?dft_length, ?length_map; lia).
      unfold Cim. rewrite dft_real_nyquist by exact He. reflexivity.
  - unfold imag_part. rewrite frame_fft_Ok by exact Hx. cbn [bind].
    eexists. split; [reflexivity|].
    pose proof (windowed_length x) as Hw.
    unfold frequency_bins.
    split; [|split].
    + rewrite length_map, length_firstn, dft_length, length_map, Hw. lia.
    + rewrite (nth_error_map_firstn Cim _ _ _ C0)
        by (rewrite ?dft_length, ?length_map, ?Hw; lia).
      unfold Cim. rewrite dft_real_dc. reflexivity.
    + rewrite (nth_error_map_firstn Cim _ _ _ C0)
        by (rewrite ?dft_length, ?length_map, ?Hw; lia).
      unfold Cim. rewrite <- Hw at 1.
      rewrite dft_real_nyquist by (rewrite Hw; exact He). reflexivity.
Qed.

Lemma dc_nyquist_imag_zero_witness :
  [1; 2] <> [] /\ Nat.even (length [1; 2]) = true /\
  (exists X, np_rfft [1; 2] = Ok X /\
             length X = (length [1; 2] / 2 + 1)%nat /\
             nth_error (map Cim X) 0 = Some 0 /\
             nth_error (map Cim X) (length [1; 2] / 2) = Some 0) /\
  (exists im, imag_part [1; 2] = Ok im /\
              length im = (length [1; 2] / 2 + 1)%nat /\
              nth_error im 0 = Some 0 /\
              nth_error im (length [1; 2] / 2) = Some 0).
Proof.
  split; [discriminate|]. split; [reflexivity|].
  apply (dc_nyquist_imag_zero [1; 2]); [discriminate | reflexivity].
Defined.

(** ** The chunk tensor of [run_onnx_inference] *)

Section ChunkTensor.

Variable f32 : R -> R.

Lemma model_part_dims (part : C -> R) (s : ndarray3 C) :
  dim0 (model_part f32 part s) = dim0 s /\
  dim1 (model_part f32 part s) = Nat.min 2048 (dim1 s) /\
  dim2 (model_part f32 part s) = dim2 s.
Proof.
  unfold model_part.
  destruct (Nat.ltb_spec 2048 (dim1 s)); unfold take_freq, map3;
    cbn [dim0 dim1 dim2]; repeat split; lia.
Qed.

Lemma model_part_item (part : C -> R) (s : ndarray3 C) (c f t : nat) :
  item (model_part f32 part s) c f t = f32 (part (item s c f t)).
Proof.
  unfold model_part. destruct (2048 <? dim1 s)%nat; reflexivity.
Qed.

Lemma chunk_extent_le (time_frames chunk_size i : nat) :
  (chunk_extent time_frames chunk_size i <= chunk_size)%nat.
Proof. unfold chunk_extent. nia. Qed.

Lemma padded_chunk_dims (p : ndarray3 R) (time_frames chunk_size i : nat) :
  time_frames = dim2 p ->
  dim0 (padded_chunk p time_frames chunk_size i) = dim0 p /\
  dim1 (padded_chunk p time_frames chunk_size i) = dim1 p /\
  dim2 (padded_chunk p time_frames chunk_size i) = chunk_size.
Proof.
  intros ->. unfold padded_chunk.
  pose proof (chunk_extent_le (dim2 p) chunk_size i) as Hle.
  unfold chunk_extent in Hle.
  destruct (Nat.ltb_spec
              (dim2 (slice_time (i * chunk_size)
                       (Nat.min ((i + 1) * chunk_size) (dim2 p)) p))
              chunk_size) as [Hlt|Hge];
    unfold pad_time, slice_time in *; cbn [dim0 dim1 dim2] in *;
    repeat split; lia.
Qed.

Lemma padded_chunk_item (p : ndarray3 R) (time_frames chunk_size i c f t : nat) :
  time_frames = dim2 p ->
  (t < chunk_size)%nat ->
  item (padded_chunk p time_frames chunk_size i) c f t =
  if (i * chunk_size + t <? time_frames)%nat
  then item p c f (i * chunk_size + t) else 0.
Proof.
  intros -> Ht. unfold padded_chunk.
  pose proof (chunk_extent_le (dim2 p) chunk_size i) as Hle.
  unfold chunk_extent in Hle.
  destruct (Nat.ltb_spec
              (dim2 (slice_time (i * chunk_size)
                       (Nat.min ((i + 1) * chunk_size) (dim2 p)) p))
              chunk_size) as [Hlt|Hge];
    unfold pad_time, slice_time in *; cbn [dim0 dim1 dim2 item] in *.
  - destruct (Nat.ltb_spec t
                (Nat.min (Nat.min ((i + 1) * chunk_size) (dim2 p)) (dim2 p)
                 - i * chunk_size));
      destruct (Nat.ltb_spec (i * chunk_size + t) (dim2 p));
      try reflexivity; lia.
  - destruct (Nat.ltb_spec (i * chunk_size + t) (dim2 p));
      try reflexivity; lia.
Qed.

Lemma plane_Ok {A : Type} (a : ndarray3 A) (c : nat) :
  (c < dim0 a)%nat ->
  plane a c = Ok (mk_ndarray2 (dim1 a) (dim2 a) (item a c)).
Proof.
  intros Hc. unfold plane.
  destruct (Nat.ltb_spec c (dim0 a)); [reflexivity | lia].
Qed.

(** The content of the tensor of chunk [i]. *)
Lemma input_data_spec (s : ndarray3 C) (chunk_size i : nat) :
  (1 <= dim0 s)%nat ->
  exists x,
    input_data f32 s chunk_size i = Ok x /\
    shape3 x = (4%nat, Nat.min 2048 (dim1 s), chunk_size) /\
    forall p f t, (p < 4)%nat -> (t < chunk_size)%nat ->
      item x p f t =
      if (i * chunk_size + t <? dim2 s)%nat
      then f32 (plane_part p (item s (plane_channel (dim0 s) p) f (i * chunk_size + t)))
      else 0.
Proof.
  intros Hc. unfold input_data.
  destruct (model_part_dims Cre s) as [Hr0 [Hr1 Hr2]].
  destruct (model_part_dims Cim s) as [Hi0 [Hi1 Hi2]].
  destruct (padded_chunk_dims (model_part f32 Cre s) (dim2 s) chunk_size i
              (eq_sym Hr2)) as [Pr0 [Pr1 Pr2]].
  destruct (padded_chunk_dims (model_part f32 Cim s) (dim2 s) chunk_size i
              (eq_sym Hi2)) as [Pi0 [Pi1 Pi2]].
  cbv zeta.
  set (rc := padded_chunk (model_part f32 Cre s) (dim2 s) chunk_size i) in *.
  set (ic := padded_chunk (model_part f32 Cim s) (dim2 s) chunk_size i) in *.
  assert (Hright :
    exists c1, c1 = plane_channel (dim0 s) 2 /\
      (if (1 <? dim0 s)%nat then plane rc 1 else plane rc 0) =
        Ok (mk_ndarray2 (dim1 rc) (dim2 rc) (item rc c1)) /\
      (if (1 <? dim0 s)%nat then plane ic 1 else plane ic 0) =
        Ok (mk_ndarray2 (dim1 ic) (dim2 ic) (item ic c1))).
  { unfold plane_channel.
    destruct (Nat.ltb_spec 1 (dim0 s)).
    - exists 1%nat. repeat split; apply plane_Ok; lia.
    - exists 0%nat. repeat split; apply plane_Ok; lia. }
  destruct Hright as [c1 [Hc1 [Er Ei]]]. rewrite Er, Ei.
  rewrite (plane_Ok rc 0) by lia. rewrite (plane_Ok ic 0) by lia. cbn [bind].
  unfold np_stack, same_shape2. cbn [forallb nrows ncols andb].
  rewrite Pr1, Pr2, Pi1, Pi2, Hr1, Hi1, !Nat.eqb_refl. cbn [andb].
  eexists. split; [reflexivity|]. split; [reflexivity|].
  intros p f t Hp Ht. cbn [item length].
  assert (Hcases : (p = 0 \/ p = 1 \/ p = 2 \/ p = 3)%nat) by lia.
  assert (Hch : plane_channel (dim0 s) 0 = O /\ plane_channel (dim0 s) 1 = O /\
                plane_channel (dim0 s) 3 = c1).
  { subst c1. unfold plane_channel. destruct (1 <? dim0 s)%nat; auto. }
  destruct Hch as [Hch0 [Hch1 Hch3]].
  destruct Hcases as [-> | [-> | [-> | ->]]]; cbn [nth item2 plane_part Nat.even];
    unfold rc, ic;
    rewrite padded_chunk_item by (auto using eq_sym);
    rewrite model_part_item, ?Hch0, ?Hch1, ?Hch3, <- ?Hc1;
    reflexivity.
Qed.

End ChunkTensor.

(** C5.  For every chunk whose time extent is strictly below [chunk_size],
    the tensor [input_data] built by [run_onnx_inference] has four planes of
    exactly [chunk_size] time steps; the first [extent] steps of each plane
    are the float32 real or imaginary parts of the chunk, in place, and every
    later step is exactly zero in each of the four planes. *)
Theorem chunk_padding_zero (f32 : R -> R) (s : ndarray3 C) (chunk_size i : nat) :
  (1 <= dim0 s)%nat ->
  (chunk_extent (dim2 s) chunk_size i < chunk_size)%nat ->
  exists x,
    input_data f32 s chunk_size i = Ok x /\
    dim0 x = 4%nat /\ dim2 x = chunk_size /\
    (forall p f t, (p < 4)%nat ->
       (chunk_extent (dim2 s) chunk_size i <= t < chunk_size)%nat ->
       item x p f t = 0) /\
    (forall p f t, (p < 4)%nat ->
       (t < chunk_extent (dim2 s) chunk_size i)%nat ->
       item x p f t =
       f32 (plane_part p (item s (plane_channel (dim0 s) p) f (i * chunk_size + t)))).
Proof.
  intros Hc He.
  destruct (input_data_spec f32 s chunk_size i Hc) as [x [Hx [Hshape Hitem]]].
  exists x. injection Hshape as H0 H1 H2.
  unfold chunk_extent in *.
  repeat split; try assumption.
  - intros p f t Hp Ht. rewrite Hitem by lia.
    destruct (Nat.ltb_spec (i * chunk_size + t) (dim2 s)); [lia | reflexivity].
  - intros p f t Hp Ht. rewrite Hitem by lia.
    destruct (Nat.ltb_spec (i * chunk_size + t) (dim2 s)); [reflexivity | lia].
Qed.

Lemma chunk_padding_zero_witness :
  (1 <= dim0 mono_spectrogram)%nat /\
  (chunk_extent (dim2 mono_spectrogram) 2 1 < 2)%nat /\
  exists x,
    input_data (fun r => r) mono_spectrogram 2 1 = Ok x /\
    dim0 x = 4%nat /\ dim2 x = 2%nat /\
    (forall p f t, (p < 4)%nat ->
       (chunk_extent (dim2 mono_spectrogram) 2 1 <= t < 2)%nat ->
       item x p f t = 0) /\
    (forall p f t, (p < 4)%nat ->
       (t < chunk_extent (dim2 mono_spectrogram) 2 1)%nat ->
       item x p f t =
       plane_part p
         (item mono_spectrogram (plane_channel (dim0 mono_spectrogram) p) f (1 * 2 + t))).
Proof.
  split; [simpl; lia|]. split; [vm_compute; lia|].
  apply (chunk_padding_zero (fun r => r) mono_spectrogram 2 1).
  - simpl; lia.
  - vm_compute; lia.
Defined.

(** ** Chunked inference *)

Lemma num_chunks_ceil (time_frames chunk_size : nat) :
  (0 < chunk_size)%nat -> (1 <= time_frames)%nat ->
  ((num_chunks time_frames chunk_size - 1) * chunk_size < time_frames
   <= num_chunks time_frames chunk_size * chunk_size)%nat.
Proof.
  intros Hc Ht. unfold num_chunks.
  pose proof (Nat.div_mod_eq (time_frames + chunk_size - 1) chunk_size) as E.
  pose proof (Nat.mod_upper_bound (time_frames + chunk_size - 1) chunk_size) as U.
  assert (U' : ((time_frames + chunk_size - 1) mod chunk_size < chunk_size)%nat)
    by (apply U; lia).
  clear U.
  generalize dependent ((time_frames + chunk_size - 1) mod chunk_size)%nat.
  generalize ((time_frames + chunk_size - 1) / chunk_size)%nat.
  intros q r E U.
  destruct q as [|q].
  - rewrite Nat.mul_0_r in E. lia.
  - replace (S q - 1)%nat with q by lia.
    rewrite Nat.mul_succ_r in E. rewrite (Nat.mul_comm chunk_size q) in E.
    rewrite Nat.mul_succ_l. lia.
Qed.

(** The extents of the chunks add up to the number of time frames. *)
Lemma sum_chunk_extents {A : Type} (g : nat -> ndarray3 A)
      (time_frames chunk_size n k : nat) :
  (forall j, (k <= j < k + n)%nat ->
     dim2 (g j) = chunk_extent time_frames chunk_size j) ->
  fold_right (fun a m => (dim2 a + m)%nat) O (map g (seq k n)) =
  (Nat.min ((k + n) * chunk_size) time_frames
   - Nat.min (k * chunk_size) time_frames)%nat.
Proof.
  revert k. induction n as [|n IH]; intros k Hg.
  - simpl. rewrite Nat.add_0_r. lia.
  - cbn [seq map fold_right].
    rewrite IH by (intros j Hj; apply Hg; lia).
    rewrite Hg by lia. unfold chunk_extent.
    replace ((k + S n) * chunk_size)%nat with ((S k + n) * chunk_size)%nat by lia.
    assert (k * chunk_size <= (k + 1) * chunk_size)%nat by nia.
    assert ((k + 1) * chunk_size <= (S k + n) * chunk_size)%nat by nia.
    replace (S k * chunk_size)%nat with ((k + 1) * chunk_size)%nat by lia.
    lia.
Qed.

(** Time step [t] of the concatenation is step [t mod chunk_size] of chunk
    [t / chunk_size]. *)
Lemma concat_item_chunks {A : Type} (dflt : A) (g : nat -> ndarray3 A)
      (time_frames chunk_size : nat) (c f : nat) (n k t : nat) :
  (0 < chunk_size)%nat ->
  (forall j, (k <= j < k + n)%nat ->
     dim2 (g j) = chunk_extent time_frames chunk_size j) ->
  (k * chunk_size + t < time_frames)%nat ->
  (time_frames <= (k + n) * chunk_size)%nat ->
  concat_item dflt (map g (seq k n)) c f t =
  item (g (k + t / chunk_size)%nat) c f (t mod chunk_size).
Proof.
  intros Hc. revert k t. induction n as [|n IH]; intros k t Hg Ht Hn.
  - lia.
  - cbn [seq map concat_item].
    rewrite Hg by lia. unfold chunk_extent.
    destruct (Nat.ltb_spec t
                (Nat.min ((k + 1) * chunk_size) time_frames - k * chunk_size)) as [Hlt|Hge].
    + assert (t < chunk_size)%nat by nia.
      rewrite Nat.div_small, Nat.mod_small by assumption.
      rewrite Nat.add_0_r. reflexivity.
    + assert (Hfull : ((k + 1) * chunk_size <= time_frames)%nat) by lia.
      rewrite Nat.min_l by exact Hfull.
      replace ((k + 1) * chunk_size - k * chunk_size)%nat with chunk_size by nia.
      assert (chunk_size <= t)%nat by nia.
      rewrite IH.
      * replace t with ((t - chunk_size) + 1 * chunk_size)%nat at 3 4 by lia.
        rewrite Nat.div_add, Nat.Div0.mod_add by lia.
        replace (S k + (t - chunk_size) / chunk_size)%nat
          with (k + ((t - chunk_size) / chunk_size + 1))%nat by lia.
        reflexivity.
      * intros j Hj. apply Hg. lia.
      * nia.
      * nia.
Qed.

Section ChunkedInference.

Variable f32 : R -> R.
Variable session_run : list (ndarray3 R) -> list (ndarray3 R).
Variable s : ndarray3 C.
Variables chunk_size F_out : nat.

Hypothesis channels_pos : (1 <= dim0 s)%nat.
Hypothesis chunk_size_pos : (0 < chunk_size)%nat.

(** The model answers every chunk tensor with a tensor of one fixed shape,
    [chunk_size] time steps long. *)
Hypothesis fixed_shape : forall x,
  shape3 x = (4%nat, Nat.min 2048 (dim1 s), chunk_size) ->
  exists out rest,
    session_run [x] = out :: rest /\ shape3 out = (4%nat, F_out, chunk_size).

Lemma model_output_shape (i : nat) :
  exists x rest,
    input_data f32 s chunk_size i = Ok x /\
    session_run [x] = model_output f32 session_run s chunk_size i :: rest /\
    shape3 (model_output f32 session_run s chunk_size i) = (4%nat, F_out, chunk_size).
Proof.
  destruct (input_data_spec f32 s chunk_size i channels_pos) as [x [Hx [Hs _]]].
  destruct (fixed_shape x Hs) as [out [rest [Hrun Hout]]].
  exists x, rest. unfold model_output. rewrite Hx, Hrun. cbn [hd].
  repeat split; assumption.
Qed.

Lemma chunk_mask_spec (i : nat) :
  exists m,
    chunk_mask f32 session_run s chunk_size i = Ok m /\
    dim0 m = 2%nat /\ dim1 m = F_out /\
    dim2 m = chunk_extent (dim2 s) chunk_size i /\
    forall c f t, (c < 2)%nat ->
      item m c f t =
      (item (model_output f32 session_run s chunk_size i) (2 * c) f t,
       item (model_output f32 session_run s chunk_size i) (2 * c + 1) f t).
Proof.
  destruct (model_output_shape i) as [x [rest [Hx [Hrun Hshape]]]].
  set (out := model_output f32 session_run s chunk_size i) in *.
  injection Hshape as H0 H1 H2.
  unfold chunk_mask. rewrite Hx. cbn [bind]. rewrite Hrun.
  unfold combined_mask.
  rewrite !plane_Ok by lia. cbn [bind].
  unfold complex_plane, same_shape2. cbn [nrows ncols].
  rewrite !Nat.eqb_refl. cbn [andb bind].
  unfold np_stack, same_shape2. cbn [forallb nrows ncols andb].
  rewrite !Nat.eqb_refl. cbn [andb bind].
  fold (chunk_extent (dim2 s) chunk_size i).
  pose proof (chunk_extent_le (dim2 s) chunk_size i) as Hle.
  eexists. split; [reflexivity|].
  destruct (Nat.ltb_spec (chunk_extent (dim2 s) chunk_size i) chunk_size);
    unfold slice_time; cbn [dim0 dim1 dim2 item length];
    (split; [reflexivity|]); (split; [assumption|]); (split; [lia|]);
    intros c f t Hc;
    assert (Hcases : (c = 0 \/ c = 1)%nat) by lia;
    destruct Hcases as [-> | ->]; reflexivity.
Qed.

Lemma mask_of_chunk_spec (i : nat) :
  chunk_mask f32 session_run s chunk_size i =
    Ok (mask_of_chunk f32 session_run s chunk_size i) /\
  dim0 (mask_of_chunk f32 session_run s chunk_size i) = 2%nat /\
  dim1 (mask_of_chunk f32 session_run s chunk_size i) = F_out /\
  dim2 (mask_of_chunk f32 session_run s chunk_size i) =
    chunk_extent (dim2 s) chunk_size i /\
  forall c f t, (c < 2)%nat ->
    item (mask_of_chunk f32 session_run s chunk_size i) c f t =
    (item (model_output f32 session_run s chunk_size i) (2 * c) f t,
     item (model_output f32 session_run s chunk_size i) (2 * c + 1) f t).
Proof.
  destruct (chunk_mask_spec i) as [m [Hm H]].
  unfold mask_of_chunk. rewrite Hm. split; [reflexivity | exact H].
Qed.

End ChunkedInference.

(** C10.  For a spectrogram with at least one channel and one time frame, a
    positive [chunk_size] and a model that answers every chunk tensor with a
    tensor of one fixed shape [4, F_out, chunk_size], [run_onnx_inference]
    returns a mask of shape [2, F_out, time_frames].  It runs
    ceil(time_frames / chunk_size) chunks; only the last of them can be
    short, and its tensor is zero past the end of the spectrogram; time step
    [t] of the mask is step [t mod chunk_size] of what the model returned for
    chunk [t / chunk_size], real plane and imaginary plane paired per channel. *)
Theorem run_onnx_inference_time_frames
    (f32 : R -> R) (session_run : list (ndarray3 R) -> list (ndarray3 R))
    (s : ndarray3 C) (chunk_size F_out : nat) :
  (1 <= dim0 s)%nat ->
  (0 < chunk_size)%nat ->
  (1 <= dim2 s)%nat ->
  (forall x,
     shape3 x = (4%nat, Nat.min 2048 (dim1 s), chunk_size) ->
     exists out rest,
       session_run [x] = out :: rest /\ shape3 out = (4%nat, F_out, chunk_size)) ->
  let n := num_chunks (dim2 s) chunk_size in
  exists full_mask,
    run_onnx_inference f32 session_run s chunk_size = Ok full_mask /\
    shape3 full_mask = (2%nat, F_out, dim2 s) /\
    ((n - 1) * chunk_size < dim2 s <= n * chunk_size)%nat /\
    (forall i t, (i + 1 < n)%nat -> (t < chunk_size)%nat ->
       (i * chunk_size + t < dim2 s)%nat) /\
    forall t, (t < dim2 s)%nat ->
      let i := (t / chunk_size)%nat in
      let out := model_output f32 session_run s chunk_size i in
      exists x rest,
        input_data f32 s chunk_size i = Ok x /\
        (forall p f u, (p < 4)%nat -> (u < chunk_size)%nat ->
           item x p f u =
           if (i * chunk_size + u <? dim2 s)%nat
           then f32 (plane_part p
                       (item s (plane_channel (dim0 s) p) f (i * chunk_size + u)))
           else 0) /\
        session_run [x] = out :: rest /\
        forall c f, (c < 2)%nat ->
          item full_mask c f t =
          (item out (2 * c) f (t mod chunk_size),
           item out (2 * c + 1) f (t mod chunk_size)).
Proof.
  intros Hch Hcs Ht Hfix n. subst n.
  pose proof (num_chunks_ceil (dim2 s) chunk_size Hcs Ht) as Hceil.
  assert (Hrun : run_onnx_inference f32 session_run s chunk_size =
                 (masks <- mapM (chunk_mask f32 session_run s chunk_size)
                                (seq 0 (num_chunks (dim2 s) chunk_size)) ;;
                  np_concatenate2 C0 masks))
    by (unfold run_onnx_inference; destruct chunk_size; [lia | reflexivity]).
  rewrite Hrun. clear Hrun.
  remember (num_chunks (dim2 s) chunk_size) as n eqn:En.
  pose proof (mask_of_chunk_spec f32 session_run s chunk_size F_out Hch Hcs Hfix) as Hm.
  set (g := mask_of_chunk f32 session_run s chunk_size) in *.
  assert (Hext : forall k j, (k <= j < k + n)%nat ->
            dim2 (g j) = chunk_extent (dim2 s) chunk_size j)
    by (intros k j _; apply (Hm j)).
  rewrite (mapM_Ok_map _ g) by (intros i _; apply (Hm i)).
  cbn [bind]. unfold np_concatenate2.
  destruct n as [|n']; [lia|].
  cbn [seq map].
  assert (Hall : forallb (fun a => (dim0 a =? dim0 (g O))%nat
                                   && (dim1 a =? dim1 (g O))%nat)
                         (g O :: map g (seq 1 n')) = true).
  { apply forallb_forall. intros a Ha.
    change (g O :: map g (seq 1 n')) with (map g (seq 0 (S n'))) in Ha.
    apply in_map_iff in Ha. destruct Ha as [j [<- _]].
    destruct (Hm j) as [_ [Hj0 [Hj1 _]]]. destruct (Hm O) as [_ [H00 [H01 _]]].
    rewrite Hj0, Hj1, H00, H01, !Nat.eqb_refl. reflexivity. }
  rewrite Hall.
  eexists. split; [reflexivity|].
  change (g O :: map g (seq 1 n')) with (map g (seq 0 (S n'))).
  split; [|split; [|split]].
  - unfold shape3. cbn [dim0 dim1 dim2].
    destruct (Hm O) as [_ [H00 [H01 _]]]. rewrite H00, H01.
    rewrite (sum_chunk_extents g (dim2 s) chunk_size (S n') 0) by (apply Hext).
    rewrite Nat.min_r by lia. cbn [Nat.mul Nat.min]. rewrite Nat.sub_0_r.
    reflexivity.
  - exact Hceil.
  - intros i t Hi Hlt.
    assert ((i + 1) * chunk_size <= (S n' - 1) * chunk_size)%nat
      by (apply Nat.mul_le_mono_r; lia).
    lia.
  - intros t Hlt. cbv zeta.
    destruct (model_output_shape f32 session_run s chunk_size F_out Hch Hfix
                (t / chunk_size)) as [x [rest [Hx [Hrun _]]]].
    destruct (input_data_spec f32 s chunk_size (t / chunk_size) Hch)
      as [x' [Hx' [_ Hitem]]].
    assert (x' = x) by congruence. subst x'.
    exists x, rest. split; [exact Hx|]. split; [exact Hitem|]. split; [exact Hrun|].
    intros c f Hc. cbn [item].
    rewrite (concat_item_chunks C0 g (dim2 s) chunk_size c f (S n') 0 t)
      by (try apply Hext; lia).
    cbn [Nat.add].
    destruct (Hm (t / chunk_size)%nat) as [_ [_ [_ [_ Hit]]]].
    apply Hit. exact Hc.
Qed.

Lemma run_onnx_inference_time_frames_witness :
  (1 <= dim0 mono_spectrogram)%nat /\
  (0 < 2)%nat /\
  (1 <= dim2 mono_spectrogram)%nat /\
  (forall x,
     shape3 x = (4%nat, Nat.min 2048 (dim1 mono_spectrogram), 2%nat) ->
     exists out rest,
       echo_model [x] = out :: rest /\ shape3 out = (4%nat, 1%nat, 2%nat)) /\
  exists full_mask,
    run_onnx_inference (fun r => r) echo_model mono_spectrogram 2 = Ok full_mask /\
    shape3 full_mask = (2%nat, 1%nat, 3%nat).
Proof.
  assert (Hfix : forall x,
     shape3 x = (4%nat, Nat.min 2048 (dim1 mono_spectrogram), 2%nat) ->
     exists out rest,
       echo_model [x] = out :: rest /\ shape3 out = (4%nat, 1%nat, 2%nat)).
  { intros x Hx. exists x, []. split; [reflexivity | exact Hx]. }
  split; [simpl; lia|]. split; [lia|]. split; [simpl; lia|]. split; [exact Hfix|].
  destruct (run_onnx_inference_time_frames (fun r => r) echo_model mono_spectrogram
              2 1 ltac:(simpl; lia) ltac:(lia) ltac:(simpl; lia) Hfix)
    as [full_mask [Hrun [Hshape _]]].
  exists full_mask. split; [exact Hrun | exact Hshape].
Defined.

(** ** Applying a mask *)

Lemma broadcast_dim_same (d : nat) : broadcast_dim d d = Some d.
Proof. unfold broadcast_dim. rewrite Nat.eqb_refl. reflexivity. Qed.

Lemma broadcast_dim_Some (d e : nat) :
  compatible d e <-> exists r, broadcast_dim d e = Some r.
Proof.
  unfold compatible, broadcast_dim.
  destruct (Nat.eqb_spec d e); [split; eauto|].
  destruct (Nat.eqb_spec d 1); [split; eauto|].
  destruct (Nat.eqb_spec e 1); [split; eauto|].
  split.
  - intros [H|[H|H]]; contradiction.
  - intros [r H]. discriminate.
Qed.

Lemma broadcast_dim_None (d e : nat) :
  ~ compatible d e <-> broadcast_dim d e = None.
Proof.
  rewrite broadcast_dim_Some.
  destruct (broadcast_dim d e) as [r|]; split; intros H.
  - exfalso. apply H. eauto.
  - discriminate.
  - reflexivity.
  - intros [r Hr]. discriminate.
Qed.

Lemma bidx_in_range (d i : nat) : (i < d)%nat -> bidx d i = i.
Proof.
  intros Hi. unfold bidx. destruct (Nat.eqb_spec d 1); lia.
Qed.

(** C7, as the code has it.  [apply_mask] returns the elementwise complex
    product when the two shapes are equal.  It has no shape check of its own:
    it succeeds exactly when the shapes can be broadcast (on every axis the
    extents are equal or one of them is 1), reading an axis of extent 1 at
    index 0, and raises [ValueError] exactly when they cannot. *)
Theorem apply_mask_broadcast (spectrogram mask : ndarray3 C) :
  (shape3 spectrogram = shape3 mask ->
   exists r,
     apply_mask spectrogram mask = Ok r /\
     shape3 r = shape3 spectrogram /\
     forall i j k,
       (i < dim0 spectrogram)%nat -> (j < dim1 spectrogram)%nat ->
       (k < dim2 spectrogram)%nat ->
       item r i j k = Cmul (item spectrogram i j k) (item mask i j k)) /\
  (broadcastable spectrogram mask <->
   exists r,
     apply_mask spectrogram mask = Ok r /\
     forall i j k,
       item r i j k =
       Cmul (item spectrogram (bidx (dim0 spectrogram) i)
                              (bidx (dim1 spectrogram) j)
                              (bidx (dim2 spectrogram) k))
            (item mask (bidx (dim0 mask) i) (bidx (dim1 mask) j)
                       (bidx (dim2 mask) k))) /\
  (~ broadcastable spectrogram mask <->
   apply_mask spectrogram mask = Raise ValueError).
Proof.
  unfold apply_mask, np_multiply, broadcastable.
  split; [|split].
  - intros Hs. injection Hs as H0 H1 H2.
    rewrite <- H0, <- H1, <- H2, !broadcast_dim_same.
    eexists. split; [reflexivity|]. split; [reflexivity|].
    intros i j k Hi Hj Hk. cbn [item].
    rewrite !bidx_in_range by assumption. reflexivity.
  - rewrite !broadcast_dim_Some.
    destruct (broadcast_dim (dim0 spectrogram) (dim0 mask)) as [d0|];
      destruct (broadcast_dim (dim1 spectrogram) (dim1 mask)) as [d1|];
      destruct (broadcast_dim (dim2 spectrogram) (dim2 mask)) as [d2|];
      (split;
       [ intros [[r0 H0] [[r1 H1] [r2 H2]]];
         first [ congruence
               | eexists; split; [reflexivity | intros; reflexivity] ]
       | intros [r [Hr _]];
         first [ congruence | repeat split; eexists; reflexivity ] ]).
  - split.
    + intros Hn.
      destruct (broadcast_dim (dim0 spectrogram) (dim0 mask)) as [d0|] eqn:E0;
        [|reflexivity].
      destruct (broadcast_dim (dim1 spectrogram) (dim1 mask)) as [d1|] eqn:E1;
        [|reflexivity].
      destruct (broadcast_dim (dim2 spectrogram) (dim2 mask)) as [d2|] eqn:E2;
        [|reflexivity].
      exfalso. apply Hn. rewrite !broadcast_dim_Some.
      repeat split; eexists; eassumption.
    + intros Hr [H0 [H1 H2]].
      apply broadcast_dim_Some in H0, H1, H2.
      destruct H0 as [d0 E0], H1 as [d1 E1], H2 as [d2 E2].
      rewrite E0, E1, E2 in Hr. discriminate.
Qed.

(** The claim as written fails: a mask of two channels applied to a
    spectrogram of one channel has another shape and is accepted. *)
Lemma apply_mask_shape_mismatch_accepted :
  shape3 mono_spectrogram <> shape3 stereo_mask /\
  exists r, apply_mask mono_spectrogram stereo_mask = Ok r /\
            shape3 r = (2%nat, 1%nat, 3%nat).
Proof.
  split.
  - unfold shape3. simpl. intros H. injection H as H. discriminate.
  - eexists. split; reflexivity.
Qed.

(** ** The instrumental mask *)

Lemma Cmod_nonneg (z : C) : 0 <= Cmod z.
Proof. apply sqrt_pos. Qed.

Lemma Cmod_pos (z : C) : z <> C0 -> 0 < Cmod z.
Proof.
  intros Hz. unfold Cmod. apply sqrt_lt_R0.
  destruct z as [x y]. simpl.
  destruct (Req_dec x 0) as [Hx|Hx]; destruct (Req_dec y 0) as [Hy|Hy].
  - exfalso. apply Hz. subst. reflexivity.
  - subst. nra.
  - nra.
  - nra.
Qed.

(** sqrt(1 + (y/x)^2) in terms of the modulus. *)
Lemma sqrt_one_plus_ratio (x y : R) :
  x <> 0 -> sqrt (1 + (y / x)²) = Cmod (x, y) / Rabs x.
Proof.
  intros Hx. unfold Cmod. simpl.
  assert (Hax : 0 < Rabs x) by (apply Rabs_pos_lt; exact Hx).
  replace (x * x + y * y) with (Rsqr x * (1 + (y / x)²))
    by (unfold Rsqr; field; exact Hx).
  rewrite sqrt_mult_alt by apply Rle_0_sqr.
  rewrite sqrt_Rsqr_abs. field. lra.
Qed.

(** [np.exp(1j * np.angle(m))] is the unit complex number m / |m|. *)
Lemma cis_angle (m : C) :
  m <> C0 -> cis (angle m) = Cscale (/ Cmod m) m.
Proof.
  intros Hm. pose proof (Cmod_pos m Hm) as Hr.
  destruct m as [x y]. unfold angle, atan2, cis, Cscale. cbn [fst snd].
  destruct (Rlt_dec 0 x) as [Hx|Hx].
  - rewrite cos_atan, sin_atan, sqrt_one_plus_ratio by lra.
    rewrite Rabs_pos_eq by lra. f_equal; field; lra.
  - destruct (Rlt_dec x 0) as [Hx'|Hx'].
    + assert (Hab : Rabs x = - x) by (apply Rabs_left; exact Hx').
      destruct (Rle_dec 0 y) as [Hy|Hy].
      * rewrite neg_cos, neg_sin, cos_atan, sin_atan, sqrt_one_plus_ratio by lra.
        rewrite Hab. f_equal; field; lra.
      * replace (atan (y / x) - PI) with (- (PI - atan (y / x))) by ring.
        rewrite cos_neg, sin_neg.
        replace (PI - atan (y / x)) with (- atan (y / x) + PI) by ring.
        rewrite neg_cos, neg_sin, cos_neg, sin_neg.
        rewrite cos_atan, sin_atan, sqrt_one_plus_ratio by lra.
        rewrite Hab. f_equal; field; lra.
    + assert (x = 0) by lra. subst x.
      assert (Hy0 : y <> 0).
      { intros ->. apply Hm. reflexivity. }
      assert (Hmod : Cmod (0, y) = Rabs y).
      { unfold Cmod. simpl. replace (0 * 0 + y * y) with (Rsqr y)
          by (unfold Rsqr; ring). apply sqrt_Rsqr_abs. }
      rewrite Hmod in *.
      destruct (Rlt_dec 0 y) as [Hy|Hy].
      * rewrite cos_PI2, sin_PI2, Rabs_pos_eq by lra. f_equal; field; lra.
      * destruct (Rlt_dec y 0) as [Hy'|Hy']; [|lra].
        rewrite cos_neg, sin_neg, cos_PI2, sin_PI2, Rabs_left by lra.
        f_equal; field; lra.
Qed.

Lemma complement_mod (m : C) : Cmod (complement m) = Rabs (1 - Cmod m).
Proof.
  unfold complement. rewrite Cmod_scale, Cmod_cis. ring.
Qed.

(** C6.  The instrumental mask is, element by element,
    (1 - |m|) * exp(i * arg m): the unit phase factor of m (m / |m| for a
    non-zero m) scaled by the real number 1 - |m|.  Its magnitude is
    |1 - |m|| with no clamping: it is |m| - 1 when |m| > 1, and exceeds 1
    as soon as |m| > 2, as for m = 3. *)
Theorem complement_mask (vocal_mask : ndarray3 C) (i j k : nat) :
  let m := item vocal_mask i j k in
  shape3 (instrumental_mask vocal_mask) = shape3 vocal_mask /\
  item (instrumental_mask vocal_mask) i j k =
    Cscale (1 - Cmod m) (cis (angle m)) /\
  (m <> C0 ->
   item (instrumental_mask vocal_mask) i j k =
     Cscale ((1 - Cmod m) / Cmod m) m) /\
  Cmod (item (instrumental_mask vocal_mask) i j k) = Rabs (1 - Cmod m) /\
  (1 < Cmod m ->
   Cmod (item (instrumental_mask vocal_mask) i j k) = Cmod m - 1) /\
  (2 < Cmod m -> 1 < Cmod (item (instrumental_mask vocal_mask) i j k)) /\
  (Cmod (3, 0) = 3 /\ complement (3, 0) = (-2, 0) /\
   Cmod (complement (3, 0)) = 2).
Proof.
  cbv zeta. unfold instrumental_mask, map3, shape3. cbn [dim0 dim1 dim2 item].
  set (m := item vocal_mask i j k).
  assert (H3 : Cmod (3, 0) = 3).
  { unfold Cmod. simpl. replace (3 * 3 + 0 * 0) with (Rsqr 3)
      by (unfold Rsqr; ring). apply sqrt_Rsqr. lra. }
  assert (Hc3 : complement (3, 0) = (-2, 0)).
  { unfold complement. rewrite H3.
    unfold angle, atan2. cbn [fst snd].
    destruct (Rlt_dec 0 3) as [_|Hn]; [|lra].
    replace (0 / 3) with 0 by field. rewrite atan_0, cis_0.
    unfold Cscale. simpl. f_equal; ring. }
  split; [reflexivity|]. split; [reflexivity|].
  split; [|split; [|split; [|split]]].
  - intros Hm. unfold complement. rewrite cis_angle by exact Hm.
    pose proof (Cmod_pos m Hm).
    unfold Cscale. simpl. f_equal; field; lra.
  - apply complement_mod.
  - intros Hgt. rewrite complement_mod, Rabs_left by lra. ring.
  - intros Hgt. rewrite complement_mod, Rabs_left by lra. lra.
  - split; [exact H3|]. split; [exact Hc3|].
    rewrite complement_mod, H3, Rabs_left by lra. ring.
Qed.

(** ** Overlap-add in [manual_stft_istft] *)

Lemma hanning_length (M : nat) : length (hanning M) = M.
Proof.
  destruct M as [|[|M]]; try reflexivity.
  unfold hanning. rewrite length_map, length_seq. reflexivity.
Qed.

(** The forward loop never raises on full frames. *)
Lemma stft_forward_pure (signal window : list R) (n_fft hop_length : nat) :
  (0 < n_fft)%nat -> (0 < hop_length)%nat -> length window = n_fft ->
  exists fs,
    frames signal n_fft hop_length = Ok fs /\
    Forall (fun frame => length frame = n_fft) fs /\
    stft_forward signal window n_fft hop_length =
    Ok (map (fun frame => dft (map RtoC (map2 Rmult frame window))) fs).
Proof.
  intros Hn Hh Hw.
  destruct (frames_Ok signal n_fft hop_length Hh) as [fs [Hfs [_ Hall]]].
  exists fs. split; [exact Hfs|]. split; [exact Hall|].
  unfold stft_forward. rewrite Hfs. cbn [bind].
  apply mapM_Ok_map. intros frame Hin.
  rewrite Forall_forall in Hall. specialize (Hall frame Hin).
  rewrite np_mul1_same_length by congruence. cbn [bind].
  apply np_fft_nonempty. apply nonempty_length.
  rewrite length_map, map2_length. lia.
Qed.

(** Nor does the inverse loop: each spectrum gives back its windowed frame. *)
Lemma istft_loop_pure (window : list R) (hop_length : nat) (ys : list (list R)) :
  window <> [] ->
  Forall (fun y => length y = length window) ys ->
  forall frame_idx0 acc,
    istft_loop window hop_length frame_idx0
      (map (fun y => dft (map RtoC y)) ys) acc =
    Ok (accumulate window hop_length frame_idx0 ys acc).
Proof.
  intros Hw Hall. induction Hall as [|y ys Hy Hall IH]; intros k acc.
  - reflexivity.
  - cbn [map istft_loop accumulate]. unfold istft_step.
    apply nonempty_length in Hw.
    rewrite np_ifft_nonempty
      by (apply nonempty_length; rewrite dft_length, length_map; lia).
    cbn [bind]. rewrite idft_dft, map_Cre_RtoC.
    rewrite np_mul1_same_length by exact Hy. cbn [bind].
    apply IH.
Qed.

(** The run of the script, without the transforms: five frames of ones,
    windowed twice and added at offsets 0, 2, 4, 6, 8. *)
Lemma script_accumulators_pure :
  script_accumulators =
  Ok (accumulate (hanning 8) 2 0
        (repeat (map2 Rmult (repeat 1 8) (hanning 8)) 5)
        (repeat 0 16, repeat 0 16)).
Proof.
  unfold script_accumulators.
  destruct (stft_forward_pure script_signal (hanning 8) 8 2)
    as [fs [Hfs [Hall Hfwd]]]; try lia; [apply hanning_length|].
  assert (Efs : fs = repeat (repeat 1 8) 5).
  { assert (E : frames script_signal 8 2 = Ok (repeat (repeat 1 8) 5)) by reflexivity.
    congruence. }
  subst fs. rewrite Hfwd. cbn [bind].
  unfold overlap_add.
  assert (Ez : np_zeros ((num_frames 16 8 2 - 1) * Z.of_nat 2 + Z.of_nat 8) =
               Ok (repeat 0 16)) by reflexivity.
  rewrite Ez. cbn [bind].
  change (map (fun frame => dft (map RtoC (map2 Rmult frame (hanning 8))))
              (repeat (repeat 1 8) 5))
    with (map (fun y => dft (map RtoC y))
              (repeat (map2 Rmult (repeat 1 8) (hanning 8)) 5)).
  apply istft_loop_pure.
  - apply nonempty_length. rewrite hanning_length. lia.
  - apply Forall_forall. intros y Hy. apply repeat_spec in Hy. subst y.
    rewrite map2_length, repeat_length, hanning_length. reflexivity.
Qed.

Lemma script_reconstructed_pure :
  script_reconstructed =
  Ok (let acc := accumulate (hanning 8) 2 0
                   (repeat (map2 Rmult (repeat 1 8) (hanning 8)) 5)
                   (repeat 0 16, repeat 0 16) in
      normalize (fst acc) (snd acc)).
Proof.
  pose proof script_accumulators_pure as H.
  unfold script_accumulators in H.
  unfold script_reconstructed, manual_stft_istft.
  change (length script_signal) with 16%nat.
  destruct (stft_forward script_signal (hanning 8) 8 2) as [X|e]; cbn [bind] in *.
  - rewrite H. reflexivity.
  - discriminate.
Qed.

Lemma hanning_8 : hanning 8 = [w8 0; w8 1; w8 2; w8 3; w8 4; w8 5; w8 6; w8 7].
Proof. reflexivity. Qed.

Lemma w8_eq (k : nat) :
  (k < 8)%nat -> w8 k = 0.5 - 0.5 * cos (2 * PI * INR k / 7).
Proof.
  intros Hk. unfold w8, hanning.
  rewrite (nth_map_seq (fun n => 0.5 - 0.5 * cos (2 * PI * INR n / INR (8 - 1))))
    by exact Hk.
  do 4 f_equal. simpl. lra.
Qed.

Lemma w8_range (k : nat) : (k < 8)%nat -> 0 <= w8 k <= 1.
Proof.
  intros Hk. rewrite w8_eq by exact Hk.
  pose proof (COS_bound (2 * PI * INR k / 7)). lra.
Qed.

Lemma w8_0 : w8 0 = 0.
Proof.
  rewrite w8_eq by lia. simpl INR.
  replace (2 * PI * 0 / 7) with 0 by field. rewrite cos_0. lra.
Qed.

Lemma w8_7 : w8 7 = 0.
Proof.
  rewrite w8_eq by lia.
  replace (2 * PI * INR 7 / 7) with (2 * PI) by (simpl; field).
  rewrite cos_2PI. lra.
Qed.

Lemma w8_1 : 0 < w8 1 < 1 / 2.
Proof.
  rewrite w8_eq by lia. simpl INR.
  pose proof PI_RGT_0 as Hpi.
  assert (0 < cos (2 * PI * 1 / 7)) by (apply cos_gt_0; lra).
  assert (cos (2 * PI * 1 / 7) <> 1) by (apply cos_neq_1; lra).
  pose proof (COS_bound (2 * PI * 1 / 7)). lra.
Qed.

Lemma w8_2 : 1 / 2 <= w8 2 <= 3 / 4.
Proof.
  rewrite w8_eq by lia.
  replace (2 * PI * INR 2 / 7) with (4 * PI / 7) by (simpl; field).
  pose proof PI_RGT_0 as Hpi.
  assert (H1 : cos (4 * PI / 7) <= cos (PI / 2)) by (apply cos_decr_1; lra).
  assert (H2 : cos (2 * (PI / 3)) <= cos (4 * PI / 7)) by (apply cos_decr_1; lra).
  rewrite cos_PI2 in H1. rewrite cos_2PI3 in H2. lra.
Qed.

Lemma w8_5 : w8 5 = w8 2.
Proof.
  rewrite !w8_eq by lia. do 2 f_equal.
  replace (2 * PI * INR 5 / 7) with (- (2 * PI * INR 2 / 7) + 2 * INR 1 * PI)
    by (simpl; field).
  rewrite cos_period. apply cos_neg.
Qed.

(** The accumulators of the run, coefficient by coefficient. *)
Lemma accumulate_script (w0 w1 w2 w3 w4 w5 w6 w7 : R) :
  accumulate [w0; w1; w2; w3; w4; w5; w6; w7] 2 0
    (repeat (map2 Rmult (repeat 1 8) [w0; w1; w2; w3; w4; w5; w6; w7]) 5)
    (repeat 0 16, repeat 0 16) =
  ([0 + 1 * w0 * w0; 0 + 1 * w1 * w1; 0 + 1 * w2 * w2 + 1 * w0 * w0;
    0 + 1 * w3 * w3 + 1 * w1 * w1;
    0 + 1 * w4 * w4 + 1 * w2 * w2 + 1 * w0 * w0;
    0 + 1 * w5 * w5 + 1 * w3 * w3 + 1 * w1 * w1;
    0 + 1 * w6 * w6 + 1 * w4 * w4 + 1 * w2 * w2 + 1 * w0 * w0;
    0 + 1 * w7 * w7 + 1 * w5 * w5 + 1 * w3 * w3 + 1 * w1 * w1;
    0 + 1 * w6 * w6 + 1 * w4 * w4 + 1 * w2 * w2 + 1 * w0 * w0;
    0 + 1 * w7 * w7 + 1 * w5 * w5 + 1 * w3 * w3 + 1 * w1 * w1;
    0 + 1 * w6 * w6 + 1 * w4 * w4 + 1 * w2 * w2;
    0 + 1 * w7 * w7 + 1 * w5 * w5 + 1 * w3 * w3;
    0 + 1 * w6 * w6 + 1 * w4 * w4; 0 + 1 * w7 * w7 + 1 * w5 * w5;
    0 + 1 * w6 * w6; 0 + 1 * w7 * w7],
   [0 + w0; 0 + w1; 0 + w2 + w0; 0 + w3 + w1; 0 + w4 + w2 + w0;
    0 + w5 + w3 + w1; 0 + w6 + w4 + w2 + w0; 0 + w7 + w5 + w3 + w1;
    0 + w6 + w4 + w2 + w0; 0 + w7 + w5 + w3 + w1;
    0 + w6 + w4 + w2; 0 + w7 + w5 + w3; 0 + w6 + w4;
    0 + w7 + w5; 0 + w6; 0 + w7]).
Proof. reflexivity. Qed.

(** C1, the run of the script.  The normalization accumulator of
    [manual_stft_istft] receives the window itself at each frame offset, not
    the squared window: on the script's input it holds the sums of window
    coefficients below, and at index 1 it holds [np.hanning(8)[1]], which
    differs from its square, the window energy there. *)
Theorem window_sum_not_window_energy :
  exists output window_sum,
    script_accumulators = Ok (output, window_sum) /\
    window_sum =
      [0 + w8 0; 0 + w8 1; 0 + w8 2 + w8 0; 0 + w8 3 + w8 1;
       0 + w8 4 + w8 2 + w8 0; 0 + w8 5 + w8 3 + w8 1;
       0 + w8 6 + w8 4 + w8 2 + w8 0; 0 + w8 7 + w8 5 + w8 3 + w8 1;
       0 + w8 6 + w8 4 + w8 2 + w8 0; 0 + w8 7 + w8 5 + w8 3 + w8 1;
       0 + w8 6 + w8 4 + w8 2; 0 + w8 7 + w8 5 + w8 3; 0 + w8 6 + w8 4;
       0 + w8 7 + w8 5; 0 + w8 6; 0 + w8 7] /\
    nth 1 window_sum 0 = 0 + w8 1 /\
    nth 1 window_sum 0 <> w8 1 * w8 1.
Proof.
  rewrite script_accumulators_pure, hanning_8, accumulate_script.
  eexists. eexists. split; [reflexivity|]. split; [reflexivity|].
  split; [reflexivity|].
  cbn [nth]. pose proof w8_1. nra.
Qed.

(** A quotient by the guarded accumulator stays below 61/64 when the
    numerator misses the accumulator by 3/16. *)
Lemma guarded_ratio_bound (out ws : R) :
  1 / 2 <= ws <= 4 -> 0 <= out <= ws - 3 / 16 ->
  0 <= out / (if Rlt_dec (1 / 100000000) ws then ws else 1) <= 61 / 64.
Proof.
  intros Hws Hout.
  destruct (Rlt_dec (1 / 100000000) ws) as [_|Hn]; [|lra].
  assert (Hpos : 0 < ws) by lra.
  split.
  - apply Rmult_le_reg_r with ws; [exact Hpos|].
    unfold Rdiv. rewrite Rmult_assoc, Rinv_l by lra. lra.
  - apply Rmult_le_reg_r with ws; [exact Hpos|].
    unfold Rdiv at 1. rewrite Rmult_assoc, Rinv_l by lra. lra.
Qed.

(** The quotients of the run at the indices 4 .. 11, for window coefficients
    in [0, 1] of which the third lies in [1/2, 3/4] and equals the sixth. *)
Lemma script_ratio_bound (w0 w1 w2 w3 w4 w5 w6 w7 : R) (p : nat) :
  0 <= w0 <= 1 -> 0 <= w1 <= 1 -> 1 / 2 <= w2 <= 3 / 4 -> 0 <= w3 <= 1 ->
  0 <= w4 <= 1 -> w5 = w2 -> 0 <= w6 <= 1 -> 0 <= w7 <= 1 ->
  (4 <= p <= 11)%nat ->
  let acc := accumulate [w0; w1; w2; w3; w4; w5; w6; w7] 2 0
               (repeat (map2 Rmult (repeat 1 8) [w0; w1; w2; w3; w4; w5; w6; w7]) 5)
               (repeat 0 16, repeat 0 16) in
  0 <= nth p (normalize (fst acc) (snd acc)) 0 <= 61 / 64.
Proof.
  intros R0 R1 R2 R3 R4 E5 R6 R7 Hp. subst w5. cbv zeta.
  rewrite accumulate_script.
  assert (S0 : 0 <= w0 * w0 <= w0) by nra.
  assert (S1 : 0 <= w1 * w1 <= w1) by nra.
  assert (S2 : 0 <= w2 * w2 <= w2 - 3 / 16) by nra.
  assert (S3 : 0 <= w3 * w3 <= w3) by nra.
  assert (S4 : 0 <= w4 * w4 <= w4) by nra.
  assert (S6 : 0 <= w6 * w6 <= w6) by nra.
  assert (S7 : 0 <= w7 * w7 <= w7) by nra.
  assert (Hcases : (p = 4 \/ p = 5 \/ p = 6 \/ p = 7 \/
                    p = 8 \/ p = 9 \/ p = 10 \/ p = 11)%nat) by lia.
  unfold normalize, guard_window_sum.
  cbn [fst snd map map2].
  destruct Hcases as [-> | [-> | [-> | [-> | [-> | [-> | [-> | ->]]]]]]];
    cbn [nth]; apply guarded_ratio_bound; lra.
Qed.

(** C2, the run of the script.  On 16 ones with [n_fft = 8] and
    [hop_length = 2], [manual_stft_istft] reconstructs at every index
    4 .. 11 a value of at most 61/64, more than 1e-5 away from 1: each frame
    is windowed twice and the sum is divided by the sum of the window. *)
Theorem script_interior_below_unity :
  exists reconstructed,
    script_reconstructed = Ok reconstructed /\
    length reconstructed = 16%nat /\
    forall p, (4 <= p <= 11)%nat ->
      0 <= nth p reconstructed 0 <= 61 / 64 /\
      1 / 100000 < Rabs (nth p reconstructed 0 - 1).
Proof.
  rewrite script_reconstructed_pure, hanning_8.
  eexists. split; [reflexivity|]. split; [reflexivity|].
  intros p Hp.
  pose proof (script_ratio_bound (w8 0) (w8 1) (w8 2) (w8 3) (w8 4) (w8 5)
                (w8 6) (w8 7) p) as Hb.
  cbv zeta in Hb.
  specialize (Hb (w8_range 0 ltac:(lia)) (w8_range 1 ltac:(lia)) w8_2
                 (w8_range 3 ltac:(lia)) (w8_range 4 ltac:(lia)) w8_5
                 (w8_range 6 ltac:(lia)) (w8_range 7 ltac:(lia)) Hp).
  split; [exact Hb|].
  rewrite Rabs_left by lra. lra.
Qed.

(** With the squared window in the accumulator, as section 4.2 of the
    specification has it, the same run gives exactly 1 at the indices
    4 .. 11. *)
Lemma energy_normalization_reconstructs (p : nat) :
  (4 <= p <= 11)%nat ->
  let acc := accumulate_energy (hanning 8) 2 0
               (repeat (map2 Rmult (repeat 1 8) (hanning 8)) 5)
               (repeat 0 16, repeat 0 16) in
  nth p (normalize (fst acc) (snd acc)) 0 = 1.
Proof.
  intros Hp. cbv zeta. rewrite hanning_8.
  pose proof w8_2 as R2. pose proof w8_5 as E5.
  pose proof (Rle_0_sqr (w8 0)) as Q0. pose proof (Rle_0_sqr (w8 1)) as Q1.
  pose proof (Rle_0_sqr (w8 3)) as Q3. pose proof (Rle_0_sqr (w8 4)) as Q4.
  pose proof (Rle_0_sqr (w8 6)) as Q6. pose proof (Rle_0_sqr (w8 7)) as Q7.
  unfold Rsqr in *.
  assert (Q2 : 1 / 4 <= w8 2 * w8 2) by nra.
  rewrite E5.
  assert (Hcases : (p = 4 \/ p = 5 \/ p = 6 \/ p = 7 \/
                    p = 8 \/ p = 9 \/ p = 10 \/ p = 11)%nat) by lia.
  unfold normalize, guard_window_sum.
  cbn [accumulate_energy repeat map2 add_at Nat.mul Nat.add fst snd length
       skipn app map].
  destruct Hcases as [-> | [-> | [-> | [-> | [-> | [-> | [-> | ->]]]]]]];
    cbn [nth];
    match goal with
    | |- context [Rlt_dec ?a ?b] => destruct (Rlt_dec a b) as [_|Hn]; [|lra]
    end;
    field; lra.
Qed.

(** ** Numerical bounds *)

Lemma PI_bounds : 3.14 < PI < 3.15.
Proof.
  pose proof (PI_2_3_7_ineq 1) as [Hlo Hhi].
  unfold sum_f_R0, tg_alt, PI_2_3_7_tg, Ratan_seq in Hlo, Hhi.
  simpl in Hlo, Hhi.
  split; lra.
Qed.

Lemma cos_lower (x : R) : -2 <= x <= 2 -> 1 - x * x / 2 <= cos x.
Proof.
  intros Hx. destruct (pre_cos_bound x 0) as [H _]; try lra.
  unfold cos_approx, cos_term in H. simpl in H. lra.
Qed.

Lemma cos_upper (x : R) :
  -2 <= x <= 2 -> cos x <= 1 - x * x / 2 + x * x * x * x / 24.
Proof.
  intros Hx. destruct (pre_cos_bound x 0) as [_ H]; try lra.
  unfold cos_approx, cos_term in H. simpl in H. lra.
Qed.

(** cos is at least cos T on [-T, T], for T up to pi. *)
Lemma cos_ge_on_interval (t T : R) :
  - T <= t <= T -> T <= PI -> cos T <= cos t.
Proof.
  intros Ht HT.
  destruct (Rle_dec 0 t) as [Hp|Hn].
  - apply cos_decr_1; lra.
  - rewrite <- (cos_neg t). apply cos_decr_1; lra.
Qed.

(** 2 - 2 cos x is at least a^2 - a^4/12 for a <= x <= pi. *)
Lemma one_minus_cos_lower (a x : R) :
  0 <= a <= 2 -> a <= x <= PI ->
  a * a - a * a * a * a / 12 <= 2 - 2 * cos x.
Proof.
  intros Ha Hx.
  assert (cos x <= cos a) by (apply cos_decr_1; lra).
  pose proof (cos_upper a ltac:(lra)). lra.
Qed.

(** ** Geometric sums, squared moduli *)

Lemma Cnormsq_nonneg (z : C) : 0 <= Cnormsq z.
Proof. unfold Cnormsq. nra. Qed.

Lemma Cmod_sqrt (z : C) : Cmod z = sqrt (Cnormsq z).
Proof. reflexivity. Qed.

Lemma geo_normsq (N : nat) (a : R) :
  Cnormsq (geo N a) * (2 - 2 * cos a) = 2 - 2 * cos (INR N * a).
Proof.
  destruct (geometric_cis a N) as [H1 H2]. cbv zeta in *.
  fold (geo N a) in H1, H2. unfold Cnormsq.
  set (F := fst (geo N a)) in *. set (S := snd (geo N a)) in *.
  pose proof (sin2_cos2 a) as Ha. pose proof (sin2_cos2 (INR N * a)) as Hn.
  unfold Rsqr in *.
  replace ((F * F + S * S) * (2 - 2 * cos a))
    with (((1 - cos a) * F + sin a * S) * ((1 - cos a) * F + sin a * S)
          + ((1 - cos a) * S - sin a * F) * ((1 - cos a) * S - sin a * F)
          + (1 - (sin a * sin a + cos a * cos a)) * (F * F + S * S)) by ring.
  rewrite H1, H2, Ha. nra.
Qed.

Lemma geo_bound (N : nat) (a d : R) :
  0 < d -> d <= 2 - 2 * cos a -> Cnormsq (geo N a) <= 4 / d.
Proof.
  intros Hd Hda.
  pose proof (geo_normsq N a) as E.
  pose proof (COS_bound (INR N * a)) as [Hlo _].
  pose proof (Cnormsq_nonneg (geo N a)) as Hq.
  apply Rmult_le_reg_r with d; [exact Hd|].
  unfold Rdiv. rewrite Rmult_assoc, Rinv_l by lra. nra.
Qed.

Lemma Csum_add (f g : nat -> C) (n : nat) :
  Csum (fun i => Cadd (f i) (g i)) n = Cadd (Csum f n) (Csum g n).
Proof.
  unfold Csum, Cadd. cbn [fst snd]. f_equal; apply Rsum_plus.
Qed.

Lemma Csum_scale (c : R) (f : nat -> C) (n : nat) :
  Csum (fun i => Cscale c (f i)) n = Cscale c (Csum f n).
Proof.
  unfold Csum, Cscale. cbn [fst snd]. f_equal; apply Rsum_scal.
Qed.

Lemma Csum_hann_mix (f g h : nat -> C) (n : nat) :
  Csum (fun i => hann_mix (f i) (g i) (h i)) n =
  hann_mix (Csum f n) (Csum g n) (Csum h n).
Proof.
  unfold hann_mix. rewrite !Csum_add, !Csum_scale. reflexivity.
Qed.

(** A windowed exponential is a mix of three exponentials. *)
Lemma hann_term (N n : nat) (a : R) :
  Cscale (hw N n) (cis (INR n * a)) =
  hann_mix (cis (INR n * a))
           (cis (INR n * (a + 2 * PI / INR N)))
           (cis (INR n * (a - 2 * PI / INR N))).
Proof.
  unfold hw, hann_mix, Cscale, Cadd, cis. cbn [fst snd].
  replace (INR n * (a + 2 * PI / INR N))
    with (INR n * a + 2 * PI * INR n / INR N) by (unfold Rdiv; ring).
  replace (INR n * (a - 2 * PI / INR N))
    with (INR n * a - 2 * PI * INR n / INR N) by (unfold Rdiv; ring).
  rewrite cos_plus, cos_minus, sin_plus, sin_minus.
  f_equal; lra.
Qed.

Lemma hann_sum_expand (N : nat) (a : R) :
  hann_sum N a =
  hann_mix (geo N a) (geo N (a + 2 * PI / INR N)) (geo N (a - 2 * PI / INR N)).
Proof.
  unfold hann_sum, geo. rewrite <- Csum_hann_mix.
  apply Csum_ext. intros n _. apply hann_term.
Qed.

Lemma hann_sq_sum_expand (N : nat) (a : R) :
  hann_sq_sum N a =
  hann_mix (hann_sum N a) (hann_sum N (a + 2 * PI / INR N))
           (hann_sum N (a - 2 * PI / INR N)).
Proof.
  unfold hann_sq_sum, hann_sum. rewrite <- Csum_hann_mix.
  apply Csum_ext. intros n _.
  assert (E : Cscale (hw N n * hw N n) (cis (INR n * a)) =
              Cscale (hw N n) (Cscale (hw N n) (cis (INR n * a))))
    by (unfold Cscale; cbn [fst snd]; f_equal; ring).
  rewrite E. rewrite (hann_term N n a) at 1.
  unfold hann_mix, Cscale, Cadd. cbn [fst snd]. f_equal; ring.
Qed.

Lemma hann_mix_normsq (x y z : C) (B : R) :
  Cnormsq x <= B -> Cnormsq y <= B -> Cnormsq z <= B ->
  Cnormsq (hann_mix x y z) <= 9 / 8 * B.
Proof.
  unfold Cnormsq, hann_mix, Cadd, Cscale. cbn [fst snd].
  destruct x as [x1 x2], y as [y1 y2], z as [z1 z2]. cbn [fst snd].
  intros Hx Hy Hz.
  assert (forall p q r : R,
            (1 / 2 * p + (-1 / 4 * q + -1 / 4 * r)) *
            (1 / 2 * p + (-1 / 4 * q + -1 / 4 * r))
            <= 3 / 4 * (p * p) + 3 / 16 * (q * q) + 3 / 16 * (r * r)) as Hcs.
  { intros p q r.
    pose proof (Rle_0_sqr (2 * p + q)). pose proof (Rle_0_sqr (2 * p + r)).
    pose proof (Rle_0_sqr (q - r)). unfold Rsqr in *. nra. }
  pose proof (Hcs x1 y1 z1). pose proof (Hcs x2 y2 z2). lra.
Qed.

(** Away from its main lobe the transform of the window is small. *)
Lemma hann_sum_far (N : nat) (a d : R) :
  0 < d ->
  d <= 2 - 2 * cos a ->
  d <= 2 - 2 * cos (a + 2 * PI / INR N) ->
  d <= 2 - 2 * cos (a - 2 * PI / INR N) ->
  Cnormsq (hann_sum N a) <= 9 / 2 / d.
Proof.
  intros Hd H0 H1 H2. rewrite hann_sum_expand.
  replace (9 / 2 / d) with (9 / 8 * (4 / d)) by (field; lra).
  apply hann_mix_normsq; apply geo_bound; assumption.
Qed.

Lemma hann_sq_sum_far (N : nat) (a d : R) :
  0 < d ->
  d <= 2 - 2 * cos a ->
  d <= 2 - 2 * cos (a + 2 * PI / INR N) ->
  d <= 2 - 2 * cos (a - 2 * PI / INR N) ->
  d <= 2 - 2 * cos (a + 2 * PI / INR N + 2 * PI / INR N) ->
  d <= 2 - 2 * cos (a - 2 * PI / INR N - 2 * PI / INR N) ->
  Cnormsq (hann_sq_sum N a) <= 81 / 16 / d.
Proof.
  intros Hd H0 H1 H2 H3 H4. rewrite hann_sq_sum_expand.
  replace (81 / 16 / d) with (9 / 8 * (9 / 2 / d)) by (field; lra).
  apply hann_mix_normsq; apply hann_sum_far; try assumption.
  - replace (a + 2 * PI / INR N - 2 * PI / INR N) with a by ring. exact H0.
  - replace (a - 2 * PI / INR N + 2 * PI / INR N) with a by ring. exact H0.
Qed.

(** *** The window at the frequencies 0 and +-1 bin *)

Lemma geo_0 (N : nat) : geo N 0 = (INR N, 0).
Proof.
  unfold geo. rewrite (Csum_ext _ (fun _ => (1, 0))).
  - unfold Csum. cbn [fst snd]. rewrite Rsum_const, Rsum_zero. f_equal; ring.
  - intros n _. rewrite Rmult_0_r. apply cis_0.
Qed.

Lemma geo_root (N j n : nat) :
  (j < N)%nat -> (n < N)%nat -> j <> n ->
  geo N (2 * PI * (INR j - INR n) / INR N) = C0.
Proof.
  intros Hj Hn Hne.
  pose proof (roots_of_unity_sum N j n Hj Hn) as H.
  destruct (Nat.eqb_spec n j) as [E|_]; [congruence|].
  rewrite <- H. unfold geo. apply Csum_ext. intros k _.
  f_equal. unfold tw.
  assert (0 < INR N) by (apply lt_0_INR; lia).
  field. lra.
Qed.

Lemma geo_bins (N : nat) :
  (2 < N)%nat ->
  geo N (2 * PI / INR N) = C0 /\
  geo N (- (2 * PI / INR N)) = C0 /\
  geo N (2 * PI / INR N + 2 * PI / INR N) = C0 /\
  geo N (- (2 * PI / INR N) - 2 * PI / INR N) = C0.
Proof.
  intros HN.
  assert (0 < INR N) by (apply lt_0_INR; lia).
  repeat split.
  - rewrite <- (geo_root N 1 0) by lia. f_equal. simpl. field. lra.
  - rewrite <- (geo_root N 0 1) by lia. f_equal. simpl. field. lra.
  - rewrite <- (geo_root N 2 0) by lia. f_equal. simpl. field. lra.
  - rewrite <- (geo_root N 0 2) by lia. f_equal. simpl. field. lra.
Qed.

Lemma hann_sum_bins (N : nat) :
  (2 < N)%nat ->
  hann_sum N 0 = (INR N / 2, 0) /\
  hann_sum N (2 * PI / INR N) = (- INR N / 4, 0) /\
  hann_sum N (- (2 * PI / INR N)) = (- INR N / 4, 0).
Proof.
  intros HN. destruct (geo_bins N HN) as [G1 [G2 [G3 G4]]].
  repeat split; rewrite hann_sum_expand.
  - replace (0 + 2 * PI / INR N) with (2 * PI / INR N) by ring.
    replace (0 - 2 * PI / INR N) with (- (2 * PI / INR N)) by ring.
    rewrite geo_0, G1, G2. unfold hann_mix, Cadd, Cscale, C0. cbn [fst snd].
    f_equal; field.
  - replace (2 * PI / INR N - 2 * PI / INR N) with 0 by ring.
    rewrite geo_0, G1, G3. unfold hann_mix, Cadd, Cscale, C0. cbn [fst snd].
    f_equal; field.
  - replace (- (2 * PI / INR N) + 2 * PI / INR N) with 0 by ring.
    rewrite geo_0, G2, G4. unfold hann_mix, Cadd, Cscale, C0. cbn [fst snd].
    f_equal; field.
Qed.

(** The window sums to N/2 and its square to 3N/8. *)
Lemma hann_window_sums (N : nat) :
  (2 < N)%nat ->
  Rsum (hw N) N = INR N / 2 /\
  Rsum (fun n => hw N n * hw N n) N = 3 * INR N / 8.
Proof.
  intros HN. destruct (hann_sum_bins N HN) as [H0 [H1 H2]].
  split.
  - apply (f_equal fst) in H0. cbn [fst] in H0. rewrite <- H0.
    unfold hann_sum, Csum. cbn [fst]. apply Rsum_ext. intros n _.
    rewrite Rmult_0_r. unfold Cscale, cis. cbn [fst]. rewrite cos_0. ring.
  - pose proof (hann_sq_sum_expand N 0) as E.
    replace (0 + 2 * PI / INR N) with (2 * PI / INR N) in E by ring.
    replace (0 - 2 * PI / INR N) with (- (2 * PI / INR N)) in E by ring.
    rewrite H0, H1, H2 in E.
    apply (f_equal fst) in E.
    unfold hann_mix, Cadd, Cscale in E. cbn [fst snd] in E.
    replace (3 * INR N / 8)
      with (1 / 2 * (INR N / 2) + (-1 / 4 * (- INR N / 4) + -1 / 4 * (- INR N / 4)))
      by field.
    rewrite <- E.
    unfold hann_sq_sum, Csum. cbn [fst]. apply Rsum_ext. intros n _.
    rewrite Rmult_0_r. unfold Cscale, cis. cbn [fst]. rewrite cos_0. ring.
Qed.

Lemma hw_range (N n : nat) : 0 <= hw N n <= 1.
Proof.
  unfold hw. pose proof (COS_bound (2 * PI * INR n / INR N)). lra.
Qed.

(** ** The spectrum of a windowed sine *)

(** Each bin is half the sum of the window transform at the difference and
    at the sum of the two frequencies, up to a quarter turn. *)
Lemma sine_bin_split (N : nat) (theta : R) (k : nat) :
  let bin := 2 * PI * INR k / INR N in
  fst (sine_bin N theta k) =
    1 / 2 * (snd (hann_sum N (theta + bin)) + snd (hann_sum N (theta - bin))) /\
  snd (sine_bin N theta k) =
    1 / 2 * (fst (hann_sum N (theta + bin)) - fst (hann_sum N (theta - bin))).
Proof.
  cbv zeta. unfold sine_bin, hann_sum, Csum. cbn [fst snd].
  split.
  - rewrite <- Rsum_plus, <- Rsum_scal. apply Rsum_ext. intros n _.
    unfold Cmul, RtoC, Cscale, cis. cbn [fst snd].
    replace (INR n * (theta + 2 * PI * INR k / INR N))
      with (INR n * theta + tw N k n) by (unfold tw, Rdiv; ring).
    replace (INR n * (theta - 2 * PI * INR k / INR N))
      with (INR n * theta - tw N k n) by (unfold tw, Rdiv; ring).
    rewrite sin_plus, sin_minus, cos_neg, sin_neg. field.
  - rewrite <- Rsum_minus, <- Rsum_scal. apply Rsum_ext. intros n _.
    unfold Cmul, RtoC, Cscale, cis. cbn [fst snd].
    replace (INR n * (theta + 2 * PI * INR k / INR N))
      with (INR n * theta + tw N k n) by (unfold tw, Rdiv; ring).
    replace (INR n * (theta - 2 * PI * INR k / INR N))
      with (INR n * theta - tw N k n) by (unfold tw, Rdiv; ring).
    rewrite cos_plus, cos_minus, cos_neg, sin_neg. field.
Qed.

Lemma sine_bin_upper (N : nat) (theta : R) (k : nat) :
  let bin := 2 * PI * INR k / INR N in
  Cnormsq (sine_bin N theta k) <=
  (Cnormsq (hann_sum N (theta + bin)) + Cnormsq (hann_sum N (theta - bin))) / 2.
Proof.
  cbv zeta. destruct (sine_bin_split N theta k) as [H1 H2]. cbv zeta in *.
  unfold Cnormsq. rewrite H1, H2.
  set (sp := snd (hann_sum N (theta + 2 * PI * INR k / INR N))).
  set (sm := snd (hann_sum N (theta - 2 * PI * INR k / INR N))).
  set (cp := fst (hann_sum N (theta + 2 * PI * INR k / INR N))).
  set (cm := fst (hann_sum N (theta - 2 * PI * INR k / INR N))).
  pose proof (Rle_0_sqr (sp - sm)). pose proof (Rle_0_sqr (cp + cm)).
  unfold Rsqr in *. nra.
Qed.

Lemma sine_bin_lower (N : nat) (theta : R) (k : nat) :
  let bin := 2 * PI * INR k / INR N in
  1 / 4 * (99 / 100 * Cnormsq (hann_sum N (theta - bin))
           - 99 * Cnormsq (hann_sum N (theta + bin)))
  <= Cnormsq (sine_bin N theta k).
Proof.
  cbv zeta. destruct (sine_bin_split N theta k) as [H1 H2]. cbv zeta in *.
  unfold Cnormsq. rewrite H1, H2.
  set (sp := snd (hann_sum N (theta + 2 * PI * INR k / INR N))).
  set (sm := snd (hann_sum N (theta - 2 * PI * INR k / INR N))).
  set (cp := fst (hann_sum N (theta + 2 * PI * INR k / INR N))).
  set (cm := fst (hann_sum N (theta - 2 * PI * INR k / INR N))).
  pose proof (Rle_0_sqr (sm / 10 + 10 * sp)).
  pose proof (Rle_0_sqr (cm / 10 - 10 * cp)).
  unfold Rsqr in *. nra.
Qed.

(** On its main lobe the transform of the window is at least the window
    sum times the smallest cosine met. *)
Lemma hann_sum_main_lobe (N : nat) (a c0 : R) :
  (2 < N)%nat -> 0 <= c0 ->
  (forall n, (n < N)%nat -> c0 <= cos (INR n * a - INR N / 2 * a)) ->
  (c0 * (INR N / 2)) * (c0 * (INR N / 2)) <= Cnormsq (hann_sum N a).
Proof.
  intros HN Hc0 Hcos.
  destruct (hann_window_sums N HN) as [Hsum _].
  set (c := cos (INR N / 2 * a)). set (s := sin (INR N / 2 * a)).
  set (Gc := fst (hann_sum N a)). set (Gs := snd (hann_sum N a)).
  assert (HP : c0 * (INR N / 2) <= c * Gc + s * Gs).
  { rewrite <- Hsum, <- Rsum_scal.
    unfold Gc, Gs, hann_sum, Csum. cbn [fst snd].
    rewrite <- !Rsum_scal, <- Rsum_plus.
    apply Rsum_le. intros n Hn.
    unfold Cscale, cis. cbn [fst snd].
    specialize (Hcos n Hn). rewrite cos_minus in Hcos. fold c s in Hcos.
    pose proof (hw_range N n). nra. }
  assert (Hunit : c * c + s * s = 1).
  { pose proof (sin2_cos2 (INR N / 2 * a)) as H. unfold Rsqr in H.
    unfold c, s. lra. }
  assert (0 <= INR N / 2) by (pose proof (pos_INR N); lra).
  assert (0 <= c0 * (INR N / 2)) by nra.
  unfold Cnormsq. fold Gc Gs.
  pose proof (Rle_0_sqr (c * Gs - s * Gc)) as Hq. unfold Rsqr in Hq.
  assert ((c * Gc + s * Gs) * (c * Gc + s * Gs) <= Gc * Gc + Gs * Gs) by nra.
  nra.
Qed.

(** ** Parseval's identity *)

Lemma Cnormsq_conj (z : C) : Cmul z (Cconj z) = (Cnormsq z, 0).
Proof. unfold Cmul, Cconj, Cnormsq. cbn [fst snd]. f_equal; ring. Qed.

Lemma Csum_fst (f : nat -> C) (n : nat) :
  fst (Csum f n) = Rsum (fun i => fst (f i)) n.
Proof. reflexivity. Qed.

Lemma parseval (a : list C) :
  Rsum (fun k => Cnormsq (nth k (dft a) C0)) (length a) =
  INR (length a) * Rsum (fun n => Cnormsq (nth n a C0)) (length a).
Proof.
  set (N := length a).
  assert (E : Csum (fun k => Cmul (nth k (dft a) C0) (Cconj (nth k (dft a) C0))) N =
              Csum (fun n => Cscale (INR N) (Cmul (nth n a C0) (Cconj (nth n a C0)))) N).
  { rewrite (Csum_ext _
      (fun k => Csum (fun n => Csum (fun m =>
         Cmul (Cmul (nth n a C0) (Cconj (nth m a C0)))
              (cis (tw N k m - tw N k n))) N) N)).
    2:{ intros k Hk. rewrite nth_dft by exact Hk. fold N.
        rewrite Csum_conj, <- Csum_mul_r. apply Csum_ext. intros n _.
        rewrite <- Csum_mul_l. apply Csum_ext. intros m _.
        unfold Cmul, Cconj, cis. cbn [fst snd].
        rewrite cos_minus, sin_minus, !cos_neg, !sin_neg. f_equal; ring. }
    rewrite Csum_swap. apply Csum_ext. intros n Hn.
    rewrite Csum_swap.
    rewrite (Csum_ext _
      (fun m => if (m =? n)%nat
                then Cscale (INR N) (Cmul (nth n a C0) (Cconj (nth m a C0)))
                else C0)).
    2:{ intros m Hm. rewrite Csum_mul_l, roots_of_unity_sum by assumption.
        rewrite Nat.eqb_sym.
        destruct (m =? n)%nat.
        - unfold Cmul, Cscale. cbn [fst snd]. f_equal; ring.
        - apply Cmul_C0_r. }
    rewrite (Csum_delta
               (fun m => Cscale (INR N) (Cmul (nth n a C0) (Cconj (nth m a C0))))
               n N Hn).
    reflexivity. }
  apply (f_equal fst) in E. rewrite !Csum_fst in E.
  rewrite <- Rsum_scal.
  rewrite (Rsum_ext (fun k => Cnormsq (nth k (dft a) C0))
                    (fun k => fst (Cmul (nth k (dft a) C0) (Cconj (nth k (dft a) C0))))).
  2:{ intros k _. rewrite Cnormsq_conj. reflexivity. }
  rewrite E. apply Rsum_ext. intros n _.
  rewrite Cnormsq_conj. reflexivity.
Qed.

(** Four distinct terms of a sum of non-negative terms. *)
Lemma Rsum_four_terms (f : nat -> R) (N a b c d : nat) :
  (forall i, (i < N)%nat -> 0 <= f i) ->
  (a < N)%nat -> (b < N)%nat -> (c < N)%nat -> (d < N)%nat ->
  a <> b -> a <> c -> a <> d -> b <> c -> b <> d -> c <> d ->
  f a + f b + f c + f d <= Rsum f N.
Proof.
  intros Hf Ha Hb Hc Hd Hab Hac Had Hbc Hbd Hcd.
  rewrite <- (Rsum_delta f a N Ha), <- (Rsum_delta f b N Hb),
          <- (Rsum_delta f c N Hc), <- (Rsum_delta f d N Hd).
  rewrite <- !Rsum_plus. apply Rsum_le. intros i Hi.
  specialize (Hf i Hi).
  destruct (Nat.eqb_spec i a); destruct (Nat.eqb_spec i b);
    destruct (Nat.eqb_spec i c); destruct (Nat.eqb_spec i d);
    try lia; lra.
Qed.

(** ** The 440 Hz frame of [compare_dft_single_frame.py] *)

Lemma Cnormsq_Cconj (z : C) : Cnormsq (Cconj z) = Cnormsq z.
Proof. unfold Cnormsq, Cconj. cbn [fst snd]. ring. Qed.

(** The energy of a windowed sine. *)
Lemma sine_energy (N : nat) (theta : R) :
  (2 < N)%nat ->
  Rsum (fun n => Cnormsq (RtoC (sin (INR n * theta) * hw N n))) N =
  3 * INR N / 16 - 1 / 2 * fst (hann_sq_sum N (2 * theta)).
Proof.
  intros HN. destruct (hann_window_sums N HN) as [_ Hsq].
  replace (3 * INR N / 16) with (1 / 2 * (3 * INR N / 8)) by field.
  rewrite <- Hsq.
  unfold hann_sq_sum, Csum. cbn [fst].
  rewrite <- !Rsum_scal, <- Rsum_minus.
  apply Rsum_ext. intros n _.
  unfold Cnormsq, RtoC, Cscale, cis. cbn [fst snd].
  replace (INR n * (2 * theta)) with (2 * (INR n * theta)) by ring.
  rewrite cos_2a_sin. field.
Qed.

Lemma INR_4096 : INR 4096 = 4096.
Proof. rewrite INR_IZR_INZ. reflexivity. Qed.

Lemma script_frame_length : length script_frame = 4096%nat.
Proof.
  unfold script_frame, sine_signal. rewrite length_map, length_seq. reflexivity.
Qed.

Lemma script_windowed_length : length script_windowed = 4096%nat.
Proof.
  unfold script_windowed.
  rewrite map2_length, script_frame_length, hann_periodic_length. reflexivity.
Qed.

Lemma script_windowed_nth (n : nat) :
  (n < 4096)%nat ->
  nth n script_windowed 0 = sin (INR n * theta_440) * hw 4096 n.
Proof.
  intros Hn. unfold script_windowed.
  rewrite (nth_map2 Rmult _ _ n 0 0 0)
    by (rewrite ?script_frame_length, ?hann_periodic_length; exact Hn).
  unfold script_frame, sine_signal, hann_periodic.
  rewrite (nth_map_seq (fun n => sin (2 * PI * 440 * (INR n / 44100))))
    by exact Hn.
  rewrite (nth_map_seq (fun n => 0.5 - 0.5 * cos (2 * PI * INR n / INR 4096)))
    by exact Hn.
  unfold hw, theta_440. do 2 f_equal. field.
Qed.

(** Bin [k] of the transform of the windowed frame. *)
Lemma script_bin (k : nat) :
  (k < 4096)%nat ->
  nth k (dft (map RtoC script_windowed)) C0 = sine_bin 4096 theta_440 k.
Proof.
  intros Hk.
  assert (Hlen : length (map RtoC script_windowed) = 4096%nat)
    by (rewrite length_map; apply script_windowed_length).
  rewrite nth_dft by (rewrite Hlen; exact Hk).
  rewrite Hlen. unfold sine_bin.
  apply Csum_ext. intros n Hn.
  rewrite nth_RtoC, script_windowed_nth by exact Hn. reflexivity.
Qed.

(** The bins N - k and k of a real frame have one magnitude. *)
Lemma script_bin_mirror (k : nat) :
  (0 < k < 4096)%nat ->
  Cnormsq (sine_bin 4096 theta_440 (4096 - k)) =
  Cnormsq (sine_bin 4096 theta_440 k).
Proof.
  intros Hk.
  rewrite <- !script_bin by lia.
  pose proof (dft_real_conj script_windowed k) as H.
  rewrite script_windowed_length in H.
  rewrite H by exact Hk. apply Cnormsq_Cconj.
Qed.

(** Parseval on the frame: the squared magnitudes of all bins add up to
    4096 times the energy of the windowed frame. *)
Lemma script_parseval :
  Rsum (fun k => Cnormsq (sine_bin 4096 theta_440 k)) 4096 =
  4096 * (3 * 4096 / 16 - 1 / 2 * fst (hann_sq_sum 4096 (2 * theta_440))).
Proof.
  pose proof (parseval (map RtoC script_windowed)) as P.
  rewrite length_map, script_windowed_length, INR_4096 in P.
  rewrite <- INR_4096 at 2. rewrite <- (sine_energy 4096 theta_440) by lia.
  rewrite <- (Rsum_ext (fun k => Cnormsq (nth k (dft (map RtoC script_windowed)) C0)))
    by (intros k Hk; rewrite script_bin by exact Hk; reflexivity).
  rewrite P. f_equal. apply Rsum_ext. intros n Hn.
  rewrite nth_RtoC, script_windowed_nth by exact Hn. reflexivity.
Qed.

Lemma INR_41 : INR 41 = 41.
Proof. rewrite INR_IZR_INZ. reflexivity. Qed.

Lemma INR_2048 : INR 2048 = 2048.
Proof. rewrite INR_IZR_INZ. reflexivity. Qed.

Lemma PI_sq_bounds : 9.8596 < PI * PI < 9.9225.
Proof. pose proof PI_bounds. nra. Qed.

(** The window transform at the distance of 440 Hz from bin 41. *)
Lemma main_lobe_41 :
  3473303 <= Cnormsq (hann_sum 4096 (theta_440 - 2 * PI * INR 41 / INR 4096)).
Proof.
  pose proof PI_bounds as Hpi. pose proof PI_sq_bounds as Hpi2.
  apply Rle_trans with (91 / 100 * (INR 4096 / 2) * (91 / 100 * (INR 4096 / 2))).
  { rewrite INR_4096. lra. }
  apply hann_sum_main_lobe; [lia | lra |].
  intros n Hn. rewrite INR_4096, INR_41. unfold theta_440.
  set (T := PI * 293 / 2205).
  apply Rle_trans with (cos T).
  - pose proof (cos_lower T ltac:(unfold T; lra)) as Hc.
    assert (T * T <= 0.1753) by (unfold T; nra).
    lra.
  - assert (Hq : 0 <= PI * INR n <= PI * 4096).
    { pose proof (pos_INR n).
      assert (INR n <= 4096)
        by (rewrite <- INR_4096; apply le_INR; lia).
      split; nra. }
    apply cos_ge_on_interval.
    + unfold T. split; nra.
    + unfold T. lra.
Qed.

(** The window transform at the distance of -440 Hz from bin 41. *)
Lemma far_lobe_41 :
  Cnormsq (hann_sum 4096 (theta_440 + 2 * PI * INR 41 / INR 4096)) <= 295.
Proof.
  pose proof PI_bounds as Hpi.
  apply Rle_trans with (9 / 2 / (153 / 10000)); [|lra].
  rewrite INR_4096, INR_41. unfold theta_440.
  assert (Hd : 153 / 10000 <= 0.1239 * 0.1239 - 0.1239 * 0.1239 * 0.1239 * 0.1239 / 12)
    by lra.
  apply hann_sum_far; [lra | | |]; rewrite ?INR_4096;
    (eapply Rle_trans; [exact Hd | apply one_minus_cos_lower; lra]).
Qed.

Lemma peak_bin_lower : 852000 <= Cnormsq (sine_bin 4096 theta_440 41).
Proof.
  pose proof (sine_bin_lower 4096 theta_440 41) as H. cbv zeta in H.
  pose proof main_lobe_41. pose proof far_lobe_41. lra.
Qed.

(** The energy leak of the window at twice 440 Hz. *)
Lemma energy_leak : - (37 / 2) <= fst (hann_sq_sum 4096 (2 * theta_440)).
Proof.
  pose proof PI_bounds as Hpi.
  assert (Hn : Cnormsq (hann_sq_sum 4096 (2 * theta_440)) <= 81 / 16 / (149 / 10000)).
  { unfold theta_440.
    assert (Hd : 149 / 10000 <=
                 0.1222 * 0.1222 - 0.1222 * 0.1222 * 0.1222 * 0.1222 / 12) by lra.
    apply hann_sq_sum_far; [lra | | | | |]; rewrite ?INR_4096;
      (eapply Rle_trans; [exact Hd | apply one_minus_cos_lower; lra]). }
  unfold Cnormsq in Hn.
  set (x := fst (hann_sq_sum 4096 (2 * theta_440))) in *.
  set (y := snd (hann_sq_sum 4096 (2 * theta_440))) in *.
  assert (81 / 16 / (149 / 10000) <= 37 / 2 * (37 / 2)) by lra.
  nra.
Qed.

Lemma total_energy :
  Rsum (fun k => Cnormsq (sine_bin 4096 theta_440 k)) 4096 <= 3183616.
Proof.
  rewrite script_parseval. pose proof energy_leak. lra.
Qed.

(** Every bin strictly between 0 and 2048 other than 41 is below bin 41. *)
Lemma inner_bins_below (k : nat) :
  (1 <= k < 2048)%nat -> k <> 41%nat ->
  Cnormsq (sine_bin 4096 theta_440 k) < Cnormsq (sine_bin 4096 theta_440 41).
Proof.
  intros Hk Hne.
  pose proof (Rsum_four_terms (fun k => Cnormsq (sine_bin 4096 theta_440 k))
                4096 k (4096 - k) 41 (4096 - 41)) as H4.
  cbv beta in H4.
  assert (H : Cnormsq (sine_bin 4096 theta_440 k)
              + Cnormsq (sine_bin 4096 theta_440 (4096 - k))
              + Cnormsq (sine_bin 4096 theta_440 41)
              + Cnormsq (sine_bin 4096 theta_440 (4096 - 41))
              <= Rsum (fun k => Cnormsq (sine_bin 4096 theta_440 k)) 4096).
  { apply H4; try lia. intros i _. apply Cnormsq_nonneg. }
  rewrite !script_bin_mirror in H by lia.
  pose proof total_energy. pose proof peak_bin_lower. lra.
Qed.

(** The DC bin. *)
Lemma dc_bin_below :
  Cnormsq (sine_bin 4096 theta_440 0) < Cnormsq (sine_bin 4096 theta_440 41).
Proof.
  pose proof PI_bounds as Hpi.
  pose proof (sine_bin_upper 4096 theta_440 0) as H. cbv zeta in H.
  change (INR 0) with 0 in H.
  replace (2 * PI * 0 / INR 4096) with 0 in H by (unfold Rdiv; ring).
  rewrite Rplus_0_r, Rminus_0_r in H.
  assert (Hf : Cnormsq (hann_sum 4096 theta_440) <= 9 / 2 / (37 / 10000)).
  { unfold theta_440.
    assert (Hd : 37 / 10000 <=
                 0.0611 * 0.0611 - 0.0611 * 0.0611 * 0.0611 * 0.0611 / 12) by lra.
    apply hann_sum_far; [lra | | |]; rewrite ?INR_4096;
      (eapply Rle_trans; [exact Hd | apply one_minus_cos_lower; lra]). }
  pose proof peak_bin_lower. lra.
Qed.

(** The Nyquist bin. *)
Lemma nyquist_bin_below :
  Cnormsq (sine_bin 4096 theta_440 2048) < Cnormsq (sine_bin 4096 theta_440 41).
Proof.
  pose proof PI_bounds as Hpi.
  pose proof (sine_bin_upper 4096 theta_440 2048) as H. cbv zeta in H.
  rewrite INR_2048, INR_4096 in H.
  replace (2 * PI * 2048 / 4096) with PI in H by field.
  assert (Hcos : forall x, 0 <= x <= PI / 2 ->
            2 <= 2 - 2 * cos (x + PI) /\ 2 <= 2 - 2 * cos (x - PI)).
  { intros x Hx.
    assert (0 <= cos x) by (apply cos_ge_0; lra).
    split.
    - rewrite neg_cos. lra.
    - replace (x - PI) with (- (- x + PI)) by ring.
      rewrite cos_neg, neg_cos, cos_neg. lra. }
  assert (Hp : Cnormsq (hann_sum 4096 (theta_440 + PI)) <= 9 / 2 / 2).
  { apply hann_sum_far; [lra | | |]; rewrite ?INR_4096.
    - apply Hcos. unfold theta_440. lra.
    - replace (theta_440 + PI + 2 * PI / 4096)
        with (theta_440 + 2 * PI / 4096 + PI) by ring.
      apply Hcos. unfold theta_440. lra.
    - replace (theta_440 + PI - 2 * PI / 4096)
        with (theta_440 - 2 * PI / 4096 + PI) by ring.
      apply Hcos. unfold theta_440. lra. }
  assert (Hm : Cnormsq (hann_sum 4096 (theta_440 - PI)) <= 9 / 2 / 2).
  { apply hann_sum_far; [lra | | |]; rewrite ?INR_4096.
    - apply Hcos. unfold theta_440. lra.
    - replace (theta_440 - PI + 2 * PI / 4096)
        with (theta_440 + 2 * PI / 4096 - PI) by ring.
      apply Hcos. unfold theta_440. lra.
    - replace (theta_440 - PI - 2 * PI / 4096)
        with (theta_440 - 2 * PI / 4096 - PI) by ring.
      apply Hcos. unfold theta_440. lra. }
  pose proof peak_bin_lower. lra.
Qed.

(** Bin 41 has the largest magnitude of the bins 0 .. 2048. *)
Lemma bin_41_is_peak (k : nat) :
  (k <= 2048)%nat -> k <> 41%nat ->
  Cnormsq (sine_bin 4096 theta_440 k) < Cnormsq (sine_bin 4096 theta_440 41).
Proof.
  intros Hk Hne.
  destruct (Nat.eq_dec k 0) as [->|H0]; [apply dc_bin_below|].
  destruct (Nat.eq_dec k 2048) as [->|H1]; [apply nyquist_bin_below|].
  apply inner_bins_below; lia.
Qed.

Lemma expected_bin_41 : expected_bin 440 44100 4096 = 41%Z.
Proof.
  unfold expected_bin, np_round. rewrite INR_4096.
  assert (Hf : Int_part (440 * 4096 / 44100) = 40%Z).
  { symmetry. apply Int_part_spec. lra. }
  rewrite Hf.
  destruct (Rlt_dec (440 * 4096 / 44100 - 40) (1 / 2)) as [Hlt|_]; [lra|].
  destruct (Rlt_dec (1 / 2) (440 * 4096 / 44100 - 40)) as [_|Hn]; [reflexivity | lra].
Qed.

Lemma magnitude_script :
  magnitude script_frame =
  Ok (map Cmod (firstn 2049 (dft (map RtoC script_windowed)))).
Proof.
  unfold magnitude.
  rewrite frame_fft_Ok
    by (apply nonempty_length; rewrite script_frame_length; lia).
  cbn [bind]. rewrite script_frame_length. reflexivity.
Qed.

Lemma magnitude_script_nth (k : nat) :
  (k < 2049)%nat ->
  nth k (map Cmod (firstn 2049 (dft (map RtoC script_windowed)))) 0 =
  sqrt (Cnormsq (sine_bin 4096 theta_440 k)).
Proof.
  intros Hk.
  assert (Hlen : length (dft (map RtoC script_windowed)) = 4096%nat)
    by (rewrite dft_length, length_map; apply script_windowed_length).
  assert (E : nth_error (map Cmod (firstn 2049 (dft (map RtoC script_windowed)))) k
              = Some (Cmod (nth k (dft (map RtoC script_windowed)) C0)))
    by (apply nth_error_map_firstn; lia).
  rewrite (nth_error_nth _ _ _ E).
  rewrite script_bin by lia. reflexivity.
Qed.

(** C8.  For the frame of [compare_dft_single_frame.py], 4096 samples of
    sin(2*pi*440*t) at 44100 Hz under the periodic Hann window, the
    magnitudes of the bins 0 .. 2048 have their maximum at bin 41, strictly
    above every other bin, and 41 is [expected_bin], the rounding of
    440 * 4096 / 44100. *)
Theorem peak_bin_440 :
  expected_bin 440 44100 4096 = 41%Z /\
  exists mags,
    magnitude script_frame = Ok mags /\
    length mags = 2049%nat /\
    (forall k, (k < 2049)%nat -> k <> 41%nat -> nth k mags 0 < nth 41 mags 0) /\
    is_argmax mags 41.
Proof.
  split; [exact expected_bin_41|].
  eexists. split; [exact magnitude_script|].
  assert (Hlen : length (map Cmod (firstn 2049 (dft (map RtoC script_windowed))))
                 = 2049%nat).
  { rewrite length_map, length_firstn, dft_length, length_map,
      script_windowed_length. reflexivity. }
  assert (Hlt : forall k, (k < 2049)%nat -> k <> 41%nat ->
            nth k (map Cmod (firstn 2049 (dft (map RtoC script_windowed)))) 0 <
            nth 41 (map Cmod (firstn 2049 (dft (map RtoC script_windowed)))) 0).
  { intros k Hk Hne. rewrite !magnitude_script_nth by lia.
    apply sqrt_lt_1_alt. split; [apply Cnormsq_nonneg|].
    apply bin_41_is_peak; lia. }
  split; [exact Hlen|]. split; [exact Hlt|].
  unfold is_argmax. rewrite Hlen. split; [lia|]. split.
  - intros j Hj. destruct (Nat.eq_dec j 41) as [->|Hne]; [lra|].
    left. apply Hlt; assumption.
  - intros j Hj. apply Hlt; lia.
Qed.

(** [debug_stft_comparison.py] reads the bin below: truncation gives 40. *)
Lemma freq_440_bin_40 : freq_440_bin 4096 44100 = 40%Z.
Proof.
  unfold freq_440_bin. rewrite INR_4096.
  symmetry. apply Int_part_spec. lra.
Qed.

(** * Further properties of the code *)

(** ** The reconstruction of [manual_stft_istft] on any signal *)

Lemma Rsum_shift (f : nat -> R) (n : nat) :
  Rsum f (S n) = f O + Rsum (fun i => f (S i)) n.
Proof.
  induction n as [|n IH].
  - simpl. ring.
  - change (Rsum f (S (S n))) with (Rsum f (S n) + f (S n)).
    rewrite IH. simpl. ring.
Qed.

Lemma add_at_length (start : nat) (v acc : list R) :
  length (add_at start v acc) = length acc.
Proof.
  revert start. induction acc as [|a acc IH]; intros [|s]; simpl; auto.
  - destruct v as [|b v]; simpl.
    + reflexivity.
    + rewrite length_app, map2_length, length_skipn. lia.
Qed.

Lemma add_at_nth (start : nat) (v acc : list R) (p : nat) :
  (p < length acc)%nat ->
  nth p (add_at start v acc) 0 =
  nth p acc 0 +
  (if ((start <=? p) && (p <? start + length v))%nat
   then nth (p - start) v 0 else 0).
Proof.
  revert start p. induction acc as [|a acc IH]; intros start p Hp; [simpl in Hp; lia|].
  destruct start as [|s].
  - cbn [add_at]. cbn [Nat.leb andb Nat.add]. rewrite Nat.sub_0_r.
    destruct (Nat.ltb_spec p (length v)) as [Hv|Hv].
    + rewrite app_nth1 by (rewrite map2_length; lia).
      apply (nth_map2 Rplus (a :: acc) v p 0 0 0); assumption.
    + rewrite app_nth2 by (rewrite map2_length; lia).
      rewrite map2_length, Nat.min_r by lia.
      rewrite nth_skipn. replace (length v + (p - length v))%nat with p by lia.
      ring.
  - cbn [add_at]. destruct p as [|p].
    + cbn [nth Nat.leb andb]. ring.
    + cbn [nth]. rewrite IH by (simpl in Hp; lia).
      replace (S p - S s)%nat with (p - s)%nat by lia.
      replace ((S s <=? S p)%nat) with ((s <=? p)%nat) by reflexivity.
      replace ((S p <? S s + length v)%nat) with ((p <? s + length v)%nat)
        by reflexivity.
      reflexivity.
Qed.

(** The accumulators after the inverse loop, sample by sample. *)
Lemma accumulate_nth (window : list R) (hop_length : nat)
      (g : nat -> list R) (p : nat) :
  forall n frame_idx0 acc,
    (p < length (fst acc))%nat -> (p < length (snd acc))%nat ->
    (forall i, (frame_idx0 <= i < frame_idx0 + n)%nat ->
               length (g i) = length window) ->
    let acc' := accumulate window hop_length frame_idx0
                  (map g (seq frame_idx0 n)) acc in
    nth p (fst acc') 0 =
      nth p (fst acc) 0 +
      Rsum (fun j =>
              if (((frame_idx0 + j) * hop_length <=? p) &&
                  (p <? (frame_idx0 + j) * hop_length + length window))%nat
              then nth (p - (frame_idx0 + j) * hop_length)
                       (map2 Rmult (g (frame_idx0 + j)%nat) window) 0
              else 0) n /\
    nth p (snd acc') 0 =
      nth p (snd acc) 0 +
      Rsum (fun j => cover window hop_length (frame_idx0 + j) p) n /\
    length (fst acc') = length (fst acc) /\
    length (snd acc') = length (snd acc).
Proof.
  induction n as [|n IH]; intros k acc H1 H2 Hg; cbv zeta.
  - cbn [seq map accumulate Rsum]. repeat split; ring.
  - cbn [seq map accumulate].
    specialize (IH (S k)
                  (add_at (k * hop_length) (map2 Rmult (g k) window) (fst acc),
                   add_at (k * hop_length) window (snd acc))).
    cbv zeta in IH. cbn [fst snd] in IH.
    rewrite !add_at_length in IH.
    destruct (IH H1 H2 ltac:(intros i Hi; apply Hg; lia)) as [E1 [E2 [L1 L2]]].
    rewrite E1, E2, L1, L2, !Rsum_shift.
    rewrite !add_at_nth by assumption.
    rewrite map2_length, Hg, Nat.min_id, Nat.add_0_r by lia.
    unfold cover at 2.
    repeat split; try reflexivity.
    + rewrite Rplus_assoc. do 2 f_equal.
      apply Rsum_ext. intros j _.
      replace (S k + j)%nat with (k + S j)%nat by lia. reflexivity.
    + rewrite Rplus_assoc. do 2 f_equal.
      apply Rsum_ext. intros j _.
      replace (S k + j)%nat with (k + S j)%nat by lia. reflexivity.
Qed.

Lemma nth_repeat_0 (n p : nat) : nth p (repeat 0 n) 0 = 0.
Proof.
  revert p. induction n as [|n IH]; intros [|p]; simpl; auto.
Qed.

(** The frames of the forward loop, by index. *)
Lemma frames_eq (signal : list R) (n_fft hop_length : nat) :
  (0 < hop_length)%nat -> (n_fft <= length signal)%nat ->
  frames signal n_fft hop_length =
  Ok (map (fun i => slice signal (i * hop_length) (i * hop_length + n_fft))
          (seq 0 ((length signal - n_fft) / hop_length + 1))).
Proof.
  intros Hh Hl. unfold frames.
  destruct hop_length as [|h] eqn:Eh; [lia|]. rewrite <- Eh in *.
  unfold range. rewrite num_frames_nat by assumption. reflexivity.
Qed.

(** On a signal of at least one frame [manual_stft_istft] raises nothing:
    it returns the quotient of the two accumulators. *)
Lemma manual_stft_istft_pure (signal : list R) (n_fft hop_length : nat) :
  (0 < hop_length)%nat -> (0 < n_fft)%nat -> (n_fft <= length signal)%nat ->
  let nframes := ((length signal - n_fft) / hop_length + 1)%nat in
  let len := ((nframes - 1) * hop_length + n_fft)%nat in
  let window := hanning n_fft in
  let g := fun i => map2 Rmult
                      (slice signal (i * hop_length) (i * hop_length + n_fft))
                      window in
  manual_stft_istft signal n_fft hop_length =
  Ok (let acc := accumulate window hop_length 0 (map g (seq 0 nframes))
                   (repeat 0 len, repeat 0 len) in
      normalize (fst acc) (snd acc)).
Proof.
  intros Hh Hn Hl. cbv zeta.
  set (nframes := ((length signal - n_fft) / hop_length + 1)%nat).
  set (len := ((nframes - 1) * hop_length + n_fft)%nat).
  unfold manual_stft_istft, stft_forward.
  rewrite frames_eq by assumption. fold nframes. cbn [bind].
  assert (Hnf : Z.to_nat (num_frames (length signal) n_fft hop_length) = nframes)
    by (apply num_frames_nat; assumption).
  assert (Hlenf : forall i, (i < nframes)%nat ->
            length (slice signal (i * hop_length) (i * hop_length + n_fft)) = n_fft).
  { intros i Hi.
    assert (i * hop_length + n_fft <= length signal)%nat
      by (apply frame_in_bounds; [assumption | rewrite Hnf; exact Hi]).
    rewrite slice_length. lia. }
  rewrite (mapM_Ok_map _
             (fun frame => dft (map RtoC (map2 Rmult frame (hanning n_fft))))).
  2:{ intros frame Hin. apply in_map_iff in Hin. destruct Hin as [i [<- Hi]].
      apply in_seq in Hi.
      rewrite np_mul1_same_length by (rewrite Hlenf, hanning_length; lia).
      cbn [bind]. apply np_fft_nonempty. apply nonempty_length.
      rewrite length_map, map2_length, Hlenf, hanning_length by lia. lia. }
  cbn [bind]. unfold overlap_add.
  assert (Ez : np_zeros ((num_frames (length signal) n_fft hop_length - 1)
                         * Z.of_nat hop_length + Z.of_nat n_fft) =
               Ok (repeat 0 len)).
  { unfold np_zeros.
    assert (Hz : num_frames (length signal) n_fft hop_length = Z.of_nat nframes).
    { rewrite <- Hnf. rewrite Z2Nat.id; [reflexivity|].
      unfold num_frames.
      assert (0 <= (Z.of_nat (length signal) - Z.of_nat n_fft) / Z.of_nat hop_length)%Z
        by (apply Z.div_pos; lia).
      lia. }
    rewrite Hz.
    assert (1 <= nframes)%nat by (unfold nframes; lia).
    replace ((Z.of_nat nframes - 1) * Z.of_nat hop_length + Z.of_nat n_fft)%Z
      with (Z.of_nat len) by (unfold len; nia).
    destruct (Z.ltb_spec (Z.of_nat len) 0); [lia|].
    rewrite Nat2Z.id. reflexivity. }
  rewrite Ez. cbn [bind].
  rewrite map_map.
  rewrite <- (map_map
                (fun i => map2 Rmult
                            (slice signal (i * hop_length) (i * hop_length + n_fft))
                            (hanning n_fft))
                (fun y => dft (map RtoC y))).
  rewrite istft_loop_pure.
  - reflexivity.
  - apply nonempty_length. rewrite hanning_length. exact Hn.
  - apply Forall_forall. intros y Hy.
    apply in_map_iff in Hy. destruct Hy as [i [<- Hi]]. apply in_seq in Hi.
    rewrite map2_length, Hlenf, hanning_length by lia. lia.
Qed.

(** The reconstruction sample by sample. *)
Lemma manual_stft_istft_nth (signal : list R) (n_fft hop_length : nat) :
  (0 < hop_length)%nat -> (0 < n_fft)%nat -> (n_fft <= length signal)%nat ->
  let nframes := ((length signal - n_fft) / hop_length + 1)%nat in
  let len := ((nframes - 1) * hop_length + n_fft)%nat in
  exists reconstructed,
    manual_stft_istft signal n_fft hop_length = Ok reconstructed /\
    length reconstructed = len /\
    forall p, (p < len)%nat ->
      nth p reconstructed 0 =
      nth p signal 0 * gain (hanning n_fft) hop_length nframes p.
Proof.
  intros Hh Hn Hl. cbv zeta.
  set (nframes := ((length signal - n_fft) / hop_length + 1)%nat).
  set (len := ((nframes - 1) * hop_length + n_fft)%nat).
  pose proof (manual_stft_istft_pure signal n_fft hop_length Hh Hn Hl) as Hp.
  cbv zeta in Hp. fold nframes len in Hp.
  set (g := fun i => map2 Rmult
                       (slice signal (i * hop_length) (i * hop_length + n_fft))
                       (hanning n_fft)) in *.
  assert (Hnf : Z.to_nat (num_frames (length signal) n_fft hop_length) = nframes)
    by (apply num_frames_nat; assumption).
  assert (Hin : forall i, (i < nframes)%nat ->
            (i * hop_length + n_fft <= length signal)%nat)
    by (intros i Hi; apply frame_in_bounds; [assumption | rewrite Hnf; exact Hi]).
  assert (Hg : forall i, (0 <= i < 0 + nframes)%nat ->
            length (g i) = length (hanning n_fft)).
  { intros i Hi. unfold g.
    rewrite map2_length, slice_length, hanning_length.
    specialize (Hin i ltac:(lia)). lia. }
  eexists. split; [exact Hp|].
  assert (Hacc : forall p, (p < len)%nat ->
            let acc := accumulate (hanning n_fft) hop_length 0
                         (map g (seq 0 nframes)) (repeat 0 len, repeat 0 len) in
            nth p (fst acc) 0 =
              nth p signal 0 * energy_total (hanning n_fft) hop_length nframes p /\
            nth p (snd acc) 0 = window_total (hanning n_fft) hop_length nframes p /\
            length (fst acc) = len /\ length (snd acc) = len).
  { intros p Hp'. cbv zeta.
    destruct (accumulate_nth (hanning n_fft) hop_length g p nframes 0
                (repeat 0 len, repeat 0 len)) as [E1 [E2 [L1 L2]]];
      cbn [fst snd]; rewrite ?repeat_length; try assumption.
    cbn [fst snd] in E1, E2, L1, L2. rewrite repeat_length in L1, L2.
    rewrite E1, E2, nth_repeat_0, !Rplus_0_l.
    repeat split; try assumption.
    unfold energy_total. rewrite <- Rsum_scal.
    apply Rsum_ext. intros j Hj. cbn [Nat.add]. unfold cover.
    destruct ((j * hop_length <=? p)%nat &&
              (p <? j * hop_length + length (hanning n_fft))%nat) eqn:Ec;
      [|ring].
    apply andb_prop in Ec. destruct Ec as [Ea Eb].
    apply Nat.leb_le in Ea. apply Nat.ltb_lt in Eb.
    rewrite hanning_length in Eb.
    specialize (Hin j Hj).
    unfold g.
    rewrite (nth_map2 Rmult _ _ _ 0 0 0)
      by (rewrite ?map2_length, ?slice_length, ?hanning_length; lia).
    rewrite (nth_map2 Rmult _ _ _ 0 0 0)
      by (rewrite ?slice_length, ?hanning_length; lia).
    rewrite nth_slice by lia.
    replace (j * hop_length + (p - j * hop_length))%nat with p by lia.
    ring. }
  split.
  - unfold normalize, guard_window_sum.
    assert (0 < len)%nat
      by (unfold len; generalize ((nframes - 1) * hop_length)%nat; intros; lia).
    destruct (Hacc 0%nat ltac:(lia)) as [_ [_ [L1 L2]]]. cbv zeta in L1, L2.
    rewrite map2_length, length_map, L1, L2. lia.
  - intros p Hp'.
    destruct (Hacc p Hp') as [E1 [E2 [L1 L2]]]. cbv zeta in E1, E2, L1, L2.
    unfold normalize, guard_window_sum.
    rewrite (nth_map2 Rdiv _ _ _ 0 0 0)
      by (rewrite ?length_map, ?L1, ?L2; exact Hp').
    rewrite (nth_indep (map _ _) 0
               ((fun s => if Rlt_dec (1 / 100000000) s then s else 1) 0))
      by (rewrite length_map, L2; exact Hp').
    rewrite (map_nth (fun s => if Rlt_dec (1 / 100000000) s then s else 1)).
    rewrite E1, E2. unfold gain, Rdiv. ring.
Qed.

Lemma hanning_nth_range (M k : nat) : 0 <= nth k (hanning M) 0 <= 1.
Proof.
  destruct (Nat.lt_ge_cases k M) as [Hk|Hk].
  - destruct M as [|[|M]]; [lia | |].
    + destruct k; [simpl; lra | lia].
    + unfold hanning.
      rewrite (nth_map_seq
                 (fun n => 0.5 - 0.5 * cos (2 * PI * INR n / INR (S (S M) - 1))))
        by exact Hk.
      pose proof (COS_bound (2 * PI * INR k / INR (S (S M) - 1))). lra.
  - rewrite nth_overflow by (rewrite hanning_length; exact Hk). lra.
Qed.

Lemma hanning_ends (M : nat) :
  (2 <= M)%nat ->
  nth 0 (hanning M) 0 = 0 /\ nth (M - 1) (hanning M) 0 = 0.
Proof.
  intros HM. destruct M as [|[|M]]; try lia.
  unfold hanning.
  rewrite !(nth_map_seq
              (fun n => 0.5 - 0.5 * cos (2 * PI * INR n / INR (S (S M) - 1))))
    by lia.
  assert (0 < INR (S (S M) - 1)) by (apply lt_0_INR; lia).
  split.
  - change (INR 0) with 0.
    replace (2 * PI * 0 / INR (S (S M) - 1)) with 0 by (field; lra).
    rewrite cos_0. lra.
  - replace (2 * PI * INR (S (S M) - 1) / INR (S (S M) - 1)) with (2 * PI)
      by (field; lra).
    rewrite cos_2PI. lra.
Qed.

Lemma cover_range (M hop_length i p : nat) :
  0 <= cover (hanning M) hop_length i p <= 1.
Proof.
  unfold cover.
  destruct ((i * hop_length <=? p)%nat && (p <? i * hop_length + length (hanning M))%nat).
  - apply hanning_nth_range.
  - lra.
Qed.

(** The gain lies between 0 and 1. *)
Lemma gain_range (M hop_length nframes p : nat) :
  0 <= gain (hanning M) hop_length nframes p <= 1.
Proof.
  unfold gain.
  set (W := window_total (hanning M) hop_length nframes p).
  set (E := energy_total (hanning M) hop_length nframes p).
  assert (HE : 0 <= E <= W).
  { unfold E, W, energy_total, window_total. split.
    - apply Rsum_nonneg. intros i _.
      pose proof (cover_range M hop_length i p). nra.
    - apply Rsum_le. intros i _.
      pose proof (cover_range M hop_length i p). nra. }
  destruct (Rlt_dec (1 / 100000000) W) as [Hw|Hw].
  - assert (0 < W) by lra. split.
    + apply Rmult_le_reg_r with W; [assumption|].
      unfold Rdiv. rewrite Rmult_assoc, Rinv_l by lra. lra.
    + apply Rmult_le_reg_r with W; [assumption|].
      unfold Rdiv. rewrite Rmult_assoc, Rinv_l by lra. lra.
  - unfold Rdiv. rewrite Rinv_1. lra.
Qed.

(** X1.  On every signal of at least one frame, [manual_stft_istft] returns
    the signal multiplied sample by sample by a gain that depends on the
    window, the hop and the position only; the gain lies in [0, 1], so no
    sample comes back larger than it went in. *)
Theorem reconstruction_gain (signal : list R) (n_fft hop_length : nat) :
  (0 < hop_length)%nat -> (0 < n_fft)%nat -> (n_fft <= length signal)%nat ->
  let nframes := ((length signal - n_fft) / hop_length + 1)%nat in
  exists reconstructed,
    manual_stft_istft signal n_fft hop_length = Ok reconstructed /\
    forall p, (p < length reconstructed)%nat ->
      nth p reconstructed 0 =
        nth p signal 0 * gain (hanning n_fft) hop_length nframes p /\
      0 <= gain (hanning n_fft) hop_length nframes p <= 1 /\
      Rabs (nth p reconstructed 0) <= Rabs (nth p signal 0).
Proof.
  intros Hh Hn Hl. cbv zeta.
  destruct (manual_stft_istft_nth signal n_fft hop_length Hh Hn Hl)
    as [r [Hr [Hlen Hnth]]]. cbv zeta in *.
  exists r. split; [exact Hr|].
  intros p Hp. rewrite Hlen in Hp.
  pose proof (gain_range n_fft hop_length
                ((length signal - n_fft) / hop_length + 1) p) as Hg.
  split; [apply Hnth; exact Hp|]. split; [exact Hg|].
  rewrite (Hnth p Hp), Rabs_mult, (Rabs_pos_eq (gain _ _ _ _)) by lra.
  pose proof (Rabs_pos (nth p signal 0)). nra.
Qed.

Lemma reconstruction_gain_witness :
  (0 < 2)%nat /\ (0 < 4)%nat /\ (4 <= length [1; 2; 3; 4; 5])%nat /\
  exists reconstructed,
    manual_stft_istft [1; 2; 3; 4; 5] 4 2 = Ok reconstructed /\
    forall p, (p < length reconstructed)%nat ->
      nth p reconstructed 0 =
        nth p [1; 2; 3; 4; 5] 0 *
        gain (hanning 4) 2 ((length [1; 2; 3; 4; 5] - 4) / 2 + 1) p /\
      0 <= gain (hanning 4) 2 ((length [1; 2; 3; 4; 5] - 4) / 2 + 1) p <= 1 /\
      Rabs (nth p reconstructed 0) <= Rabs (nth p [1; 2; 3; 4; 5] 0).
Proof.
  split; [lia|]. split; [lia|]. split; [simpl; lia|].
  apply (reconstruction_gain [1; 2; 3; 4; 5] 4 2); simpl; lia.
Defined.

(** X2.  The reconstruction covers the frames only: its length is the
    length of the signal less the remainder of (len - n_fft) by the hop, so
    it is never longer than the signal and shorter by less than one hop. *)
Theorem reconstruction_length (signal : list R) (n_fft hop_length : nat) :
  (0 < hop_length)%nat -> (0 < n_fft)%nat -> (n_fft <= length signal)%nat ->
  exists reconstructed,
    manual_stft_istft signal n_fft hop_length = Ok reconstructed /\
    length reconstructed =
      (length signal - (length signal - n_fft) mod hop_length)%nat /\
    (length reconstructed <= length signal)%nat /\
    (length signal < length reconstructed + hop_length)%nat.
Proof.
  intros Hh Hn Hl.
  destruct (manual_stft_istft_nth signal n_fft hop_length Hh Hn Hl)
    as [r [Hr [Hlen _]]]. cbv zeta in *.
  exists r. split; [exact Hr|].
  pose proof (Nat.div_mod_eq (length signal - n_fft) hop_length) as E.
  pose proof (Nat.mod_upper_bound (length signal - n_fft) hop_length
                ltac:(lia)) as U.
  rewrite Hlen.
  replace ((length signal - n_fft) / hop_length + 1 - 1)%nat
    with ((length signal - n_fft) / hop_length)%nat by lia.
  rewrite (Nat.mul_comm hop_length) in E.
  generalize dependent ((length signal - n_fft) mod hop_length)%nat.
  generalize ((length signal - n_fft) / hop_length * hop_length)%nat.
  intros q m E U. lia.
Qed.

Lemma reconstruction_length_witness :
  (0 < 3)%nat /\ (0 < 4)%nat /\ (4 <= length [1; 2; 3; 4; 5; 6])%nat /\
  exists reconstructed,
    manual_stft_istft [1; 2; 3; 4; 5; 6] 4 3 = Ok reconstructed /\
    length reconstructed =
      (length [1; 2; 3; 4; 5; 6] - (length [1; 2; 3; 4; 5; 6] - 4) mod 3)%nat /\
    (length reconstructed <= length [1; 2; 3; 4; 5; 6])%nat /\
    (length [1; 2; 3; 4; 5; 6] < length reconstructed + 3)%nat.
Proof.
  split; [lia|]. split; [lia|]. split; [simpl; lia|].
  apply (reconstruction_length [1; 2; 3; 4; 5; 6] 4 3); simpl; lia.
Defined.

(** X3.  With a window of two samples or more, the first and the last
    sample of the reconstruction are 0 whatever the signal: the Hann window
    of [np.hanning] is 0 at both ends, and the guard of the division turns
    the empty window sum into 1. *)
Theorem reconstruction_ends_zero (signal : list R) (n_fft hop_length : nat) :
  (0 < hop_length)%nat -> (2 <= n_fft)%nat -> (n_fft <= length signal)%nat ->
  exists reconstructed,
    manual_stft_istft signal n_fft hop_length = Ok reconstructed /\
    nth 0 reconstructed 0 = 0 /\
    nth (length reconstructed - 1) reconstructed 0 = 0.
Proof.
  intros Hh Hn Hl.
  destruct (manual_stft_istft_nth signal n_fft hop_length Hh ltac:(lia) Hl)
    as [r [Hr [Hlen Hnth]]]. cbv zeta in *.
  exists r. split; [exact Hr|].
  set (nframes := ((length signal - n_fft) / hop_length + 1)%nat) in *.
  destruct (hanning_ends n_fft Hn) as [H0 H1].
  assert (Hpos : (0 < (nframes - 1) * hop_length + n_fft)%nat)
    by (generalize ((nframes - 1) * hop_length)%nat; intros; lia).
  assert (Hzero : forall p,
            (forall i, (i < nframes)%nat -> cover (hanning n_fft) hop_length i p = 0) ->
            gain (hanning n_fft) hop_length nframes p = 0).
  { intros p Hc. unfold gain, energy_total.
    rewrite (Rsum_ext _ (fun _ => 0))
      by (intros i Hi; rewrite Hc by exact Hi; ring).
    rewrite Rsum_zero. unfold Rdiv. ring. }
  split.
  - rewrite Hnth by lia. rewrite Hzero; [ring|].
    intros i Hi. unfold cover.
    destruct (Nat.leb_spec (i * hop_length) 0) as [Hle|Hgt]; cbn [andb];
      [|reflexivity].
    assert (i * hop_length = 0)%nat as -> by lia.
    destruct (0 <? 0 + length (hanning n_fft))%nat; [exact H0 | reflexivity].
  - rewrite Hlen. rewrite Hnth by lia. rewrite Hzero; [ring|].
    intros i Hi. unfold cover. rewrite hanning_length.
    assert (Hnf : (1 <= nframes)%nat) by (unfold nframes; lia).
    destruct (Nat.eq_dec i (nframes - 1)) as [->|Hne].
    + destruct ((_ <=? _)%nat && (_ <? _)%nat); [|reflexivity].
      replace ((nframes - 1) * hop_length + n_fft - 1 - (nframes - 1) * hop_length)%nat
        with (n_fft - 1)%nat by lia.
      exact H1.
    + assert ((i + 1) * hop_length <= (nframes - 1) * hop_length)%nat
        by (apply Nat.mul_le_mono_r; lia).
      destruct (Nat.ltb_spec ((nframes - 1) * hop_length + n_fft - 1)
                             (i * hop_length + n_fft)) as [Hlt|Hge];
        [lia|].
      rewrite andb_false_r. reflexivity.
Qed.

Lemma reconstruction_ends_zero_witness :
  (0 < 2)%nat /\ (2 <= 4)%nat /\ (4 <= length [1; 2; 3; 4; 5])%nat /\
  exists reconstructed,
    manual_stft_istft [1; 2; 3; 4; 5] 4 2 = Ok reconstructed /\
    nth 0 reconstructed 0 = 0 /\
    nth (length reconstructed - 1) reconstructed 0 = 0.
Proof.
  split; [lia|]. split; [lia|]. split; [simpl; lia|].
  apply (reconstruction_ends_zero [1; 2; 3; 4; 5] 4 2); simpl; lia.
Defined.

(** The first exception of a list comprehension whose body raises one kind
    of exception only. *)
Lemma mapM_Raise {A B : Type} (f : A -> result B) (l : list A) (err : pyerr) :
  (forall a e, In a l -> f a = Raise e -> e = err) ->
  (exists a, In a l /\ f a = Raise err) ->
  mapM f l = Raise err.
Proof.
  induction l as [|a l IH]; intros Honly [b [Hb Hfb]].
  - destruct Hb.
  - cbn [mapM]. destruct (f a) as [v|e] eqn:Ea.
    + cbn [bind]. rewrite IH.
      * reflexivity.
      * intros a' e' Ha'. apply Honly. right. exact Ha'.
      * destruct Hb as [<-|Hb]; [congruence|]. exists b. split; assumption.
    + cbn [bind]. f_equal. apply (Honly a e); [left; reflexivity | exact Ea].
Qed.

Lemma num_chunks_0 (chunk_size : nat) :
  (0 < chunk_size)%nat -> num_chunks 0 chunk_size = 0%nat.
Proof.
  intros Hc. unfold num_chunks. apply Nat.div_small. lia.
Qed.

Lemma num_chunks_pos (time_frames chunk_size : nat) :
  (0 < chunk_size)%nat -> (1 <= time_frames)%nat ->
  (1 <= num_chunks time_frames chunk_size)%nat.
Proof.
  intros Hc Ht.
  pose proof (num_chunks_ceil time_frames chunk_size Hc Ht) as H.
  destruct (num_chunks time_frames chunk_size); [simpl in H; lia | lia].
Qed.

Section InferenceErrors.

Variable f32 : R -> R.
Variable session_run : list (ndarray3 R) -> list (ndarray3 R).

Lemma input_data_no_channels (s : ndarray3 C) (chunk_size i : nat) :
  dim0 s = 0%nat -> input_data f32 s chunk_size i = Raise IndexError.
Proof.
  intros H0. unfold input_data. cbv zeta.
  destruct (model_part_dims f32 Cre s) as [Hr0 [_ Hr2]].
  destruct (padded_chunk_dims (model_part f32 Cre s) (dim2 s) chunk_size i
              (eq_sym Hr2)) as [Pr0 _].
  unfold plane at 1. rewrite Pr0, Hr0, H0. reflexivity.
Qed.

(** A turn of the chunk loop raises nothing but [IndexError]. *)
Lemma combined_mask_raises (mask_chunk : ndarray3 R) (extent chunk_size : nat) :
  if (4 <=? dim0 mask_chunk)%nat
  then exists m, combined_mask mask_chunk extent chunk_size = Ok m
  else combined_mask mask_chunk extent chunk_size = Raise IndexError.
Proof.
  unfold combined_mask.
  destruct (Nat.leb_spec 4 (dim0 mask_chunk)) as [H4|H4].
  - rewrite !plane_Ok by lia. cbn [bind].
    unfold complex_plane, same_shape2. cbn [nrows ncols].
    rewrite !Nat.eqb_refl. cbn [andb bind].
    unfold np_stack, same_shape2. cbn [forallb nrows ncols andb].
    rewrite !Nat.eqb_refl. cbn [andb bind].
    eexists. reflexivity.
  - unfold plane.
    destruct (Nat.ltb_spec 0 (dim0 mask_chunk)); cbn [bind]; [|reflexivity].
    destruct (Nat.ltb_spec 1 (dim0 mask_chunk)); cbn [bind]; [|reflexivity].
    destruct (Nat.ltb_spec 2 (dim0 mask_chunk)); cbn [bind]; [|reflexivity].
    destruct (Nat.ltb_spec 3 (dim0 mask_chunk)); cbn [bind]; [lia|reflexivity].
Qed.

Lemma chunk_mask_raises (s : ndarray3 C) (chunk_size i : nat) (e : pyerr) :
  chunk_mask f32 session_run s chunk_size i = Raise e -> e = IndexError.
Proof.
  unfold chunk_mask. cbv zeta.
  destruct (Nat.eq_dec (dim0 s) 0) as [H0|H0].
  - rewrite input_data_no_channels by exact H0. cbn [bind]. congruence.
  - destruct (input_data_spec f32 s chunk_size i ltac:(lia)) as [x [Hx _]].
    rewrite Hx. cbn [bind].
    destruct (session_run [x]) as [|out rest]; [congruence|].
    pose proof (combined_mask_raises out
                  (Nat.min ((i + 1) * chunk_size) (dim2 s) - i * chunk_size)
                  chunk_size) as Hc.
    destruct (4 <=? dim0 out)%nat.
    + destruct Hc as [m Hm]. rewrite Hm. discriminate.
    + rewrite Hc. congruence.
Qed.

Lemma chunk_mask_few_planes (s : ndarray3 C) (chunk_size i : nat) :
  (1 <= dim0 s)%nat ->
  (dim0 (model_output f32 session_run s chunk_size i) < 4)%nat ->
  chunk_mask f32 session_run s chunk_size i = Raise IndexError.
Proof.
  intros Hc. unfold chunk_mask, model_output. cbv zeta.
  destruct (input_data_spec f32 s chunk_size i Hc) as [x [Hx _]].
  rewrite Hx. cbn [bind].
  destruct (session_run [x]) as [|out rest]; [reflexivity|].
  cbn [hd]. intros H4.
  pose proof (combined_mask_raises out
                (Nat.min ((i + 1) * chunk_size) (dim2 s) - i * chunk_size)
                chunk_size) as Hcm.
  destruct (Nat.leb_spec 4 (dim0 out)); [lia | exact Hcm].
Qed.

Lemma run_onnx_inference_pos (s : ndarray3 C) (chunk_size : nat) :
  (0 < chunk_size)%nat ->
  run_onnx_inference f32 session_run s chunk_size =
  (masks <- mapM (chunk_mask f32 session_run s chunk_size)
                 (seq 0 (num_chunks (dim2 s) chunk_size)) ;;
   np_concatenate2 C0 masks).
Proof.
  intros Hc. unfold run_onnx_inference. destruct chunk_size; [lia | reflexivity].
Qed.

End InferenceErrors.

(** X4.  What [run_onnx_inference] raises on degenerate inputs: a chunk size
    of 0 is a division by zero; a spectrogram without time frames gives no
    chunk and [np.concatenate] refuses the empty list; a spectrogram without
    channels, and a model that answers some chunk with an empty batch or
    with fewer than four planes, end in an [IndexError]. *)
Theorem run_onnx_inference_errors
    (f32 : R -> R) (session_run : list (ndarray3 R) -> list (ndarray3 R))
    (s : ndarray3 C) (chunk_size : nat) :
  (chunk_size = 0%nat ->
   run_onnx_inference f32 session_run s chunk_size = Raise ZeroDivisionError) /\
  ((0 < chunk_size)%nat -> dim2 s = 0%nat ->
   run_onnx_inference f32 session_run s chunk_size = Raise ValueError) /\
  ((0 < chunk_size)%nat -> (1 <= dim2 s)%nat -> dim0 s = 0%nat ->
   run_onnx_inference f32 session_run s chunk_size = Raise IndexError) /\
  ((0 < chunk_size)%nat -> (1 <= dim0 s)%nat ->
   forall i, (i < num_chunks (dim2 s) chunk_size)%nat ->
     (dim0 (model_output f32 session_run s chunk_size i) < 4)%nat ->
     run_onnx_inference f32 session_run s chunk_size = Raise IndexError).
Proof.
  split; [|split; [|split]].
  - intros ->. reflexivity.
  - intros Hc Ht. rewrite run_onnx_inference_pos by exact Hc.
    rewrite Ht, num_chunks_0 by exact Hc. reflexivity.
  - intros Hc Ht H0. rewrite run_onnx_inference_pos by exact Hc.
    rewrite (mapM_Raise _ _ IndexError); [reflexivity | |].
    + intros a e _. apply chunk_mask_raises.
    + exists 0%nat. split.
      * apply in_seq. pose proof (num_chunks_pos (dim2 s) chunk_size Hc Ht). lia.
      * unfold chunk_mask. cbv zeta.
        rewrite input_data_no_channels by exact H0. reflexivity.
  - intros Hc Hch i Hi Hfew. rewrite run_onnx_inference_pos by exact Hc.
    rewrite (mapM_Raise _ _ IndexError); [reflexivity | |].
    + intros a e _. apply chunk_mask_raises.
    + exists i. split.
      * apply in_seq. lia.
      * apply chunk_mask_few_planes; assumption.
Qed.

Lemma run_onnx_inference_errors_witness :
  run_onnx_inference (fun r => r) echo_model mono_spectrogram 0
    = Raise ZeroDivisionError /\
  run_onnx_inference (fun r => r) echo_model no_frames_spectrogram 2
    = Raise ValueError /\
  run_onnx_inference (fun r => r) echo_model no_channels_spectrogram 2
    = Raise IndexError /\
  run_onnx_inference (fun r => r) silent_model mono_spectrogram 2
    = Raise IndexError.
Proof.
  split; [|split; [|split]].
  - apply (proj1 (run_onnx_inference_errors (fun r => r) echo_model
                    mono_spectrogram 0)).
    reflexivity.
  - apply (proj1 (proj2 (run_onnx_inference_errors (fun r => r) echo_model
                           no_frames_spectrogram 2))).
    + lia.
    + reflexivity.
  - apply (proj1 (proj2 (proj2 (run_onnx_inference_errors (fun r => r) echo_model
                                  no_channels_spectrogram 2)))).
    + lia.
    + simpl; lia.
    + reflexivity.
  - apply (proj2 (proj2 (proj2 (run_onnx_inference_errors (fun r => r) silent_model
                                  mono_spectrogram 2))) ltac:(lia)
                 ltac:(simpl; lia) 0%nat).
    + vm_compute; lia.
    + vm_compute; lia.
Defined.

(** The mask of a well-behaved model: its shape. *)
Lemma run_onnx_inference_Ok
    (f32 : R -> R) (session_run : list (ndarray3 R) -> list (ndarray3 R))
    (s : ndarray3 C) (chunk_size F_out : nat) :
  (1 <= dim0 s)%nat ->
  (0 < chunk_size)%nat ->
  (1 <= dim2 s)%nat ->
  (forall x,
     shape3 x = (4%nat, Nat.min 2048 (dim1 s), chunk_size) ->
     exists out rest,
       session_run [x] = out :: rest /\ shape3 out = (4%nat, F_out, chunk_size)) ->
  exists full_mask,
    run_onnx_inference f32 session_run s chunk_size = Ok full_mask /\
    dim0 full_mask = 2%nat /\ dim1 full_mask = F_out /\ dim2 full_mask = dim2 s.
Proof.
  intros Hch Hcs Ht Hfix.
  pose proof (num_chunks_ceil (dim2 s) chunk_size Hcs Ht) as Hceil.
  rewrite run_onnx_inference_pos by exact Hcs.
  remember (num_chunks (dim2 s) chunk_size) as n eqn:En.
  pose proof (mask_of_chunk_spec f32 session_run s chunk_size F_out Hch Hcs Hfix) as Hm.
  set (g := mask_of_chunk f32 session_run s chunk_size) in *.
  assert (Hext : forall k j, (k <= j < k + n)%nat ->
            dim2 (g j) = chunk_extent (dim2 s) chunk_size j)
    by (intros k j _; apply (Hm j)).
  rewrite (mapM_Ok_map _ g) by (intros i _; apply (Hm i)).
  cbn [bind]. unfold np_concatenate2.
  destruct n as [|n']; [lia|].
  cbn [seq map].
  assert (Hall : forallb (fun a => (dim0 a =? dim0 (g O))%nat
                                   && (dim1 a =? dim1 (g O))%nat)
                         (g O :: map g (seq 1 n')) = true).
  { apply forallb_forall. intros a Ha.
    change (g O :: map g (seq 1 n')) with (map g (seq 0 (S n'))) in Ha.
    apply in_map_iff in Ha. destruct Ha as [j [<- _]].
    destruct (Hm j) as [_ [Hj0 [Hj1 _]]]. destruct (Hm O) as [_ [H00 [H01 _]]].
    rewrite Hj0, Hj1, H00, H01, !Nat.eqb_refl. reflexivity. }
  rewrite Hall.
  eexists. split; [reflexivity|].
  change (g O :: map g (seq 1 n')) with (map g (seq 0 (S n'))).
  cbn [dim0 dim1 dim2].
  destruct (Hm O) as [_ [H00 [H01 _]]].
  split; [exact H00|]. split; [exact H01|].
  rewrite (sum_chunk_extents g (dim2 s) chunk_size (S n') 0) by (apply Hext).
  rewrite Nat.min_r by lia. cbn [Nat.mul Nat.min]. lia.
Qed.

Lemma np_multiply_Ok (a b : ndarray3 C) (d0 d1 d2 : nat) :
  broadcast_dim (dim0 a) (dim0 b) = Some d0 ->
  broadcast_dim (dim1 a) (dim1 b) = Some d1 ->
  broadcast_dim (dim2 a) (dim2 b) = Some d2 ->
  np_multiply a b =
  Ok (mk_ndarray3 d0 d1 d2
        (fun i j k =>
           Cmul (item a (bidx (dim0 a) i) (bidx (dim1 a) j) (bidx (dim2 a) k))
                (item b (bidx (dim0 b) i) (bidx (dim1 b) j) (bidx (dim2 b) k)))).
Proof.
  intros E0 E1 E2. unfold np_multiply. rewrite E0, E1, E2. reflexivity.
Qed.

(** X5.  The masking step of [main] after [run_onnx_inference], with a
    model that returns as many frequency bins as it is given.  The mask has
    two channels whatever the input has, so for a spectrogram of one or two
    channels the product has shape [2, min(2048, F), T], a mono input being
    read for both channels; a spectrogram of three channels or more passes
    [run_onnx_inference] and is then refused by the product with a
    [ValueError]. *)
Theorem masking_after_inference
    (f32 : R -> R) (session_run : list (ndarray3 R) -> list (ndarray3 R))
    (s : ndarray3 C) (chunk_size : nat) :
  (1 <= dim0 s)%nat ->
  (0 < chunk_size)%nat ->
  (1 <= dim2 s)%nat ->
  (forall x,
     shape3 x = (4%nat, Nat.min 2048 (dim1 s), chunk_size) ->
     exists out rest,
       session_run [x] = out :: rest /\ shape3 out = shape3 x) ->
  exists vocal_mask,
    run_onnx_inference f32 session_run s chunk_size = Ok vocal_mask /\
    ((dim0 s <= 2)%nat ->
     exists vocal_spec,
       apply_mask (take_freq 2048 s) vocal_mask = Ok vocal_spec /\
       shape3 vocal_spec = (2%nat, Nat.min 2048 (dim1 s), dim2 s) /\
       forall c f t,
         (c < 2)%nat -> (f < Nat.min 2048 (dim1 s))%nat -> (t < dim2 s)%nat ->
         item vocal_spec c f t =
         Cmul (item s (if (dim0 s =? 1)%nat then 0%nat else c) f t)
              (item vocal_mask c f t)) /\
    ((3 <= dim0 s)%nat ->
     apply_mask (take_freq 2048 s) vocal_mask = Raise ValueError).
Proof.
  intros Hch Hcs Ht Hfix.
  destruct (run_onnx_inference_Ok f32 session_run s chunk_size
              (Nat.min 2048 (dim1 s)) Hch Hcs Ht) as [m [Hm [M0 [M1 M2]]]].
  { intros x Hx. destruct (Hfix x Hx) as [out [rest [Hr Ho]]].
    exists out, rest. split; [exact Hr | congruence]. }
  exists m. split; [exact Hm|]. split.
  - intros H2. unfold apply_mask.
    assert (E0 : broadcast_dim (dim0 (take_freq 2048 s)) (dim0 m) = Some 2%nat).
    { unfold take_freq. cbn [dim0]. rewrite M0. unfold broadcast_dim.
      destruct (Nat.eqb_spec (dim0 s) 2) as [->|Hne]; [reflexivity|].
      destruct (Nat.eqb_spec (dim0 s) 1); [reflexivity | lia]. }
    assert (E1 : broadcast_dim (dim1 (take_freq 2048 s)) (dim1 m)
                 = Some (Nat.min 2048 (dim1 s))).
    { unfold take_freq. cbn [dim1]. rewrite M1. apply broadcast_dim_same. }
    assert (E2 : broadcast_dim (dim2 (take_freq 2048 s)) (dim2 m) = Some (dim2 s)).
    { unfold take_freq. cbn [dim2]. rewrite M2. apply broadcast_dim_same. }
    rewrite (np_multiply_Ok _ _ _ _ _ E0 E1 E2).
    eexists. split; [reflexivity|]. split; [reflexivity|].
    intros c f t Hc Hf Htt. cbn [item].
    rewrite M0, M1, M2.
    rewrite (bidx_in_range 2 c), (bidx_in_range (Nat.min 2048 (dim1 s)) f),
      (bidx_in_range (dim2 s) t) by assumption.
    unfold take_freq. cbn [dim0 dim1 dim2 item].
    rewrite (bidx_in_range (Nat.min 2048 (dim1 s)) f),
      (bidx_in_range (dim2 s) t) by assumption.
    reflexivity.
  - intros H3. unfold apply_mask, np_multiply.
    assert (E0 : broadcast_dim (dim0 (take_freq 2048 s)) (dim0 m) = None).
    { unfold take_freq. cbn [dim0]. rewrite M0. unfold broadcast_dim.
      destruct (Nat.eqb_spec (dim0 s) 2); [lia|].
      destruct (Nat.eqb_spec (dim0 s) 1); [lia|].
      reflexivity. }
    rewrite E0. reflexivity.
Qed.

Lemma masking_after_inference_witness :
  (1 <= dim0 mono_spectrogram)%nat /\
  (0 < 2)%nat /\
  (1 <= dim2 mono_spectrogram)%nat /\
  (forall x,
     shape3 x = (4%nat, Nat.min 2048 (dim1 mono_spectrogram), 2%nat) ->
     exists out rest,
       echo_model [x] = out :: rest /\ shape3 out = shape3 x) /\
  exists vocal_mask,
    run_onnx_inference (fun r => r) echo_model mono_spectrogram 2 = Ok vocal_mask /\
    exists vocal_spec,
      apply_mask (take_freq 2048 mono_spectrogram) vocal_mask = Ok vocal_spec /\
      shape3 vocal_spec = (2%nat, 1%nat, 3%nat).
Proof.
  assert (Hfix : forall x,
     shape3 x = (4%nat, Nat.min 2048 (dim1 mono_spectrogram), 2%nat) ->
     exists out rest,
       echo_model [x] = out :: rest /\ shape3 out = shape3 x).
  { intros x Hx. exists x, []. split; reflexivity. }
  split; [simpl; lia|]. split; [lia|]. split; [simpl; lia|]. split; [exact Hfix|].
  destruct (masking_after_inference (fun r => r) echo_model mono_spectrogram 2
              ltac:(simpl; lia) ltac:(lia) ltac:(simpl; lia) Hfix)
    as [vocal_mask [Hrun [Hsmall _]]].
  exists vocal_mask. split; [exact Hrun|].
  destruct (Hsmall ltac:(simpl; lia)) as [vocal_spec [Hv [Hs _]]].
  exists vocal_spec. split; [exact Hv | exact Hs].
Defined.

Lemma Cmod_C0 : Cmod C0 = 0.
Proof.
  unfold Cmod, C0. cbn [fst snd].
  replace (0 * 0 + 0 * 0) with 0 by ring. apply sqrt_0.
Qed.

Lemma C0_dec (z : C) : {z = C0} + {z <> C0}.
Proof.
  destruct z as [x y].
  destruct (Req_EM_T x 0) as [->|Hx].
  - destruct (Req_EM_T y 0) as [->|Hy].
    + left. reflexivity.
    + right. intros H. apply Hy. injection H. trivial.
  - right. intros H. apply Hx. injection H. trivial.
Qed.

(** Every complex number is its modulus times the unit number of its
    argument. *)
Lemma polar_form (z : C) : z = Cscale (Cmod z) (cis (angle z)).
Proof.
  destruct (C0_dec z) as [->|Hz].
  - rewrite Cmod_C0. unfold Cscale, C0. cbn [fst snd]. f_equal; ring.
  - rewrite cis_angle by exact Hz.
    pose proof (Cmod_pos z Hz).
    destruct z as [x y]. unfold Cscale. cbn [fst snd]. f_equal; field; lra.
Qed.

Lemma Cmod_mul (z w : C) : Cmod (Cmul z w) = Cmod z * Cmod w.
Proof.
  unfold Cmod, Cmul. cbn [fst snd].
  rewrite <- sqrt_mult by nra. f_equal. ring.
Qed.

Lemma atan2_range (y x : R) : - PI < atan2 y x <= PI.
Proof.
  pose proof PI_RGT_0 as HPI.
  unfold atan2.
  destruct (Rlt_dec 0 x) as [Hx|Hx].
  - pose proof (atan_bound (y / x)). lra.
  - destruct (Rlt_dec x 0) as [Hx'|Hx'].
    + pose proof (atan_bound (y / x)) as Hb.
      assert (Hix : / x < 0) by (apply Rinv_lt_0_compat; exact Hx').
      destruct (Rle_dec 0 y) as [Hy|Hy].
      * assert (y / x <= 0) by (unfold Rdiv; nra).
        assert (atan (y / x) <= 0).
        { destruct (Req_dec (y / x) 0) as [E|E].
          - rewrite E, atan_0. lra.
          - rewrite <- atan_0. left. apply atan_increasing. lra. }
        lra.
      * assert (0 < y / x) by (unfold Rdiv; nra).
        assert (0 < atan (y / x))
          by (rewrite <- atan_0; apply atan_increasing; assumption).
        lra.
    + destruct (Rlt_dec 0 y); [lra|].
      destruct (Rlt_dec y 0); lra.
Qed.

(** X6.  The two stems of [main].  The instrumental spectrogram is the
    spectrogram times the complement of the vocal mask, so the sum of the
    two stems is the mixture turned by the phase of the mask: its magnitude
    is that of the mixture everywhere, and the sum is the mixture itself
    where the mask is a positive real number. *)
Theorem stems_recombine (spectrogram vocal_mask : ndarray3 C) :
  shape3 spectrogram = shape3 vocal_mask ->
  exists vocal_spec inst_spec,
    apply_mask spectrogram vocal_mask = Ok vocal_spec /\
    apply_mask spectrogram (instrumental_mask vocal_mask) = Ok inst_spec /\
    shape3 vocal_spec = shape3 spectrogram /\
    shape3 inst_spec = shape3 spectrogram /\
    forall i j k,
      (i < dim0 spectrogram)%nat -> (j < dim1 spectrogram)%nat ->
      (k < dim2 spectrogram)%nat ->
      let z := item spectrogram i j k in
      let m := item vocal_mask i j k in
      Cadd (item vocal_spec i j k) (item inst_spec i j k) =
        Cmul z (cis (angle m)) /\
      Cmod (Cadd (item vocal_spec i j k) (item inst_spec i j k)) = Cmod z /\
      (0 < fst m -> snd m = 0 ->
       Cadd (item vocal_spec i j k) (item inst_spec i j k) = z).
Proof.
  intros Hs. injection Hs as H0 H1 H2.
  unfold apply_mask, np_multiply, instrumental_mask, map3.
  cbn [dim0 dim1 dim2 item].
  rewrite <- H0, <- H1, <- H2, !broadcast_dim_same.
  eexists. eexists. split; [reflexivity|]. split; [reflexivity|].
  split; [reflexivity|]. split; [reflexivity|].
  intros i j k Hi Hj Hk. cbv zeta. cbn [item].
  rewrite !bidx_in_range by assumption.
  set (z := item spectrogram i j k). set (m := item vocal_mask i j k).
  assert (Hsum : Cadd (Cmul z m) (Cmul z (complement m)) = Cmul z (cis (angle m))).
  { unfold complement.
    rewrite (polar_form m) at 1.
    unfold Cadd, Cmul, Cscale. cbn [fst snd]. f_equal; ring. }
  rewrite Hsum. split; [reflexivity|]. split.
  - rewrite Cmod_mul, Cmod_cis. ring.
  - intros Hre Him. unfold angle, atan2. rewrite Him.
    destruct (Rlt_dec 0 (fst m)) as [_|Hn]; [|contradiction].
    replace (0 / fst m) with 0 by (unfold Rdiv; ring).
    rewrite atan_0, cis_0. unfold Cmul. cbn [fst snd].
    destruct z as [a b]. cbn [fst snd]. f_equal; ring.
Qed.

Lemma stems_recombine_witness :
  shape3 stereo_mask = shape3 stereo_mask /\
  exists vocal_spec inst_spec,
    apply_mask stereo_mask stereo_mask = Ok vocal_spec /\
    apply_mask stereo_mask (instrumental_mask stereo_mask) = Ok inst_spec /\
    shape3 vocal_spec = shape3 stereo_mask /\
    shape3 inst_spec = shape3 stereo_mask.
Proof.
  split; [reflexivity|].
  destruct (stems_recombine stereo_mask stereo_mask eq_refl)
    as [v [i [Hv [Hi [Sv [Si _]]]]]].
  exists v, i. repeat split; assumption.
Defined.

Lemma frame_fft_length (signal : list R) :
  length (dft (map RtoC (map2 Rmult signal (hann_periodic (length signal)))))
  = length signal.
Proof. rewrite dft_length, length_map. apply windowed_length. Qed.

Lemma nth_map_firstn {A B : Type} (f : A -> B) (l : list A) (m i : nat)
      (d : A) (d' : B) :
  (i < m)%nat -> (i < length l)%nat ->
  nth i (map f (firstn m l)) d' = f (nth i l d).
Proof.
  intros Hm Hl.
  apply nth_error_nth. apply nth_error_map_firstn; assumption.
Qed.

(** X7.  The arrays that [compare_dft_single_frame.py] keeps, the real and
    imaginary parts of bins 0 .. N/2, determine the whole transform of the
    windowed frame: every bin above N/2 is the conjugate of the kept bin
    N - k. *)
Theorem half_spectrum_determines_transform (signal : list R) :
  signal <> [] ->
  let N := length signal in
  exists fft_result re im,
    frame_fft signal = Ok fft_result /\
    real_part signal = Ok re /\
    imag_part signal = Ok im /\
    length fft_result = N /\
    length re = (N / 2 + 1)%nat /\
    length im = (N / 2 + 1)%nat /\
    (forall k, (k <= N / 2)%nat ->
       nth k fft_result C0 = (nth k re 0, nth k im 0)) /\
    (forall k, (N / 2 < k < N)%nat ->
       nth k fft_result C0 = (nth (N - k) re 0, - nth (N - k) im 0)).
Proof.
  intros Hs. cbv zeta.
  assert (Hpos : (0 < length signal)%nat) by (apply nonempty_length, Hs).
  pose proof (Nat.div_mod_eq (length signal) 2) as Hdm.
  pose proof (Nat.mod_upper_bound (length signal) 2 ltac:(lia)) as Hmu.
  unfold real_part, imag_part. rewrite frame_fft_Ok by exact Hs. cbn [bind].
  set (w := map2 Rmult signal (hann_periodic (length signal))).
  assert (Hw : length w = length signal) by apply windowed_length.
  assert (HX : length (dft (map RtoC w)) = length signal)
    by apply frame_fft_length.
  eexists. eexists. eexists.
  split; [reflexivity|]. split; [reflexivity|]. split; [reflexivity|].
  unfold frequency_bins.
  split; [exact HX|].
  split; [rewrite length_map, length_firstn, HX; lia|].
  split; [rewrite length_map, length_firstn, HX; lia|].
  split.
  - intros k Hk.
    rewrite (nth_map_firstn Cre _ _ _ C0), (nth_map_firstn Cim _ _ _ C0)
      by (rewrite ?HX; lia).
    unfold Cre, Cim. apply surjective_pairing.
  - intros k Hk.
    rewrite (nth_map_firstn Cre _ _ _ C0), (nth_map_firstn Cim _ _ _ C0)
      by (rewrite ?HX; lia).
    replace k with (length w - (length signal - k))%nat at 1 by lia.
    rewrite dft_real_conj by lia.
    reflexivity.
Qed.

Lemma half_spectrum_determines_transform_witness :
  [1; 2; 3] <> [] /\
  exists fft_result re im,
    frame_fft [1; 2; 3] = Ok fft_result /\
    real_part [1; 2; 3] = Ok re /\
    imag_part [1; 2; 3] = Ok im /\
    nth 2 fft_result C0 = (nth 1 re 0, - nth 1 im 0).
Proof.
  split; [discriminate|].
  destruct (half_spectrum_determines_transform [1; 2; 3] ltac:(discriminate))
    as [X [re [im [HX [Hre [Him [_ [_ [_ [_ Hhigh]]]]]]]]]].
  exists X, re, im. repeat split; try assumption.
  apply (Hhigh 2%nat). simpl. lia.
Defined.

(** X8.  Magnitude and phase against real and imaginary part, as the
    script saves them: on every kept bin the real part is
    magnitude * cos(phase) and the imaginary part magnitude * sin(phase);
    the magnitude is not negative and the phase lies between -pi and pi. *)
Theorem polar_arrays_consistent (signal : list R) :
  signal <> [] ->
  exists re im mag ph,
    real_part signal = Ok re /\ imag_part signal = Ok im /\
    magnitude signal = Ok mag /\ phase signal = Ok ph /\
    length mag = frequency_bins (length signal) /\
    length ph = frequency_bins (length signal) /\
    forall k, (k < frequency_bins (length signal))%nat ->
      nth k re 0 = nth k mag 0 * cos (nth k ph 0) /\
      nth k im 0 = nth k mag 0 * sin (nth k ph 0) /\
      nth k mag 0 * nth k mag 0 = nth k re 0 * nth k re 0 + nth k im 0 * nth k im 0 /\
      0 <= nth k mag 0 /\
      - PI <= nth k ph 0 <= PI.
Proof.
  intros Hs.
  assert (Hpos : (0 < length signal)%nat) by (apply nonempty_length, Hs).
  pose proof (Nat.div_mod_eq (length signal) 2) as Hdm.
  pose proof (Nat.mod_upper_bound (length signal) 2 ltac:(lia)) as Hmu.
  unfold real_part, imag_part, magnitude, phase.
  rewrite frame_fft_Ok by exact Hs. cbn [bind].
  set (X := dft (map RtoC (map2 Rmult signal (hann_periodic (length signal))))).
  assert (HX : length X = length signal) by apply frame_fft_length.
  eexists. eexists. eexists. eexists.
  split; [reflexivity|]. split; [reflexivity|].
  split; [reflexivity|]. split; [reflexivity|].
  unfold frequency_bins.
  split; [rewrite length_map, length_firstn, HX; lia|].
  split; [rewrite length_map, length_firstn, HX; lia|].
  intros k Hk.
  rewrite (nth_map_firstn Cre _ _ _ C0), (nth_map_firstn Cim _ _ _ C0),
    (nth_map_firstn Cmod _ _ _ C0), (nth_map_firstn angle _ _ _ C0)
    by (rewrite ?HX; lia).
  set (z := nth k X C0).
  pose proof (polar_form z) as Hp.
  pose proof (Cmod_nonneg z) as Hn.
  split; [|split; [|split; [|split]]].
  - unfold Cre. rewrite Hp at 1. reflexivity.
  - unfold Cim. rewrite Hp at 1. reflexivity.
  - unfold Cmod, Cre, Cim. rewrite sqrt_sqrt; [reflexivity | nra].
  - exact Hn.
  - pose proof (atan2_range (snd z) (fst z)) as Hr. unfold angle. lra.
Qed.

Lemma polar_arrays_consistent_witness :
  [1; 2; 3] <> [] /\
  exists re im mag ph,
    real_part [1; 2; 3] = Ok re /\ imag_part [1; 2; 3] = Ok im /\
    magnitude [1; 2; 3] = Ok mag /\ phase [1; 2; 3] = Ok ph /\
    nth 1 re 0 = nth 1 mag 0 * cos (nth 1 ph 0) /\
    nth 1 im 0 = nth 1 mag 0 * sin (nth 1 ph 0).
Proof.
  split; [discriminate|].
  destruct (polar_arrays_consistent [1; 2; 3] ltac:(discriminate))
    as [re [im [mag [ph [Hre [Him [Hmag [Hph [_ [_ Hk]]]]]]]]]].
  exists re, im, mag, ph. repeat split; try assumption.
  - apply (Hk 1%nat). vm_compute. lia.
  - apply (Hk 1%nat). vm_compute. lia.
Defined.

Lemma np_round_nearest (x : R) : Rabs (IZR (np_round x) - x) <= 1 / 2.
Proof.
  unfold np_round. cbv zeta.
  destruct (base_Int_part x) as [Hlo Hhi].
  destruct (Rlt_dec (x - IZR (Int_part x)) (1 / 2)) as [H1|H1].
  - rewrite Rabs_left1 by lra. lra.
  - destruct (Rlt_dec (1 / 2) (x - IZR (Int_part x))) as [H2|H2].
    + rewrite plus_IZR. rewrite Rabs_pos_eq by lra. lra.
    + destruct (Z.even (Int_part x)).
      * rewrite Rabs_left1 by lra. lra.
      * rewrite plus_IZR. rewrite Rabs_pos_eq by lra. lra.
Qed.

Lemma np_round_Int_part (x : R) :
  (Int_part x <= np_round x <= Int_part x + 1)%Z.
Proof.
  unfold np_round. cbv zeta.
  destruct (Rlt_dec (x - IZR (Int_part x)) (1 / 2)); [lia|].
  destruct (Rlt_dec (1 / 2) (x - IZR (Int_part x))); [lia|].
  destruct (Z.even (Int_part x)); lia.
Qed.

(** X9.  [expected_bin] is the bin nearest to the frequency: the centre
    frequency of that bin, expected_bin * sample_rate / n_fft, is within
    half a bin width of [frequency].  The truncating [freq_440_bin] of the
    other scripts is the same bin or the one below, and its centre is never
    above 440 Hz. *)
Theorem expected_bin_nearest (frequency sample_rate : R) (n_fft : nat) :
  0 < sample_rate -> (0 < n_fft)%nat ->
  Rabs (IZR (expected_bin frequency sample_rate n_fft) * sample_rate / INR n_fft
        - frequency) <= sample_rate / INR n_fft / 2 /\
  (freq_440_bin n_fft sample_rate <= expected_bin 440 sample_rate n_fft
   <= freq_440_bin n_fft sample_rate + 1)%Z /\
  IZR (freq_440_bin n_fft sample_rate) * sample_rate / INR n_fft <= 440.
Proof.
  intros Hsr HN.
  assert (HNr : 0 < INR n_fft) by (apply lt_0_INR; exact HN).
  assert (Hw : 0 < sample_rate / INR n_fft)
    by (apply Rdiv_lt_0_compat; assumption).
  split; [|split].
  - unfold expected_bin.
    set (x := frequency * INR n_fft / sample_rate).
    pose proof (np_round_nearest x) as Hn.
    replace (IZR (np_round x) * sample_rate / INR n_fft - frequency)
      with ((IZR (np_round x) - x) * (sample_rate / INR n_fft))
      by (unfold x; field; lra).
    rewrite Rabs_mult, (Rabs_pos_eq (sample_rate / INR n_fft)) by lra.
    nra.
  - unfold expected_bin, freq_440_bin. apply np_round_Int_part.
  - unfold freq_440_bin.
    destruct (base_Int_part (440 * INR n_fft / sample_rate)) as [Hlo _].
    apply Rmult_le_compat_r with (r := sample_rate / INR n_fft) in Hlo; [|lra].
    replace (440 * INR n_fft / sample_rate * (sample_rate / INR n_fft))
      with 440 in Hlo by (field; lra).
    unfold Rdiv in *. lra.
Qed.

Lemma expected_bin_nearest_witness :
  0 < 44100 /\ (0 < 4096)%nat /\
  Rabs (IZR (expected_bin 440 44100 4096) * 44100 / INR 4096 - 440)
    <= 44100 / INR 4096 / 2.
Proof.
  split; [lra|]. split; [lia|].
  apply (expected_bin_nearest 440 44100 4096); [lra | lia].
Defined.

(** X10.  [irfft(rfft(test_frame))] of [compare_stft_scaling.py] on a frame
    of any length N: [np.fft.irfft] defaults to 2 * (N/2) output samples, so
    a frame of odd length comes back one sample shorter, and a frame of a
    single sample is refused with a [ValueError]. *)
Theorem rfft_irfft_length (test_frame : list R) :
  test_frame <> [] ->
  (length test_frame = 1%nat -> rfft_irfft test_frame = Raise ValueError) /\
  ((2 <= length test_frame)%nat ->
   exists ifft_no_scale,
     rfft_irfft test_frame = Ok ifft_no_scale /\
     length ifft_no_scale = (2 * (length test_frame / 2))%nat /\
     (Nat.odd (length test_frame) = true ->
      length ifft_no_scale = (length test_frame - 1)%nat)).
Proof.
  intros Hx.
  assert (Hpos : (0 < length test_frame)%nat) by (apply nonempty_length, Hx).
  pose proof (Nat.div_mod_eq (length test_frame) 2) as Hdm.
  pose proof (Nat.mod_upper_bound (length test_frame) 2 ltac:(lia)) as Hmu.
  assert (Hn : (2 * (length (firstn (length test_frame / 2 + 1)
                               (dft (map RtoC test_frame))) - 1)
                = 2 * (length test_frame / 2))%nat).
  { rewrite length_firstn, dft_length, length_map. lia. }
  unfold rfft_irfft, np_irfft.
  rewrite np_rfft_nonempty by exact Hx. cbn [bind]. rewrite Hn.
  split.
  - intros H1. rewrite H1. reflexivity.
  - intros H2. unfold np_irfft_n.
    destruct (2 * (length test_frame / 2))%nat as [|n'] eqn:E; [lia|].
    eexists. split; [reflexivity|].
    rewrite length_map, idft_length.
    unfold hermitian_full. rewrite length_map, length_seq.
    split; [reflexivity|].
    intros Ho. rewrite <- E.
    apply Nat.odd_spec in Ho. destruct Ho as [m Hm].
    rewrite Hm in *. lia.
Qed.

Lemma rfft_irfft_length_witness :
  [1; 2; 3] <> [] /\
  exists ifft_no_scale,
    rfft_irfft [1; 2; 3] = Ok ifft_no_scale /\
    length ifft_no_scale = 2%nat.
Proof.
  split; [discriminate|].
  destruct (proj2 (rfft_irfft_length [1; 2; 3] ltac:(discriminate))
              ltac:(simpl; lia))
    as [y [Hy [Hl _]]].
  exists y. split; [exact Hy | exact Hl].
Defined.

Section PrepareTensor.

Variable f32 : R -> R.

Lemma prepare_part_dims (part : C -> R) (s : ndarray3 C) :
  dim0 (prepare_part f32 part s) = dim0 s /\
  dim1 (prepare_part f32 part s) = Nat.min 2048 (dim1 s) /\
  dim2 (prepare_part f32 part s) = prepare_chunk_size.
Proof.
  destruct (model_part_dims f32 part s) as [H0 [H1 H2]].
  unfold prepare_part. cbv zeta. generalize prepare_chunk_size. intros cs.
  destruct (Nat.ltb_spec cs (dim2 s)).
  - unfold slice_time. cbn [dim0 dim1 dim2]. repeat split; lia.
  - destruct (Nat.ltb_spec (dim2 s) cs).
    + unfold pad_time. cbn [dim0 dim1 dim2]. repeat split; lia.
    + repeat split; lia.
Qed.

Lemma prepare_part_item (part : C -> R) (s : ndarray3 C) (c f t : nat) :
  (t < prepare_chunk_size)%nat ->
  item (prepare_part f32 part s) c f t =
  if (t <? dim2 s)%nat then f32 (part (item s c f t)) else 0.
Proof.
  destruct (model_part_dims f32 part s) as [H0 [H1 H2]].
  unfold prepare_part. cbv zeta. generalize prepare_chunk_size. intros cs Ht.
  destruct (Nat.ltb_spec cs (dim2 s)).
  - unfold slice_time. cbn [item Nat.add].
    rewrite model_part_item.
    destruct (Nat.ltb_spec t (dim2 s)); [reflexivity | lia].
  - destruct (Nat.ltb_spec (dim2 s) cs).
    + unfold pad_time. cbn [item]. rewrite H2, model_part_item. reflexivity.
    + rewrite model_part_item.
      destruct (Nat.ltb_spec t (dim2 s)); [reflexivity | lia].
Qed.

Lemma prepare_model_input_spec (s : ndarray3 C) :
  (1 <= dim0 s)%nat ->
  exists x,
    prepare_model_input f32 s = Ok x /\
    shape3 x = (4%nat, Nat.min 2048 (dim1 s), prepare_chunk_size) /\
    forall p f t, (p < 4)%nat -> (t < prepare_chunk_size)%nat ->
      item x p f t =
      if (t <? dim2 s)%nat
      then f32 (plane_part p (item s (plane_channel (dim0 s) p) f t))
      else 0.
Proof.
  intros Hc. unfold prepare_model_input.
  destruct (prepare_part_dims Cre s) as [Pr0 [Pr1 Pr2]].
  destruct (prepare_part_dims Cim s) as [Pi0 [Pi1 Pi2]].
  cbv zeta.
  set (rc := prepare_part f32 Cre s) in *.
  set (ic := prepare_part f32 Cim s) in *.
  assert (Hright :
    exists c1, c1 = plane_channel (dim0 s) 2 /\
      (if (1 <? dim0 s)%nat then plane rc 1 else plane rc 0) =
        Ok (mk_ndarray2 (dim1 rc) (dim2 rc) (item rc c1)) /\
      (if (1 <? dim0 s)%nat then plane ic 1 else plane ic 0) =
        Ok (mk_ndarray2 (dim1 ic) (dim2 ic) (item ic c1))).
  { unfold plane_channel.
    destruct (Nat.ltb_spec 1 (dim0 s)).
    - exists 1%nat. repeat split; apply plane_Ok; lia.
    - exists 0%nat. repeat split; apply plane_Ok; lia. }
  destruct Hright as [c1 [Hc1 [Er Ei]]]. rewrite Er, Ei.
  rewrite (plane_Ok rc 0) by lia. rewrite (plane_Ok ic 0) by lia. cbn [bind].
  unfold np_stack, same_shape2. cbn [forallb nrows ncols andb].
  rewrite Pr1, Pr2, Pi1, Pi2, !Nat.eqb_refl. cbn [andb].
  eexists. split; [reflexivity|]. split; [reflexivity|].
  intros p f t Hp Ht. cbn [item length].
  assert (Hcases : (p = 0 \/ p = 1 \/ p = 2 \/ p = 3)%nat) by lia.
  assert (Hch : plane_channel (dim0 s) 0 = O /\ plane_channel (dim0 s) 1 = O /\
                plane_channel (dim0 s) 3 = c1).
  { subst c1. unfold plane_channel. destruct (1 <? dim0 s)%nat; auto. }
  destruct Hch as [Hch0 [Hch1 Hch3]].
  destruct Hcases as [-> | [-> | [-> | ->]]]; cbn [nth item2 plane_part Nat.even];
    unfold rc, ic;
    rewrite prepare_part_item by exact Ht;
    rewrite ?Hch0, ?Hch1, ?Hch3, <- ?Hc1;
    reflexivity.
Qed.

End PrepareTensor.

(** X11.  The tensor that [prepare_model_input] of [verify_coreml.py] hands
    to both models is the tensor of chunk 0 of [run_onnx_inference] with a
    chunk size of 256: shape [4, min(2048, F), 256], value for value the
    same inside that shape.  Time frames from 256 on are dropped without
    notice, a shorter spectrogram is padded with zeros. *)
Theorem prepare_model_input_first_chunk (f32 : R -> R) (s : ndarray3 C) :
  (1 <= dim0 s)%nat ->
  prepare_chunk_size = 256%nat /\
  exists x y,
    prepare_model_input f32 s = Ok x /\
    input_data f32 s prepare_chunk_size 0 = Ok y /\
    shape3 x = (4%nat, Nat.min 2048 (dim1 s), prepare_chunk_size) /\
    shape3 y = shape3 x /\
    forall p f t, (p < 4)%nat -> (t < prepare_chunk_size)%nat ->
      item x p f t = item y p f t /\
      item x p f t =
        if (t <? dim2 s)%nat
        then f32 (plane_part p (item s (plane_channel (dim0 s) p) f t))
        else 0.
Proof.
  intros Hc. split; [reflexivity|].
  destruct (prepare_model_input_spec f32 s Hc) as [x [Hx [Sx Ix]]].
  destruct (input_data_spec f32 s prepare_chunk_size 0 Hc) as [y [Hy [Sy Iy]]].
  exists x, y. split; [exact Hx|]. split; [exact Hy|]. split; [exact Sx|].
  split; [congruence|].
  intros p f t Hp Ht. split; [|apply Ix; assumption].
  rewrite Ix, Iy by assumption. rewrite Nat.mul_0_l, Nat.add_0_l. reflexivity.
Qed.

Lemma prepare_model_input_first_chunk_witness :
  (1 <= dim0 mono_spectrogram)%nat /\
  exists x y,
    prepare_model_input (fun r => r) mono_spectrogram = Ok x /\
    input_data (fun r => r) mono_spectrogram prepare_chunk_size 0 = Ok y /\
    shape3 y = shape3 x.
Proof.
  split; [simpl; lia|].
  destruct (prepare_model_input_first_chunk (fun r => r) mono_spectrogram
              ltac:(simpl; lia))
    as [_ [x [y [Hx [Hy [_ [Hs _]]]]]]].
  exists x, y. split; [exact Hx|]. split; [exact Hy | exact Hs].
Defined.

Lemma common_length_le (n : nat) (l : list (ndarray2 R)) :
  (common_length n l <= n)%nat.
Proof.
  revert n. induction l as [|a l IH]; intros n; cbn [common_length fold_left].
  - lia.
  - specialize (IH (Nat.min n (ncols a))). unfold common_length in IH. lia.
Qed.

Lemma np_add2_same (a b : ndarray2 R) :
  nrows a = nrows b -> ncols a = ncols b ->
  np_add2 a b =
  Ok (mk_ndarray2 (nrows a) (ncols a)
        (fun i j => item2 a (bidx (nrows a) i) (bidx (ncols a) j)
                    + item2 b (bidx (nrows b) i) (bidx (ncols b) j))).
Proof.
  intros Hr Hc. unfold np_add2. rewrite <- Hr, <- Hc, !broadcast_dim_same.
  reflexivity.
Qed.

Lemma mix_tracks_Some (ch : nat) (tracks : list (option loaded)) (m : ndarray2 R) :
  nrows m = ch ->
  (forall a, In a (loaded_tracks tracks) -> nrows a = ch) ->
  exists mixed,
    mix_tracks tracks (Some m) = Ok (Some mixed) /\
    nrows mixed = ch /\
    ncols mixed = common_length (ncols m) (loaded_tracks tracks) /\
    forall c j, (c < ch)%nat -> (j < ncols mixed)%nat ->
      item2 mixed c j = sample_sum (item2 m c j) (loaded_tracks tracks) c j.
Proof.
  revert m. induction tracks as [|track rest IH]; intros m Hm Hall.
  - exists m. cbn. repeat split; auto.
  - destruct track as [l|].
    + cbn [mix_tracks mix_step loaded_tracks flat_map app] in *.
      set (audio := load_audio l) in *.
      assert (Ha : nrows audio = ch) by (apply Hall; left; reflexivity).
      rewrite np_add2_same
        by (unfold take_samples; cbn [nrows ncols]; lia).
      cbn [bind].
      match goal with
      | |- context [mix_tracks rest (Some ?m')] => set (m1 := m')
      end.
      destruct (IH m1) as [mixed [Hmix [Hr [Hc Hit]]]].
      * unfold m1, take_samples. cbn [nrows]. exact Hm.
      * intros a Hin. apply Hall. right. exact Hin.
      * exists mixed. split; [exact Hmix|]. split; [exact Hr|].
        assert (Hc1 : ncols m1 = Nat.min (ncols m) (ncols audio)).
        { unfold m1, take_samples. cbn [ncols]. lia. }
        split.
        { rewrite Hc, Hc1. reflexivity. }
        intros c j Hcc Hj. rewrite Hit by assumption.
        cbn [sample_sum fold_left]. unfold sample_sum. f_equal.
        pose proof (common_length_le (ncols m1) (loaded_tracks rest)) as Hle.
        unfold m1 at 1. unfold take_samples. cbn [item2 nrows ncols].
        rewrite Hm, Ha.
        rewrite !bidx_in_range by lia. reflexivity.
    + cbn [mix_tracks mix_step loaded_tracks flat_map app bind] in *.
      apply IH; assumption.
Qed.


Lemma common_length_le_all (n : nat) (l : list (ndarray2 R)) (a : ndarray2 R) :
  In a l -> (common_length n l <= ncols a)%nat.
Proof.
  revert n. induction l as [|b r IH]; intros n Hin; [destruct Hin|].
  cbn [common_length fold_left]. fold (common_length (Nat.min n (ncols b)) r).
  destruct Hin as [<-|Hin].
  - pose proof (common_length_le (Nat.min n (ncols b)) r). lia.
  - apply IH. exact Hin.
Qed.

(** X12.  The mix of [main]: missing tracks are skipped; when none is found
    [mixed_audio] stays [None] (and [main] exits); otherwise, for tracks of
    one channel count, the mix has the length of the shortest track found
    and each of its samples is the sum of the samples of all tracks found
    at that position. *)
Theorem mix_tracks_sum (ch : nat) (tracks : list (option loaded)) :
  (forall a, In a (loaded_tracks tracks) -> nrows a = ch) ->
  match loaded_tracks tracks with
  | [] => mix_tracks tracks None = Ok None
  | first :: others =>
    exists mixed,
      mix_tracks tracks None = Ok (Some mixed) /\
      nrows mixed = ch /\
      ncols mixed = common_length (ncols first) others /\
      (forall a, In a (first :: others) -> (ncols mixed <= ncols a)%nat) /\
      forall c j, (c < ch)%nat -> (j < ncols mixed)%nat ->
        item2 mixed c j = sample_sum 0 (first :: others) c j
  end.
Proof.
  induction tracks as [|track rest IH]; intros Hall.
  - reflexivity.
  - destruct track as [l|].
    + cbn [loaded_tracks flat_map app mix_tracks mix_step bind] in *.
      fold (loaded_tracks rest) in *.
      destruct (mix_tracks_Some ch rest (load_audio l)) as [mixed [Hmix [Hr [Hc Hit]]]].
      * apply Hall. left. reflexivity.
      * intros a Hin. apply Hall. right. exact Hin.
      * exists mixed. split; [exact Hmix|]. split; [exact Hr|].
        split; [exact Hc|]. split.
        { intros a [<-|Hin]; rewrite Hc.
          - apply common_length_le.
          - apply common_length_le_all. exact Hin. }
        intros c j Hcc Hj. rewrite Hit by assumption.
        cbn [sample_sum fold_left]. unfold sample_sum.
        rewrite Rplus_0_l. reflexivity.
    + cbn [loaded_tracks flat_map app mix_tracks mix_step bind] in *.
      apply IH. exact Hall.
Qed.

Lemma mix_tracks_sum_witness :
  (forall a,
     In a (loaded_tracks [Some track_a; None; Some track_b; Some track_c]) ->
     nrows a = 2%nat) /\
  exists mixed,
    mix_tracks [Some track_a; None; Some track_b; Some track_c] None
      = Ok (Some mixed) /\
    nrows mixed = 2%nat /\
    ncols mixed = 2%nat.
Proof.
  assert (H : forall a,
     In a (loaded_tracks [Some track_a; None; Some track_b; Some track_c]) ->
     nrows a = 2%nat).
  { intros a Hin. cbn in Hin.
    destruct Hin as [<- | [<- | [<- | []]]]; reflexivity. }
  split; [exact H|].
  pose proof (mix_tracks_sum 2 [Some track_a; None; Some track_b; Some track_c] H)
    as K.
  cbn [loaded_tracks flat_map app] in K.
  destruct K as [mixed [Hm [Hr [Hc _]]]].
  exists mixed. split; [exact Hm|]. split; [exact Hr | exact Hc].
Defined.

(** *** The peak of the mix *)

Lemma flat_map_nil {A B : Type} (l : list A) :
  flat_map (fun _ : A => @nil B) l = [].
Proof. induction l; simpl; auto. Qed.

Lemma In_ravel (a : ndarray2 R) (x : R) :
  In x (ravel a) <->
  exists i j, (i < nrows a)%nat /\ (j < ncols a)%nat /\ x = item2 a i j.
Proof.
  unfold ravel. rewrite in_flat_map. split.
  - intros [i [Hi Hx]]. apply in_map_iff in Hx. destruct Hx as [j [<- Hj]].
    apply in_seq in Hi, Hj. exists i, j. repeat split; lia.
  - intros [i [j [Hi [Hj ->]]]]. exists i. split; [apply in_seq; lia|].
    apply in_map. apply in_seq. lia.
Qed.

Lemma fold_left_Rmax_ge (l : list R) (x : R) : x <= fold_left Rmax l x.
Proof.
  revert x. induction l as [|y l IH]; intros x; cbn [fold_left].
  - lra.
  - specialize (IH (Rmax x y)). pose proof (Rmax_l x y). lra.
Qed.

Lemma fold_left_Rmax_spec (l : list R) (x : R) :
  (forall y, In y (x :: l) -> y <= fold_left Rmax l x) /\
  In (fold_left Rmax l x) (x :: l).
Proof.
  revert x. induction l as [|z l IH]; intros x; cbn [fold_left].
  - split; [intros y [<-|[]]; lra | left; reflexivity].
  - destruct (IH (Rmax x z)) as [Hle Hin]. split.
    + pose proof (fold_left_Rmax_ge l (Rmax x z)) as Hge.
      intros y [Hx|[Hz|Hy]].
      * subst y. pose proof (Rmax_l x z). lra.
      * subst y. pose proof (Rmax_r x z). lra.
      * apply Hle. right. exact Hy.
    + destruct Hin as [E|Hin].
      * rewrite <- E.
        unfold Rmax. destruct (Rle_dec x z); [right; left | left]; reflexivity.
      * right. right. exact Hin.
Qed.

Lemma np_max_abs_spec (a : ndarray2 R) :
  (0 < nrows a)%nat -> (0 < ncols a)%nat ->
  exists peak,
    np_max_abs a = Ok peak /\
    (forall i j, (i < nrows a)%nat -> (j < ncols a)%nat ->
       Rabs (item2 a i j) <= peak) /\
    (exists i j, (i < nrows a)%nat /\ (j < ncols a)%nat /\
       Rabs (item2 a i j) = peak).
Proof.
  intros Hr Hc. unfold np_max_abs.
  destruct (map Rabs (ravel a)) as [|x l] eqn:E.
  - exfalso.
    assert (Hin : In (Rabs (item2 a 0 0)) (map Rabs (ravel a))).
    { apply in_map. apply In_ravel. exists 0%nat, 0%nat. auto. }
    rewrite E in Hin. destruct Hin.
  - destruct (fold_left_Rmax_spec l x) as [Hle Hin].
    exists (fold_left Rmax l x). split; [reflexivity|]. split.
    + intros i j Hi Hj. apply Hle. rewrite <- E.
      apply in_map. apply In_ravel. exists i, j. auto.
    + rewrite <- E in Hin. apply in_map_iff in Hin.
      destruct Hin as [v [Hv Hin]]. apply In_ravel in Hin.
      destruct Hin as [i [j [Hi [Hj ->]]]]. exists i, j. auto.
Qed.

Lemma ravel_empty (a : ndarray2 R) :
  nrows a = 0%nat \/ ncols a = 0%nat -> ravel a = [].
Proof.
  unfold ravel. intros [-> | ->].
  - reflexivity.
  - cbn [seq map]. apply flat_map_nil.
Qed.

(** X13.  The normalisation of the mix.  On a mix with at least one sample
    the divisor is the largest magnitude among the samples; when it is not
    0, no sample of the result exceeds 1 in magnitude and one of them has
    magnitude exactly 1; on a silent mix every sample becomes 0/0, not a
    number; a mix without samples is refused by [np.max] with a
    [ValueError]. *)
Theorem normalize_mix_peak (mixed_audio : ndarray2 R) :
  (nrows mixed_audio = 0%nat \/ ncols mixed_audio = 0%nat ->
   normalize_mix mixed_audio = Raise ValueError) /\
  ((0 < nrows mixed_audio)%nat -> (0 < ncols mixed_audio)%nat ->
   exists peak normalized,
     np_max_abs mixed_audio = Ok peak /\
     normalize_mix mixed_audio = Ok normalized /\
     nrows normalized = nrows mixed_audio /\
     ncols normalized = ncols mixed_audio /\
     (forall i j, (i < nrows mixed_audio)%nat -> (j < ncols mixed_audio)%nat ->
        Rabs (item2 mixed_audio i j) <= peak) /\
     (peak <> 0 ->
      (forall i j, (i < nrows mixed_audio)%nat -> (j < ncols mixed_audio)%nat ->
         exists v, item2 normalized i j = Some v /\
                   v = item2 mixed_audio i j / peak /\ Rabs v <= 1) /\
      (exists i j v, (i < nrows mixed_audio)%nat /\ (j < ncols mixed_audio)%nat /\
         item2 normalized i j = Some v /\ Rabs v = 1)) /\
     (peak = 0 ->
      forall i j, (i < nrows mixed_audio)%nat -> (j < ncols mixed_audio)%nat ->
        item2 mixed_audio i j = 0 /\ item2 normalized i j = None)).
Proof.
  split.
  - intros He. unfold normalize_mix, np_max_abs.
    rewrite ravel_empty by exact He. reflexivity.
  - intros Hr Hc.
    destruct (np_max_abs_spec mixed_audio Hr Hc) as [peak [Hp [Hle [i0 [j0 [Hi0 [Hj0 Hmax]]]]]]].
    assert (Hpos : 0 <= peak) by (rewrite <- Hmax; apply Rabs_pos).
    exists peak. unfold normalize_mix. rewrite Hp. cbn [bind].
    eexists. split; [reflexivity|]. split; [reflexivity|].
    split; [reflexivity|]. split; [reflexivity|].
    split; [exact Hle|]. cbn [item2]. split.
    + intros Hne.
      assert (Hgt : 0 < peak) by lra.
      assert (Hdiv : forall x, Rabs (x / peak) = Rabs x / peak).
      { intros x. unfold Rdiv. rewrite Rabs_mult, Rabs_inv.
        rewrite (Rabs_pos_eq peak) by lra. reflexivity. }
      split.
      * intros i j Hi Hj.
        destruct (Req_EM_T peak 0) as [E|_]; [contradiction|].
        eexists. split; [reflexivity|]. split; [reflexivity|].
        rewrite Hdiv. specialize (Hle i j Hi Hj).
        apply Rmult_le_reg_r with peak; [exact Hgt|].
        unfold Rdiv. rewrite Rmult_assoc, Rinv_l by lra. lra.
      * exists i0, j0. 
        destruct (Req_EM_T peak 0) as [E|_]; [contradiction|].
        eexists. split; [exact Hi0|]. split; [exact Hj0|].
        split; [reflexivity|].
        rewrite Hdiv, Hmax. field. lra.
    + intros E i j Hi Hj.
      destruct (Req_EM_T peak 0) as [_|Hn]; [|contradiction].
      split; [|reflexivity].
      specialize (Hle i j Hi Hj). rewrite E in Hle.
      pose proof (Rabs_pos (item2 mixed_audio i j)).
      destruct (Req_dec (item2 mixed_audio i j) 0) as [Hz|Hz]; [exact Hz|].
      apply Rabs_pos_lt in Hz. lra.
Qed.

Lemma normalize_mix_peak_witness :
  (0 < nrows (load_audio track_c))%nat /\ (0 < ncols (load_audio track_c))%nat /\
  exists peak normalized,
    np_max_abs (load_audio track_c) = Ok peak /\
    normalize_mix (load_audio track_c) = Ok normalized /\
    forall i j, (i < nrows (load_audio track_c))%nat ->
                (j < ncols (load_audio track_c))%nat ->
      Rabs (item2 (load_audio track_c) i j) <= peak.
Proof.
  split; [simpl; lia|]. split; [simpl; lia|].
  destruct (proj2 (normalize_mix_peak (load_audio track_c))
              ltac:(simpl; lia) ltac:(simpl; lia))
    as [peak [normalized [Hp [Hn [_ [_ [Hle _]]]]]]].
  exists peak, normalized. split; [exact Hp|]. split; [exact Hn | exact Hle].
Defined.

(** ** The verdict of [compare_outputs] *)

Lemma abs_diff_sym (a b : list R) :
  map2 (fun x y => Rabs (x - y)) a b = map2 (fun x y => Rabs (x - y)) b a.
Proof.
  revert b. induction a as [|x a IH]; intros [|y b]; cbn [map2]; try reflexivity.
  rewrite IH, Rabs_minus_sym. reflexivity.
Qed.

Lemma count_below_le (tolerance : R) (a : list R) :
  (count_below tolerance a <= length a)%nat.
Proof. unfold count_below. apply filter_length_le. Qed.

Lemma count_below_self (a : list R) :
  count_below (1 / 1000) (map2 (fun x y => Rabs (x - y)) a a) = length a.
Proof.
  unfold count_below. induction a as [|x a IH]; [reflexivity|].
  cbn [map2 filter].
  replace (x - x) with 0 by ring. rewrite Rabs_R0.
  destruct (Rlt_dec 0 (1 / 1000)) as [_|Hn]; [|lra].
  cbn [length]. rewrite IH. reflexivity.
Qed.

Lemma compare_outputs_eq (a b : ndarray) :
  shape a = shape b -> data a <> [] -> length (data a) = length (data b) ->
  compare_outputs a b =
  Ok (let match_ratio :=
        INR (count_below (1 / 1000) (map2 (fun x y => Rabs (x - y)) (data a) (data b)))
        / INR (length (data a)) in
      if Rlt_dec (99 / 100) match_ratio then Verified
      else if Rlt_dec (95 / 100) match_ratio then MostlyEqual
           else Different).
Proof.
  intros Hs Ha Hl. unfold compare_outputs.
  destruct (list_eq_dec Nat.eq_dec (shape a) (shape b)) as [_|Hn]; [|contradiction].
  rewrite map2_length, <- Hl, Nat.min_id.
  destruct (data a) as [|x la]; [congruence|].
  destruct (data b) as [|y lb]; [discriminate|].
  reflexivity.
Qed.

(** X14.  The verdict of [compare_outputs] on two outputs of one shape with
    at least one element: it does not depend on which output is given
    first; an output compared with itself is verified; and the outputs are
    verified exactly when fewer than one element in a hundred differs by
    the tolerance 0.001 or more.  Outputs of different shapes are only
    reported as such, and outputs without elements raise [ValueError]. *)
Theorem compare_outputs_verdict (onnx_output coreml_output : ndarray) :
  (shape onnx_output <> shape coreml_output ->
   compare_outputs onnx_output coreml_output = Ok ShapesDiffer) /\
  (shape onnx_output = shape coreml_output -> data onnx_output = [] ->
   compare_outputs onnx_output coreml_output = Raise ValueError) /\
  (shape onnx_output = shape coreml_output ->
   data onnx_output <> [] ->
   length (data onnx_output) = length (data coreml_output) ->
   let abs_diff :=
     map2 (fun a b => Rabs (a - b)) (data onnx_output) (data coreml_output) in
   let mismatches := (length abs_diff - count_below (1 / 1000) abs_diff)%nat in
   compare_outputs onnx_output coreml_output =
     compare_outputs coreml_output onnx_output /\
   compare_outputs onnx_output onnx_output = Ok Verified /\
   (compare_outputs onnx_output coreml_output = Ok Verified <->
    (100 * mismatches < length abs_diff)%nat)).
Proof.
  split; [|split].
  - intros Hs. unfold compare_outputs.
    destruct (list_eq_dec Nat.eq_dec (shape onnx_output) (shape coreml_output));
      [contradiction | reflexivity].
  - intros Hs Hd. unfold compare_outputs. rewrite Hd.
    destruct (list_eq_dec Nat.eq_dec (shape onnx_output) (shape coreml_output));
      [reflexivity | contradiction].
  - intros Hs Ha Hl. cbv zeta.
    assert (Hb : data coreml_output <> []).
    { intros E. rewrite E in Hl. destruct (data onnx_output); simpl in Hl;
        [congruence | discriminate]. }
    assert (Hpos : (0 < length (data onnx_output))%nat)
      by (apply nonempty_length, Ha).
    split; [|split].
    + rewrite (compare_outputs_eq onnx_output coreml_output Hs Ha Hl).
      rewrite (compare_outputs_eq coreml_output onnx_output (eq_sym Hs) Hb (eq_sym Hl)).
      rewrite abs_diff_sym, Hl. reflexivity.
    + rewrite (compare_outputs_eq onnx_output onnx_output eq_refl Ha eq_refl).
      cbv zeta. rewrite count_below_self.
      assert (0 < INR (length (data onnx_output))) by (apply lt_0_INR; exact Hpos).
      replace (INR (length (data onnx_output)) / INR (length (data onnx_output)))
        with 1 by (field; lra).
      destruct (Rlt_dec (99 / 100) 1) as [_|Hn]; [reflexivity | lra].
    + rewrite (compare_outputs_eq onnx_output coreml_output Hs Ha Hl). cbv zeta.
      rewrite map2_length, <- Hl, Nat.min_id.
      set (abs_diff := map2 (fun a b => Rabs (a - b)) (data onnx_output)
                            (data coreml_output)).
      pose proof (count_below_le (1 / 1000) abs_diff) as Hle.
      assert (Hlen : length abs_diff = length (data onnx_output))
        by (unfold abs_diff; rewrite map2_length, <- Hl; apply Nat.min_id).
      rewrite Hlen in Hle.
      set (n := length (data onnx_output)) in *.
      set (m := count_below (1 / 1000) abs_diff) in *.
      assert (Hn : 0 < INR n) by (apply lt_0_INR; exact Hpos).
      assert (Hratio : 99 / 100 < INR m / INR n <-> (100 * (n - m) < n)%nat).
      { split.
        - intros Hr.
          assert (H1 : 99 * INR n < 100 * INR m).
          { apply Rmult_lt_compat_r with (r := INR n) in Hr; [|exact Hn].
            replace (INR m / INR n * INR n) with (INR m) in Hr by (field; lra).
            lra. }
          assert (H2 : (99 * n < 100 * m)%nat).
          { apply INR_lt. rewrite !mult_INR.
            replace (INR 99) with 99 by (rewrite INR_IZR_INZ; reflexivity).
            replace (INR 100) with 100 by (rewrite INR_IZR_INZ; reflexivity).
            exact H1. }
          lia.
        - intros Hc.
          assert (H2 : (99 * n < 100 * m)%nat) by lia.
          apply lt_INR in H2. rewrite !mult_INR in H2.
          replace (INR 99) with 99 in H2 by (rewrite INR_IZR_INZ; reflexivity).
          replace (INR 100) with 100 in H2 by (rewrite INR_IZR_INZ; reflexivity).
          apply Rmult_lt_reg_r with (r := INR n); [exact Hn|].
          replace (INR m / INR n * INR n) with (INR m) by (field; lra).
          lra. }
      destruct (Rlt_dec (99 / 100) (INR m / INR n)) as [Hr|Hr].
      * split; [intros _; apply Hratio; exact Hr | reflexivity].
      * split.
        -- intros E. destruct (Rlt_dec (95 / 100) (INR m / INR n)); discriminate.
        -- intros Hc. exfalso. apply Hr. apply Hratio. exact Hc.
Qed.

Lemma compare_outputs_verdict_witness :
  compare_outputs output_a output_b = compare_outputs output_b output_a /\
  compare_outputs output_a output_a = Ok Verified.
Proof.
  destruct (proj2 (proj2 (compare_outputs_verdict output_a output_b))
              eq_refl ltac:(discriminate) eq_refl) as [Hsym [Hself _]].
  split; [exact Hsym | exact Hself].
Defined.

(** ** The scaling test of [compare_stft_scaling.py] *)

Lemma rfft_irfft_even (x : list R) :
  x <> [] -> Nat.even (length x) = true -> rfft_irfft x = Ok x.
Proof.
  intros Hx He. unfold rfft_irfft, np_irfft.
  rewrite np_rfft_nonempty by exact Hx. cbn [bind].
  rewrite length_firstn, dft_length, length_map.
  assert (Hpos : (0 < length x)%nat) by (apply nonempty_length, Hx).
  pose proof (even_half _ He) as Hh.
  replace (2 * (Nat.min (length x / 2 + 1) (length x) - 1))%nat
    with (length x) by lia.
  apply irfft_n_rfft, Hx.
Qed.

Lemma hann_periodic_nth_range (N n : nat) : 0 <= nth n (hann_periodic N) 0 <= 1.
Proof.
  destruct (Nat.lt_ge_cases n N) as [Hn|Hn].
  - unfold hann_periodic.
    rewrite (nth_map_seq (fun n => 0.5 - 0.5 * cos (2 * PI * INR n / INR N)))
      by exact Hn.
    pose proof (COS_bound (2 * PI * INR n / INR N)). lra.
  - rewrite nth_overflow by (rewrite hann_periodic_length; exact Hn). lra.
Qed.

(** X15.  The scaling test on a frame of [n_fft] samples, [n_fft] even:
    [np.fft.irfft] has divided by the length already, so [ifft_scaled], its
    output divided once more by [n_fft], is the frame divided by [n_fft];
    and [ifft_windowed] is the frame times the window, nowhere larger in
    magnitude than the frame. *)
Theorem scaling_test_values (test_frame : list R) (n_fft : nat) :
  length test_frame = n_fft -> (0 < n_fft)%nat -> Nat.even n_fft = true ->
  ifft_scaled test_frame n_fft = Ok (map (fun v => v / INR n_fft) test_frame) /\
  exists w,
    ifft_windowed test_frame n_fft = Ok w /\
    length w = n_fft /\
    forall n, (n < n_fft)%nat ->
      nth n w 0 = nth n test_frame 0 * nth n (hann_periodic n_fft) 0 /\
      Rabs (nth n w 0) <= Rabs (nth n test_frame 0).
Proof.
  intros Hl Hpos He.
  assert (Hx : test_frame <> []) by (apply nonempty_length; lia).
  split.
  - unfold ifft_scaled. rewrite rfft_irfft_even by (rewrite ?Hl; assumption).
    reflexivity.
  - unfold ifft_windowed.
    rewrite np_mul1_same_length by (rewrite hann_periodic_length; exact Hl).
    cbn [bind].
    assert (Hw : length (map2 Rmult test_frame (hann_periodic n_fft)) = n_fft)
      by (rewrite map2_length, hann_periodic_length; lia).
    rewrite rfft_irfft_even
      by (rewrite ?Hw; try assumption; apply nonempty_length; lia).
    eexists. split; [reflexivity|]. split; [exact Hw|].
    intros n Hn.
    rewrite (nth_map2 Rmult test_frame (hann_periodic n_fft) n 0 0 0)
      by (rewrite ?hann_periodic_length; lia).
    split; [reflexivity|].
    pose proof (hann_periodic_nth_range n_fft n) as Hr.
    rewrite Rabs_mult, (Rabs_pos_eq (nth n (hann_periodic n_fft) 0)) by lra.
    pose proof (Rabs_pos (nth n test_frame 0)). nra.
Qed.

Lemma scaling_test_values_witness :
  length [1; 2; 3; 4] = 4%nat /\ (0 < 4)%nat /\ Nat.even 4 = true /\
  ifft_scaled [1; 2; 3; 4] 4 = Ok (map (fun v => v / INR 4) [1; 2; 3; 4]).
Proof.
  split; [reflexivity|]. split; [lia|]. split; [reflexivity|].
  apply (scaling_test_values [1; 2; 3; 4] 4); [reflexivity | lia | reflexivity].
Defined.
